(** * hashset.h: an open-addressing hash set with tombstones

    A shallow embedding of the function family that [HASHSET_DECLARE]
    generates (src/hashset.h), of the sample hashes [hashset_hash_int32]
    and [hashset_hash_char], and of the [u32] instantiation and [main] of
    src/example.c, followed by the properties of the set that the
    specification states and by further properties of the code. A second
    instantiation, with 64-bit keys, exercises tables of more than [2^32]
    cells.

    Conventions of the embedding:
    - [size_t] values are [Z] wrapped modulo [2^64], [unsigned int] (and
      [hashset_hash_t], its default) values are [Z] wrapped modulo [2^32];
    - a C array pointer is an [option (list _)]: [None] is [NULL];
    - reading or writing through [NULL] or past the end of an array is
      undefined behaviour in C; the embedding reports it as a [Fault];
    - the [while] loop of [find_slot] runs on fuel, which the caller sets to
      one more than the capacity;
    - [double] arithmetic is IEEE 754 binary64, rounding to nearest with
      ties to even. *)

From Stdlib Require Import ZArith Lia Bool.
From Stdlib Require Import PrimFloat.
From Stdlib Require Uint63 FloatOps.
From stdpp Require Import base list.

#[local] Open Scope Z_scope.
#[local] Unset Default Proof Using.

(** ** Machine integers *)

Definition uint (x : Z) : Z := x mod 2 ^ 32.
Definition size_t (x : Z) : Z := x mod 2 ^ 64.

(** ** Results of operations that may run into undefined behaviour *)

Inductive fault : Type :=
| NullDeref      (* an array pointer that is NULL was indexed *)
| OutOfBounds    (* an index past the end of the array *)
| OutOfFuel.     (* the probe loop did not finish *)

Inductive result (A : Type) : Type :=
| Ok (a : A)
| Fault (f : fault).

Arguments Ok {A} a.
Arguments Fault {A} f.

Definition bind {A B : Type} (m : result A) (k : A -> result B) : result B :=
  match m with
  | Ok a => k a
  | Fault f => Fault f
  end.

Notation "'let*' x ':=' m 'in' k" := (bind m (fun x => k))
  (at level 10, x pattern, m at level 100, k at level 200).

(** [p[i]] as an rvalue and [p[i] = x]. *)
Definition load {A : Type} (p : option (list A)) (i : Z) : result A :=
  match p with
  | None => Fault NullDeref
  | Some a =>
      if i <? 0 then Fault OutOfBounds
      else match a !! Z.to_nat i with
           | Some x => Ok x
           | None => Fault OutOfBounds
           end
  end.

Definition store {A : Type} (p : option (list A)) (i : Z) (x : A)
  : result (option (list A)) :=
  match p with
  | None => Fault NullDeref
  | Some a =>
      if (i <? 0) || (Z.of_nat (length a) <=? i) then Fault OutOfBounds
      else Ok (Some (<[Z.to_nat i := x]> a))
  end.

(** ** Configuration *)

Definition HASHSET_INITIAL_CAPACITY : Z := 16.

(** [HASHSET_MAX_LOAD_FACTOR] is the [double] constant [0.7], which is
    the rational [6305039478318694 / 2^53]. *)
Definition HASHSET_MAX_LOAD_FACTOR_num : Z := 6305039478318694.
Definition HASHSET_MAX_LOAD_FACTOR_den : Z := 2 ^ 53.

(** [(double)x] for a [size_t] [x]: the binary64 value nearest to [x],
    a tie going to the even significand. The value is [x] itself below
    [2^53] and an integer in every case. *)
Definition double_of_size_t (x : Z) : Z :=
  if x <? 2 ^ 53 then x
  else
    let e := Z.log2 x - 52 in
    let q := x / 2 ^ e in
    let r := x mod 2 ^ e in
    if (2 ^ (e - 1) <? r) || ((r =? 2 ^ (e - 1)) && Z.odd q)
    then (q + 1) * 2 ^ e
    else q * 2 ^ e.

(** The same conversion on the machine's binary64 numbers. [of_uint63]
    takes 63 bits; a 64-bit operand is halved with its low bit kept as a
    sticky bit, converted and doubled. *)
Definition float_of_size_t (x : Z) : float :=
  if x <? 2 ^ 63 then PrimFloat.of_uint63 (Uint63.of_Z x)
  else PrimFloat.mul
         (PrimFloat.of_uint63
            (Uint63.of_Z (Z.lor (Z.shiftr x 1) (Z.land x 1))))
         2%float.

(** The integer that a binary64 number is, [-1] when it is none. *)
Definition Z_of_float (f : float) : Z :=
  match FloatOps.Prim2SF f with
  | SpecFloat.S754_zero _ => 0
  | SpecFloat.S754_finite false m e =>
      if 0 <=? e then Z.pos m * 2 ^ e
      else if Z.pos m mod 2 ^ (- e) =? 0 then Z.pos m / 2 ^ (- e)
      else -1
  | _ => -1
  end.

(** The test [(double)size / capacity > HASHSET_MAX_LOAD_FACTOR] on the
    machine's binary64 numbers. *)
Definition load_factor_exceeded_double (size capacity : Z) : bool :=
  PrimFloat.ltb 0x1.6666666666666p-1%float
    (PrimFloat.div (float_of_size_t size) (float_of_size_t capacity)).

(** Operands of the conversion to [double] around the powers of two from
    [2^53] on, where rounding sets in and the spacing of the [double]s
    changes. *)
Definition conversion_samples : list Z :=
  flat_map
    (fun b =>
       map (fun d => b + d)
         [-2050; -2049; -2048; -2047; -1025; -1024; -1023; -513; -512; -511;
          -3; -2; -1; 0; 1; 2; 3; 4; 5; 6; 7; 8; 511; 512; 513; 1023; 1024;
          1025; 1535; 1536; 1537; 2047; 2048; 2049; 3071; 3072; 3073])
    (map (fun a => 2 ^ a) [53; 54; 55; 56; 60; 62; 63])
  ++ map (fun d => 2 ^ 64 - d)
       [1; 2; 3; 1023; 1024; 1025; 1026; 2047; 2048; 2049; 3071; 3072; 3073;
        4096]
  ++ [0; 1; 2; 3; 7; 100; 12345678901234567; 12610078956637389].

(** Operands (size, capacity) of the load factor test: every size up to
    one past the capacity at the capacities 0, 1, 2, ..., 100, a power of
    two or not; pairs of operands that the conversion rounds; and sizes
    on both sides of seven tenths of capacities of every magnitude. *)
Definition load_factor_samples : list (Z * Z) :=
  flat_map (fun c => map (fun n => (Z.of_nat n, Z.of_nat c)) (seq 0 (S (S c))))
    (seq 0 101)
  ++ (let corners :=
        [0; 1; 7; 2 ^ 53 - 1; 2 ^ 53; 2 ^ 53 + 1; 2 ^ 53 + 3; 2 ^ 54 + 2;
         2 ^ 54 + 6; 2 ^ 60 + 128; 2 ^ 60 + 384; 2 ^ 63 - 1; 2 ^ 63;
         2 ^ 63 + 1024; 2 ^ 63 + 1025; 2 ^ 63 + 3072; 2 ^ 64 - 1024;
         2 ^ 64 - 1] in
      flat_map (fun c => map (fun n => (n, c)) corners) corners)
  ++ flat_map
       (fun c => map (fun d => (7 * c / 10 + d, c)) [-3; -2; -1; 0; 1; 2; 3])
       [10; 1000; 12345; 10 ^ 9; 10 ^ 12; 10 ^ 15; 2 ^ 53 - 1; 2 ^ 53;
        2 ^ 53 + 2; 2 ^ 54; 2 ^ 60 + 12345; 2 ^ 62; 2 ^ 63; 2 ^ 63 + 4096;
        2 ^ 64 - 1; 3 ^ 33; 7 ^ 20; 10 ^ 19].

(** Which field of the set a call of [HASHSET_FREE] released. *)
Inductive freed : Type := FreedData | FreedState.

(** ** The code generated by [HASHSET_DECLARE(prefix, type, hash_fn, eq_fn)]

    Each function is given first for a set pointer that is not NULL, as a
    function of the fields of the set; its [set == NULL] guard is in the
    entry point of the same name with [_at] below. *)

Section HASHSET_DECLARE.

Variable type : Type.
(** The value of [type] whose bytes are all zero, as [calloc] leaves it. *)
Variable zero : type.
Variable hash_fn : type -> Z -> Z.
Variable eq_fn : type -> Z -> type -> Z -> bool.
(** [sizeof(prefix##_##type##_size_pair)]. *)
Variable sizeof_pair : Z.
(** [HASHSET_CALLOC]: whether a request for [nmemb] cells of [sz] bytes
    is served (a non-NULL, zeroed block) or refused (NULL). *)
Variable calloc_ok : Z -> Z -> bool.

(** The second field is [size] in C, a name that the set has too. *)
Record size_pair : Type := { val : type; val_size : Z }.

Record hashset : Type := {
  data : option (list size_pair);
  state : option (list Z);          (* 0=empty,1=used,2=deleted *)
  size : Z;
  capacity : Z
}.

Definition HASHSET_CALLOC {A : Type} (z : A) (nmemb sz : Z) : option (list A) :=
  if calloc_ok nmemb sz then Some (replicate (Z.to_nat nmemb) z) else None.

Definition zero_pair : size_pair := {| val := zero; val_size := 0 |}.

(** [prefix##_set_init]. *)
Definition set_init : Z * hashset :=
  let size0 := 0 in
  let capacity0 := HASHSET_INITIAL_CAPACITY in
  let data0 := HASHSET_CALLOC zero_pair capacity0 sizeof_pair in
  let state0 := HASHSET_CALLOC 0 capacity0 1 in
  (0, {| data := data0; state := state0; size := size0; capacity := capacity0 |}).

(** [prefix##_set_destroy]: the set left behind and the calls of
    [HASHSET_FREE] made. *)
Definition set_destroy (set : hashset) : hashset * list freed :=
  let f1 := match data set with Some _ => [FreedData] | None => [] end in
  let f2 := match state set with Some _ => [FreedState] | None => [] end in
  ({| data := None; state := None; size := 0; capacity := 0 |}, f1 ++ f2).

(** The [while] loop of [prefix##_set_find_slot]. *)
Fixpoint find_slot_loop (fuel : nat) (set : hashset) (key : type) (key_len : Z)
    (mask start idx : Z) : result Z :=
  match fuel with
  | O => Fault OutOfFuel
  | S fuel' =>
      let* st := load (state set) idx in
      if st =? 1 then
        let* e := load (data set) idx in
        if negb (eq_fn (val e) (val_size e) key key_len) then
          let idx' := uint (Z.land (uint (idx + 1)) mask) in
          if idx' =? start then Ok (capacity set) (* full *)
          else find_slot_loop fuel' set key key_len mask start idx'
        else Ok idx
      else Ok idx
  end.

(** [prefix##_set_find_slot]. *)
Definition set_find_slot (set : hashset) (key : type) (key_len : Z) : result Z :=
  let mask := size_t (capacity set - 1) in
  let idx := uint (Z.land (hash_fn key key_len) mask) in
  let start := idx in
  find_slot_loop (S (Z.to_nat (capacity set))) set key key_len mask start idx.

(** The [for] loop of [prefix##_set_resize], with [n] iterations to go. *)
Fixpoint resize_loop (n : nat) (i : Z) (old_data : option (list size_pair))
    (old_state : option (list Z)) (set : hashset) : result hashset :=
  match n with
  | O => Ok set
  | S n' =>
      let* st := load old_state i in
      let* set' :=
        (if st =? 1 then
           let* v := load old_data i in
           let* slot := set_find_slot set (val v) (val_size v) in
           if slot <? 0 then Ok set
           else
             let* d := store (data set) slot v in
             let* t := store (state set) slot 1 in
             Ok {| data := d; state := t;
                   size := size_t (size set + 1); capacity := capacity set |}
         else Ok set) in
      resize_loop n' (i + 1) old_data old_state set'
  end.

(** [prefix##_set_resize]. The old arrays are released at the end and
    are not reachable from the set any more. *)
Definition set_resize (set : hashset) (newcap : Z) : result (Z * hashset) :=
  let old_data := data set in
  let old_state := state set in
  let old_cap := capacity set in
  let set1 := {| data := HASHSET_CALLOC zero_pair newcap sizeof_pair;
                 state := HASHSET_CALLOC 0 newcap 1;
                 size := 0; capacity := newcap |} in
  let* set2 := resize_loop (Z.to_nat old_cap) 0 old_data old_state set1 in
  Ok (0, set2).

(** [(double)set->size / set->capacity > HASHSET_MAX_LOAD_FACTOR] in
    binary64 arithmetic. Both operands are converted to [double]; their
    quotient is rounded to the nearest [double], a tie going to the even
    significand. The significand of [0.7] is even, so the rounded
    quotient is above [0.7] exactly when the quotient itself is above the
    midpoint of [0.7] and the next [double],
    [(2 * 6305039478318694 + 1) / 2^54]. A capacity of 0 gives NaN for
    size 0, which is above nothing, and infinity otherwise. *)
Definition load_factor_exceeded (set : hashset) : bool :=
  (2 * HASHSET_MAX_LOAD_FACTOR_num + 1) * double_of_size_t (capacity set)
    <? double_of_size_t (size set) * (2 * HASHSET_MAX_LOAD_FACTOR_den).

(** [prefix##_set_insert]. *)
Definition set_insert (set : hashset) (key : type) (key_len : Z)
  : result (bool * hashset) :=
  let* set :=
    (if load_factor_exceeded set then
       let* r := set_resize set (size_t (capacity set * 2)) in Ok (snd r)
     else Ok set) in
  let* idx := set_find_slot set key key_len in
  if idx <? 0 then Ok (false, set)
  else
    let* st := load (state set) idx in
    if st =? 1 then Ok (false, set) (* already exists *)
    else
      let* d := store (data set) idx {| val := key; val_size := key_len |} in
      let* t := store (state set) idx 1 in
      Ok (true, {| data := d; state := t;
                   size := size_t (size set + 1); capacity := capacity set |}).

(** [prefix##_set_contains]. *)
Definition set_contains (set : hashset) (key : type) (key_len : Z) : result bool :=
  let* idx := set_find_slot set key key_len in
  if idx <? 0 then Ok false
  else
    let* st := load (state set) idx in
    Ok (st =? 1).

(** [prefix##_set_remove]. *)
Definition set_remove (set : hashset) (key : type) (key_len : Z)
  : result (bool * hashset) :=
  let* idx := set_find_slot set key key_len in
  let* st := load (state set) idx in
  if negb (st =? 1) then Ok (false, set)
  else
    let* t := store (state set) idx 2 (* mark deleted *) in
    Ok (true, {| data := data set; state := t;
                 size := size_t (size set - 1); capacity := capacity set |}).

(** *** Vocabulary of the properties *)

(** The condition of the probe loop at slot [i]: the slot is used and
    holds a key that [eq_fn] tells apart from [key]. *)
Definition slot_continues (set : hashset) (key : type) (key_len : Z) (i : Z) : bool :=
  match load (state set) i with
  | Ok st =>
      if st =? 1 then
        match load (data set) i with
        | Ok e => negb (eq_fn (val e) (val_size e) key key_len)
        | Fault _ => false
        end
      else false
  | Fault _ => false
  end.

(** Slot [i] is in state 1 (used). *)
Definition slot_used (set : hashset) (i : Z) : bool :=
  match load (state set) i with
  | Ok st => st =? 1
  | Fault _ => false
  end.

(** The set after [data[idx] = e; state[idx] = 1; size++]. *)
Definition put (set : hashset) (idx : Z) (e : size_pair) : hashset :=
  {| data := option_map (fun d => <[Z.to_nat idx := e]> d) (data set);
     state := option_map (fun t => <[Z.to_nat idx := 1]> t) (state set);
     size := size_t (size set + 1);
     capacity := capacity set |}.

(** The set after [state[idx] = 2; size--]. *)
Definition mark_deleted (set : hashset) (idx : Z) : hashset :=
  {| data := data set;
     state := option_map (fun t => <[Z.to_nat idx := 2]> t) (state set);
     size := size_t (size set - 1);
     capacity := capacity set |}.

(** The slot at which the probe sequence of a key starts. *)
Definition home (set : hashset) (key : type) (key_len : Z) : Z :=
  hash_fn key key_len mod capacity set.

(** The probe sequence of the key stops at slot [r], [m] steps from home. *)
Definition probe_stops (set : hashset) (key : type) (key_len : Z) (r : Z) : Prop :=
  exists m, 0 <= m < capacity set /\
    r = (home set key key_len + m) mod capacity set /\
    slot_continues set key key_len r = false /\
    forall j, 0 <= j < m ->
      slot_continues set key key_len ((home set key key_len + j) mod capacity set) = true.

(** Every slot is used and holds a key other than [key]. *)
Definition probe_full (set : hashset) (key : type) (key_len : Z) : Prop :=
  forall i, 0 <= i < capacity set -> slot_continues set key key_len i = true.

(** Both arrays are allocated with [capacity] cells, and the capacity is
    a power of two that the 32-bit probe index can cover. *)
Definition shape (set : hashset) : Prop :=
  exists d t a,
    data set = Some d /\ state set = Some t /\
    0 <= a <= 32 /\ capacity set = 2 ^ a /\
    Z.of_nat (length d) = capacity set /\ Z.of_nat (length t) = capacity set.

(** Number of slots in state 1 (used). *)
Fixpoint count_used (t : list Z) : Z :=
  match t with
  | [] => 0
  | st :: t' => (if st =? 1 then 1 else 0) + count_used t'
  end.

Definition used_slots (set : hashset) : Z :=
  match state set with
  | Some t => count_used t
  | None => 0
  end.

(** The entry [e] is held by a used slot. *)
Definition live (set : hashset) (e : size_pair) : Prop :=
  exists i, load (state set) i = Ok 1 /\ load (data set) i = Ok e.

(** No slot is in state 2 (deleted). *)
Definition no_tombstone (set : hashset) : Prop :=
  forall i, load (state set) i <> Ok 2.

(** The invariant of the loop of [resize] before it visits old slot [i] of
    [old_cells]: the new table is in shape, no smaller than the old one,
    and [size] counts the entries moved so far. *)
Definition rebuilding (old_cells : Z) (i : Z) (set : hashset) : Prop :=
  shape set /\ old_cells <= capacity set /\
  used_slots set <= size set /\ size set <= i.

(** [set1] is the table in which [insert] looks for the key: the set
    itself, or the set resized to twice its capacity when the load factor
    is exceeded. *)
Definition grown (set set1 : hashset) : Prop :=
  (load_factor_exceeded set = false /\ set1 = set) \/
  (load_factor_exceeded set = true /\
   set_resize set (size_t (capacity set * 2)) = Ok (0, set1)).

(** A run of [insert] over a list of keys: for each call, the set
    before it, what it returned, and the set after it. *)
Fixpoint insert_each (set : hashset) (keys : list size_pair)
  : result (list (hashset * bool * hashset)) :=
  match keys with
  | [] => Ok []
  | e :: keys' =>
      let* r := set_insert set (val e) (val_size e) in
      let* rest := insert_each (snd r) keys' in
      Ok ((set, fst r, snd r) :: rest)
  end.

(** No two keys of the list are equal for [eq_fn]. *)
Fixpoint distinct_keys (keys : list size_pair) : Prop :=
  match keys with
  | [] => True
  | e :: keys' =>
      (forall e', In e' keys' ->
         eq_fn (val e) (val_size e) (val e') (val_size e') = false /\
         eq_fn (val e') (val_size e') (val e) (val_size e) = false) /\
      distinct_keys keys'
  end.

(** The sets that [init], given its two arrays, followed by calls of
    [insert] and [remove] produces, every call running to its end. *)
Inductive reachable : hashset -> Prop :=
| reachable_init :
    data (snd set_init) <> None -> state (snd set_init) <> None ->
    reachable (snd set_init)
| reachable_insert set key key_len ret set' :
    reachable set ->
    set_insert set key key_len = Ok (ret, set') ->
    reachable set'
| reachable_remove set key key_len ret set' :
    reachable set ->
    set_remove set key key_len = Ok (ret, set') ->
    reachable set'.

(** A call of [insert] or of [remove], and a run of such calls. *)
Inductive call : Type :=
| Insert (key : type) (key_len : Z)
| Remove (key : type) (key_len : Z).

Fixpoint run (set : hashset) (calls : list call) : result hashset :=
  match calls with
  | [] => Ok set
  | Insert key key_len :: calls' =>
      let* r := set_insert set key key_len in run (snd r) calls'
  | Remove key key_len :: calls' =>
      let* r := set_remove set key key_len in run (snd r) calls'
  end.

(** What the accounting of [size] maintains on reachable sets: the
    arrays are in shape, [size] bounds the number of used slots and stays
    within one entry of the load factor. *)
Definition accounted (set : hashset) : Prop :=
  shape set /\ HASHSET_INITIAL_CAPACITY <= capacity set /\
  used_slots set <= size set /\
  size set * HASHSET_MAX_LOAD_FACTOR_den
    <= HASHSET_MAX_LOAD_FACTOR_num * capacity set + HASHSET_MAX_LOAD_FACTOR_den.

(** *** The entry points, with their [set == NULL] guard

    The argument is the set pointer: [None] for NULL, [Some s] for a
    pointer to a set whose fields are [s]. *)

Definition set_init_at (set : option hashset) : Z * option hashset :=
  match set with
  | None => (-1, None)
  | Some _ => (fst set_init, Some (snd set_init))
  end.

Definition set_destroy_at (set : option hashset) : option hashset * list freed :=
  match set with
  | None => (None, [])
  | Some s => (Some (fst (set_destroy s)), snd (set_destroy s))
  end.

Definition set_find_slot_at (set : option hashset) (key : type) (key_len : Z)
  : result Z :=
  match set with
  | None => Ok (size_t (-1))
  | Some s => set_find_slot s key key_len
  end.

Definition set_resize_at (set : option hashset) (newcap : Z)
  : result (Z * option hashset) :=
  match set with
  | None => Ok (-1, None)
  | Some s => let* r := set_resize s newcap in Ok (fst r, Some (snd r))
  end.

Definition set_insert_at (set : option hashset) (key : type) (key_len : Z)
  : result (bool * option hashset) :=
  match set with
  | None => Ok (false, None)
  | Some s => let* r := set_insert s key key_len in Ok (fst r, Some (snd r))
  end.

Definition set_contains_at (set : option hashset) (key : type) (key_len : Z)
  : result bool :=
  match set with
  | None => Ok false
  | Some s => set_contains s key key_len
  end.

Definition set_remove_at (set : option hashset) (key : type) (key_len : Z)
  : result (bool * option hashset) :=
  match set with
  | None => Ok (false, None)
  | Some s => let* r := set_remove s key key_len in Ok (fst r, Some (snd r))
  end.

End HASHSET_DECLARE.

Arguments val {type} _.
Arguments val_size {type} _.
Arguments data {type} _.
Arguments state {type} _.
Arguments size {type} _.
Arguments capacity {type} _.

(** ** The sample hash function and the instantiation of example.c *)

(** [hashset_hash_int32], on [uint32_t]. *)
Definition hashset_hash_int32 (a : Z) (ignored : Z) : Z :=
  let a := Z.lxor (Z.lxor a 61) (Z.shiftr a 16) in
  let a := uint (a + uint (Z.shiftl a 3)) in
  let a := Z.lxor a (Z.shiftr a 4) in
  let a := uint (a * 0x27d4eb2d) in
  let a := Z.lxor a (Z.shiftr a 15) in
  a.

(** [eq_u32] of example.c. *)
Definition eq_u32 (a : Z) (a_size : Z) (b : Z) (b_size : Z) : bool := a =? b.

(** A [calloc] that serves every request of at most [2^32] cells. *)
Definition calloc_upto_2_32 (nmemb sz : Z) : bool :=
  (0 <=? nmemb) && (nmemb <=? 2 ^ 32).

(** [HASHSET_DECLARE(u32, uint32_t, hashset_hash_int32, eq_u32)]. *)
Definition u32_set : Type := hashset Z.
Definition u32_set_init : Z * u32_set :=
  set_init Z 0 8 calloc_upto_2_32.
Definition u32_set_destroy : u32_set -> u32_set * list freed :=
  set_destroy Z.
Definition u32_set_find_slot : u32_set -> Z -> Z -> result Z :=
  set_find_slot Z hashset_hash_int32 eq_u32.
Definition u32_set_resize : u32_set -> Z -> result (Z * u32_set) :=
  set_resize Z 0 hashset_hash_int32 eq_u32 8 calloc_upto_2_32.
Definition u32_set_insert : u32_set -> Z -> Z -> result (bool * u32_set) :=
  set_insert Z 0 hashset_hash_int32 eq_u32 8 calloc_upto_2_32.
Definition u32_set_contains : u32_set -> Z -> Z -> result bool :=
  set_contains Z hashset_hash_int32 eq_u32.
Definition u32_set_remove : u32_set -> Z -> Z -> result (bool * u32_set) :=
  set_remove Z hashset_hash_int32 eq_u32.

Definition u32_reachable : u32_set -> Prop :=
  reachable Z 0 hashset_hash_int32 eq_u32 8 calloc_upto_2_32.
Definition u32_run : u32_set -> list (call Z) -> result u32_set :=
  run Z 0 hashset_hash_int32 eq_u32 8 calloc_upto_2_32.

(** The entry and the call of [insert] for a key, with length tag 0 as in
    example.c. *)
Definition u32_key (k : Z) : size_pair Z := {| val := k; val_size := 0 |}.
Definition u32_insert (k : Z) : call Z := Insert Z k 0.
Definition u32_remove (k : Z) : call Z := Remove Z k 0.

(** A set whose 16 slots are all used while its [size] field, 11, is
    below the growth threshold. No run of the functions builds it; it
    exercises the wrap-around of the probe. *)
Definition u32_full_table : u32_set :=
  {| data := Some (map u32_key [100; 101; 102; 103; 104; 105; 106; 107;
                                108; 109; 110; 111; 112; 113; 114; 115]);
     state := Some (replicate 16 1);
     size := 11;
     capacity := 16 |}.

(** The set that twelve inserts, a remove and one more insert leave:
    12 entries and a tombstone in 16 slots, so that the next [insert]
    grows it. *)
Definition u32_loaded_calls : list (call Z) :=
  map u32_insert [1; 2; 3; 4; 5; 6; 7; 8; 9; 10; 11; 12]
  ++ [u32_remove 6; u32_insert 13].

Definition u32_loaded : u32_set :=
  Eval vm_compute in
    match u32_run (snd u32_set_init) u32_loaded_calls with
    | Ok s => s
    | Fault _ => snd u32_set_init
    end.

(** The set of [main] in example.c after its two inserts. *)
Definition u32_two : u32_set :=
  Eval vm_compute in
    match u32_run (snd u32_set_init) [u32_insert 42; u32_insert 1337] with
    | Ok s => s
    | Fault _ => snd u32_set_init
    end.

(** ** The sample hash of byte strings *)

(** [unsigned long], 64 bits wide like [size_t]. *)
Definition ulong (x : Z) : Z := x mod 2 ^ 64.

(** The [for] loop of [hashset_hash_char], with [n] iterations to go. A
    cell of [bytes] is a [char], given by the value it has once promoted
    to [int] (negative for a high byte where [char] is signed). *)
Fixpoint hash_char_loop (n : nat) (i : Z) (bytes : option (list Z)) (hash : Z)
  : result Z :=
  match n with
  | O => Ok hash
  | S n' =>
      let* c := load bytes i in
      hash_char_loop n' (uint (i + 1)) bytes (ulong (hash * 33 + c))
  end.

(** [hashset_hash_char]. *)
Definition hashset_hash_char (bytes : option (list Z)) (len : Z) : result Z :=
  let hash := 5381 in
  hash_char_loop (Z.to_nat len) 0 bytes hash.

(** The polynomial that [hashset_hash_char] computes, without the
    wrap-around: [5381 * 33^n + c_0 * 33^(n-1) + ... + c_(n-1)]. *)
Definition djb2 (bytes : list Z) : Z :=
  fold_left (fun hash c => hash * 33 + c) bytes 5381.

(** ** [main] of example.c *)

Inductive outcome : Type :=
| Returned (code : Z)
| AssertionFailed
| Undefined (f : fault).

Definition c_assert (b : bool) (k : outcome) : outcome :=
  if b then k else AssertionFailed.

Definition and_then {A : Type} (m : result A) (k : A -> outcome) : outcome :=
  match m with
  | Ok a => k a
  | Fault f => Undefined f
  end.

(** [main]; [&s] is not NULL. *)
Definition main : outcome :=
  let r := u32_set_init in
  let s := snd r in
  c_assert (fst r =? 0) (
  and_then (u32_set_insert s 42 0) (fun r =>
  let s := snd r in
  c_assert (Bool.eqb (fst r) true) (
  and_then (u32_set_insert s 1337 0) (fun r =>
  let s := snd r in
  c_assert (Bool.eqb (fst r) true) (
  and_then (u32_set_contains s 42 0) (fun b =>
  c_assert (Bool.eqb b true) (
  and_then (u32_set_contains s 1337 0) (fun b =>
  c_assert (Bool.eqb b true) (
  and_then (u32_set_remove s 42 0) (fun r =>
  let s := snd r in
  c_assert (Bool.eqb (fst r) true) (
  and_then (u32_set_contains s 42 0) (fun b =>
  c_assert (Bool.eqb b false) (
  let s := fst (u32_set_destroy s) in
  Returned 0))))))))))))).

(** ** An instantiation with 64-bit keys

    [HASHSET_DECLARE(u64, uint64_t, hash_u64, eq_u64)], for the hash that
    returns its key, cut to the 32 bits of [hashset_hash_t], and for the
    equality of the keys; [HASHSET_CALLOC] serves every request, as
    [calloc] does while memory lasts. *)
Definition hash_u64 (a : Z) (len : Z) : Z := uint a.
Definition eq_u64 (a : Z) (a_size : Z) (b : Z) (b_size : Z) : bool := a =? b.
Definition calloc_always (nmemb sz : Z) : bool := true.

Definition u64_set : Type := hashset Z.
Definition u64_set_init : Z * u64_set :=
  set_init Z 0 16 calloc_always.
Definition u64_set_find_slot : u64_set -> Z -> Z -> result Z :=
  set_find_slot Z hash_u64 eq_u64.
Definition u64_set_resize : u64_set -> Z -> result (Z * u64_set) :=
  set_resize Z 0 hash_u64 eq_u64 16 calloc_always.
Definition u64_set_insert : u64_set -> Z -> Z -> result (bool * u64_set) :=
  set_insert Z 0 hash_u64 eq_u64 16 calloc_always.
Definition u64_set_contains : u64_set -> Z -> Z -> result bool :=
  set_contains Z hash_u64 eq_u64.
Definition u64_set_remove : u64_set -> Z -> Z -> result (bool * u64_set) :=
  set_remove Z hash_u64 eq_u64.
Definition u64_reachable : u64_set -> Prop :=
  reachable Z 0 hash_u64 eq_u64 16 calloc_always.
Definition u64_run : u64_set -> list (call Z) -> result u64_set :=
  run Z 0 hash_u64 eq_u64 16 calloc_always.

Definition u64_key (k : Z) : size_pair Z := {| val := k; val_size := 0 |}.

(** The calls [insert(0)], [insert(1)], ..., [insert(n - 1)]. *)
Definition u64_inserts (n : nat) : list (call Z) :=
  (fun i : nat => Insert Z (Z.of_nat i) 0) <$> seq 0 n.

(** The arrays of [cells] cells in which the slots 0, ..., [n - 1] are
    used and hold the keys 0, ..., [n - 1], and the others are as
    [calloc] left them. *)
Definition u64_cells (n cells : nat) : list (size_pair Z) :=
  ((fun i : nat => u64_key (Z.of_nat i)) <$> seq 0 n)
  ++ replicate (cells - n) (zero_pair Z 0).
Definition u64_states (n cells : nat) : list Z :=
  replicate n 1 ++ replicate (cells - n) 0.

(** The set of [2^a] cells with these arrays and [n] for its size. *)
Definition u64_filled (n : nat) (a : Z) : u64_set :=
  {| data := Some (u64_cells n (Z.to_nat (2 ^ a)));
     state := Some (u64_states n (Z.to_nat (2 ^ a)));
     size := Z.of_nat n;
     capacity := 2 ^ a |}.

(** ** Properties *)

Section Properties.

Context {type : Type}.
Variable zero : type.
Variable hash_fn : type -> Z -> Z.
Variable eq_fn : type -> Z -> type -> Z -> bool.
Variable sizeof_pair : Z.
Variable calloc_ok : Z -> Z -> bool.

#[local] Abbreviation hset := (hashset type).
#[local] Abbreviation entry := (size_pair type).
#[local] Abbreviation find_slot := (set_find_slot type hash_fn eq_fn).
#[local] Abbreviation loop := (find_slot_loop type eq_fn).
#[local] Abbreviation continues := (slot_continues type eq_fn).
#[local] Abbreviation stops := (probe_stops type hash_fn eq_fn).
#[local] Abbreviation full := (probe_full type eq_fn).
#[local] Abbreviation home_of := (home type hash_fn).
#[local] Abbreviation resize := (set_resize type zero hash_fn eq_fn sizeof_pair calloc_ok).
#[local] Abbreviation insert := (set_insert type zero hash_fn eq_fn sizeof_pair calloc_ok).
#[local] Abbreviation contains := (set_contains type hash_fn eq_fn).
#[local] Abbreviation remove := (set_remove type hash_fn eq_fn).
#[local] Abbreviation init := (set_init type zero sizeof_pair calloc_ok).
#[local] Abbreviation reach := (reachable type zero hash_fn eq_fn sizeof_pair calloc_ok).

(** *** The load factor test *)

(** The [double] nearest to 0.7 is the rational of the model. *)
Example max_load_factor_double :
  FloatOps.Prim2SF 0x1.6666666666666p-1%float
  = SpecFloat.S754_finite false (Z.to_pos HASHSET_MAX_LOAD_FACTOR_num) (-53)
  /\ HASHSET_MAX_LOAD_FACTOR_den = 2 ^ 53.
Proof. split; vm_compute; reflexivity. Qed.

(** The conversion of a [size_t] to [double] is the machine's on the
    operands of [conversion_samples]. *)
Example double_of_size_t_as_double :
  forallb (fun x => Z_of_float (float_of_size_t x) =? double_of_size_t x)
    conversion_samples
  = true.
Proof. vm_compute. reflexivity. Qed.

(** The test of the model is the one on [double] on the operands of
    [load_factor_samples]. *)
Example load_factor_exceeded_as_double :
  forallb
    (fun p : Z * Z =>
       Bool.eqb
         (load_factor_exceeded type
            {| data := None; state := None; size := fst p; capacity := snd p |})
         (load_factor_exceeded_double (fst p) (snd p)))
    load_factor_samples
  = true.
Proof. vm_compute. reflexivity. Qed.

(** At size 7 and capacity 10 the quotient is the real number 0.7, which
    rounds to the constant: the load factor is not exceeded. *)
Example load_factor_of_7_in_10 :
  load_factor_exceeded type
    {| data := None; state := None; size := 7; capacity := 10 |} = false
  /\ load_factor_exceeded_double 7 10 = false.
Proof. split; vm_compute; reflexivity. Qed.

(** Below [2^53] a [size_t] is its own [double]. *)
Lemma double_of_size_t_small x : x < 2 ^ 53 -> double_of_size_t x = x.
Proof.
  intros Hx. unfold double_of_size_t.
  destruct (Z.ltb_spec x (2 ^ 53)); [reflexivity | lia].
Qed.

Lemma double_of_size_t_large x : 2 ^ 53 <= x -> 2 ^ 53 <= double_of_size_t x.
Proof.
  intros Hx. unfold double_of_size_t.
  destruct (Z.ltb_spec x (2 ^ 53)) as [Hlt | _]; [lia |].
  assert (Hpos : 0 < x) by (change (2 ^ 53) with 9007199254740992 in Hx; lia).
  pose proof (Z.log2_le_mono _ _ Hx) as Hlog.
  rewrite Z.log2_pow2 in Hlog by lia.
  set (e := Z.log2 x - 52).
  assert (He : 1 <= e) by (unfold e; lia).
  assert (Hq : 2 ^ 52 <= x / 2 ^ e).
  { apply Z.div_le_lower_bound; [apply Z.pow_pos_nonneg; lia |].
    rewrite <- Z.pow_add_r by lia.
    replace (e + 52) with (Z.log2 x) by (unfold e; lia).
    apply Z.log2_spec, Hpos. }
  assert (Hp : 2 ^ 1 <= 2 ^ e) by (apply Z.pow_le_mono_r; lia).
  change (2 ^ 1) with 2 in Hp. change (2 ^ 52) with 4503599627370496 in Hq.
  change (2 ^ 53) with 9007199254740992.
  destruct (_ || _); nia.
Qed.

(** With a power of two for the capacity and a size below [2^53] the
    quotient is a [double]: it is above [0.7] as a rational is. *)
Lemma load_factor_exceeded_pow2 (s : hset) a :
  0 <= a <= 53 -> capacity s = 2 ^ a -> size s < 2 ^ 53 ->
  load_factor_exceeded type s
  = (HASHSET_MAX_LOAD_FACTOR_num * capacity s
       <? size s * HASHSET_MAX_LOAD_FACTOR_den).
Proof.
  intros Ha Hc Hsz. unfold load_factor_exceeded.
  rewrite (double_of_size_t_small (size s)) by assumption.
  assert (Hcap : double_of_size_t (capacity s) = capacity s).
  { unfold double_of_size_t. destruct (Z.ltb_spec (capacity s) (2 ^ 53)) as [_ | Hge];
      [reflexivity |].
    assert (a = 53) as ->.
    { destruct (Z.eq_dec a 53); [assumption |].
      assert (2 ^ a < 2 ^ 53) by (apply Z.pow_lt_mono_r; lia). lia. }
    rewrite Hc. vm_compute. reflexivity. }
  rewrite Hcap, Hc.
  assert (Hden : HASHSET_MAX_LOAD_FACTOR_den = 2 ^ a * 2 ^ (53 - a)).
  { unfold HASHSET_MAX_LOAD_FACTOR_den. rewrite <- Z.pow_add_r by lia.
    f_equal. lia. }
  rewrite Hden.
  assert (Hp : 0 < 2 ^ a) by (apply Z.pow_pos_nonneg; lia).
  set (c := 2 ^ a) in *. set (m := size s * 2 ^ (53 - a)).
  replace (size s * (2 * (c * 2 ^ (53 - a)))) with (2 * m * c) by (unfold m; ring).
  replace (size s * (c * 2 ^ (53 - a))) with (m * c) by (unfold m; ring).
  destruct (Z.ltb_spec ((2 * HASHSET_MAX_LOAD_FACTOR_num + 1) * c) (2 * m * c)) as [H1 | H1];
    destruct (Z.ltb_spec (HASHSET_MAX_LOAD_FACTOR_num * c) (m * c)) as [H2 | H2];
    try reflexivity; exfalso.
  - apply Z.mul_lt_mono_pos_r in H1; [| assumption].
    apply Z.mul_le_mono_pos_r in H2; [| assumption]. lia.
  - apply Z.mul_le_mono_pos_r in H1; [| assumption].
    apply Z.mul_lt_mono_pos_r in H2; [| assumption]. lia.
Qed.

Lemma load_factor_exceeded_shape (s : hset) :
  shape type s -> size s < 2 ^ 32 ->
  load_factor_exceeded type s
  = (HASHSET_MAX_LOAD_FACTOR_num * capacity s
       <? size s * HASHSET_MAX_LOAD_FACTOR_den).
Proof.
  intros (d & t & a & _ & _ & Ha & Hc & _) Hsz.
  apply (load_factor_exceeded_pow2 s a); [lia | assumption |].
  change (2 ^ 32) with 4294967296 in Hsz. change (2 ^ 53) with 9007199254740992.
  lia.
Qed.

(** *** Machine arithmetic of the probe *)

Lemma pow2_bounds a : 0 <= a <= 32 -> 1 <= 2 ^ a <= 2 ^ 32.
Proof.
  intros Ha. split.
  - assert (0 < 2 ^ a) by (apply Z.pow_pos_nonneg; lia). lia.
  - apply Z.pow_le_mono_r; lia.
Qed.

Lemma mask_pow2 a : 0 <= a <= 32 -> size_t (2 ^ a - 1) = 2 ^ a - 1.
Proof.
  intros Ha. pose proof (pow2_bounds a Ha) as Hb. unfold size_t.
  apply Z.mod_small. change (2 ^ 32) with 4294967296 in Hb.
  change (2 ^ 64) with 18446744073709551616. lia.
Qed.

Lemma land_mask a h : 0 <= a -> Z.land h (2 ^ a - 1) = h mod 2 ^ a.
Proof.
  intros Ha. rewrite <- Z.land_ones by lia. f_equal.
  rewrite Z.ones_equiv. lia.
Qed.

Lemma start_pow2 a h : 0 <= a <= 32 -> uint (Z.land h (2 ^ a - 1)) = h mod 2 ^ a.
Proof.
  intros Ha. pose proof (pow2_bounds a Ha) as Hb.
  rewrite land_mask by lia. unfold uint. apply Z.mod_small.
  pose proof (Z.mod_pos_bound h (2 ^ a)). lia.
Qed.

Lemma step_pow2 a idx :
  0 <= a <= 32 -> uint (Z.land (uint (idx + 1)) (2 ^ a - 1)) = (idx + 1) mod 2 ^ a.
Proof.
  intros Ha. pose proof (pow2_bounds a Ha) as Hb.
  rewrite start_pow2 by lia. unfold uint.
  apply Z.mod_mod_divide.
  exists (2 ^ (32 - a)). rewrite <- Z.pow_add_r by lia. f_equal. lia.
Qed.

Lemma next_offset c h m :
  0 < c -> ((h + m) mod c + 1) mod c = (h + (m + 1)) mod c.
Proof.
  intros Hc. rewrite Z.add_mod_idemp_l by lia. f_equal. lia.
Qed.

(** Distinct offsets below the capacity reach distinct slots. *)
Lemma offset_inj c h m m' :
  0 < c -> 0 <= m < c -> 0 <= m' < c ->
  (h + m) mod c = (h + m') mod c -> m = m'.
Proof.
  intros Hc Hm Hm' E.
  assert (D : (m - m') mod c = 0).
  { replace (m - m') with ((h + m) - (h + m')) by lia.
    rewrite Zminus_mod, E, Z.sub_diag. apply Z.mod_0_l. lia. }
  apply Z.mod_divide in D; [| lia]. destruct D as [q Hq].
  assert (q = 0) by nia. lia.
Qed.

(** Every slot is some offset away from any home slot. *)
Lemma offset_of c h i :
  0 < c -> 0 <= i < c -> exists m, 0 <= m < c /\ i = (h + m) mod c.
Proof.
  intros Hc Hi. exists ((i - h) mod c). split.
  - apply Z.mod_pos_bound. lia.
  - rewrite Z.add_mod_idemp_r by lia.
    replace (h + (i - h)) with i by lia. symmetry. apply Z.mod_small. lia.
Qed.

(** *** Array accesses *)

Lemma load_inv {A} (p : option (list A)) i x :
  load p i = Ok x ->
  exists l, p = Some l /\ 0 <= i < Z.of_nat (length l) /\ l !! Z.to_nat i = Some x.
Proof.
  unfold load. destruct p as [l|]; [| discriminate].
  destruct (i <? 0) eqn:Hi; [discriminate |]. apply Z.ltb_ge in Hi.
  destruct (l !! Z.to_nat i) as [y|] eqn:Hl; [| discriminate].
  intros [= ->]. exists l. split; [reflexivity |]. split; [| assumption].
  apply lookup_lt_Some in Hl. lia.
Qed.

Lemma load_in_range {A} (l : list A) i :
  0 <= i < Z.of_nat (length l) -> exists x, load (Some l) i = Ok x.
Proof.
  intros Hi. unfold load.
  destruct (i <? 0) eqn:Hn; [apply Z.ltb_lt in Hn; lia |].
  destruct (lookup_lt_is_Some_2 l (Z.to_nat i)) as [x Hx]; [lia |].
  exists x. rewrite Hx. reflexivity.
Qed.

Lemma load_out_of_range {A} (l : list A) i :
  Z.of_nat (length l) <= i -> load (Some l) i = Fault OutOfBounds.
Proof.
  intros Hi. unfold load.
  destruct (i <? 0) eqn:Hn; [reflexivity |].
  rewrite lookup_ge_None_2 by lia. reflexivity.
Qed.

Lemma store_inv {A} (p : option (list A)) i x p' :
  store p i x = Ok p' ->
  exists l, p = Some l /\ 0 <= i < Z.of_nat (length l) /\
            p' = Some (<[Z.to_nat i := x]> l).
Proof.
  unfold store. destruct p as [l|]; [| discriminate].
  destruct ((i <? 0) || (Z.of_nat (length l) <=? i)) eqn:Hi; [discriminate |].
  apply orb_false_iff in Hi. destruct Hi as [H1 H2].
  apply Z.ltb_ge in H1. apply Z.leb_gt in H2.
  intros [= <-]. exists l. repeat split; lia.
Qed.

Lemma store_in_range {A} (l : list A) i x :
  0 <= i < Z.of_nat (length l) ->
  store (Some l) i x = Ok (Some (<[Z.to_nat i := x]> l)).
Proof.
  intros Hi. unfold store.
  destruct (i <? 0) eqn:H1; [apply Z.ltb_lt in H1; lia |].
  destruct (Z.of_nat (length l) <=? i) eqn:H2; [apply Z.leb_le in H2; lia |].
  reflexivity.
Qed.

Lemma load_insert_same {A} (l : list A) i x :
  0 <= i < Z.of_nat (length l) -> load (Some (<[Z.to_nat i := x]> l)) i = Ok x.
Proof.
  intros Hi. unfold load.
  destruct (i <? 0) eqn:H1; [apply Z.ltb_lt in H1; lia |].
  rewrite list_lookup_insert_eq by lia. reflexivity.
Qed.

Lemma load_insert_other {A} (l : list A) i j x :
  0 <= i -> i <> j -> load (Some (<[Z.to_nat i := x]> l)) j = load (Some l) j.
Proof.
  intros Hi Hne. unfold load.
  destruct (j <? 0) eqn:H1; [reflexivity |]. apply Z.ltb_ge in H1.
  rewrite list_lookup_insert_ne by lia. reflexivity.
Qed.

(** *** The probe loop against its specification *)

Lemma shape_loads (s : hset) i :
  shape type s -> 0 <= i < capacity s ->
  exists st e, load (state s) i = Ok st /\ load (data s) i = Ok e.
Proof.
  intros (d & t & a & Hd & Ht & Ha & Hc & Ld & Lt) Hi.
  rewrite Hd, Ht.
  destruct (load_in_range t i) as [st Hst]; [lia |].
  destruct (load_in_range d i) as [e He]; [lia |].
  exists st, e. split; assumption.
Qed.

Lemma shape_capacity_pos (s : hset) : shape type s -> 0 < capacity s.
Proof.
  intros (d & t & a & Hd & Ht & Ha & Hc & Ld & Lt).
  pose proof (pow2_bounds a Ha). lia.
Qed.

Lemma loop_unfold (s : hset) k l mask start idx f :
  shape type s -> 0 <= idx < capacity s ->
  loop (S f) s k l mask start idx =
    if continues s k l idx then
      if uint (Z.land (uint (idx + 1)) mask) =? start then Ok (capacity s)
      else loop f s k l mask start (uint (Z.land (uint (idx + 1)) mask))
    else Ok idx.
Proof.
  intros Hs Hi. destruct (shape_loads s idx Hs Hi) as (st & e & Hst & He).
  cbn [find_slot_loop]. unfold slot_continues. rewrite Hst. cbn [bind].
  destruct (st =? 1); [| reflexivity]. rewrite He. cbn [bind].
  destruct (eq_fn (val e) (val_size e) k l); reflexivity.
Qed.

Lemma loop_spec (s : hset) k l a :
  shape type s -> 0 <= a <= 32 -> capacity s = 2 ^ a ->
  forall f m,
    0 <= m < capacity s -> capacity s - m <= Z.of_nat f ->
    (forall j, 0 <= j < m ->
       continues s k l ((home_of s k l + j) mod capacity s) = true) ->
    (exists r, loop f s k l (capacity s - 1) (home_of s k l)
                 ((home_of s k l + m) mod capacity s) = Ok r /\ stops s k l r)
    \/ (loop f s k l (capacity s - 1) (home_of s k l)
          ((home_of s k l + m) mod capacity s) = Ok (capacity s) /\ full s k l).
Proof.
  intros Hs Ha Hc. pose proof (shape_capacity_pos s Hs) as Hpos.
  set (c := capacity s) in *. set (h := home_of s k l).
  assert (Hh : 0 <= h < c) by (apply Z.mod_pos_bound; lia).
  induction f as [| f IH]; intros m Hm Hf Hpre; [lia |].
  assert (Hidx : 0 <= (h + m) mod c < c) by (apply Z.mod_pos_bound; lia).
  rewrite loop_unfold by assumption.
  destruct (continues s k l ((h + m) mod c)) eqn:Hcont.
  - fold c. rewrite Hc, step_pow2, <- Hc by assumption. fold c.
    rewrite next_offset by lia.
    destruct (Z.eq_dec (m + 1) c) as [Hlast | Hmore].
    + right. rewrite Hlast.
      replace ((h + c) mod c) with h.
      2:{ rewrite <- (Z.mul_1_l c) at 1. rewrite Z.mod_add by lia.
          symmetry. apply Z.mod_small. lia. }
      rewrite Z.eqb_refl. split; [reflexivity |].
      intros i Hi. destruct (offset_of c h i Hpos Hi) as (mi & Hmi & ->).
      destruct (Z.eq_dec mi m) as [-> | Hne]; [assumption |].
      apply Hpre. lia.
    + destruct ((h + (m + 1)) mod c =? h) eqn:Hback.
      * apply Z.eqb_eq in Hback. exfalso.
        assert (m + 1 = 0); [| lia].
        apply (offset_inj c h); try lia.
        rewrite Hback, Z.add_0_r. symmetry. apply Z.mod_small. lia.
      * apply IH; [lia | lia |].
        intros j Hj. destruct (Z.eq_dec j m) as [-> | Hne]; [assumption |].
        apply Hpre. lia.
  - left. exists ((h + m) mod c). split; [reflexivity |].
    exists m. repeat split; try assumption; lia.
Qed.

Lemma find_slot_spec (s : hset) k l :
  shape type s ->
  (exists r, find_slot s k l = Ok r /\ stops s k l r)
  \/ (find_slot s k l = Ok (capacity s) /\ full s k l).
Proof.
  intros Hs. pose proof Hs as (d & t & a & Hd & Ht & Ha & Hc & Ld & Lt).
  pose proof (shape_capacity_pos s Hs) as Hpos.
  unfold set_find_slot.
  rewrite Hc, mask_pow2, start_pow2, <- Hc by assumption.
  fold (home_of s k l).
  assert (E : (home_of s k l + 0) mod capacity s = home_of s k l).
  { rewrite Z.add_0_r. unfold home. apply Z.mod_mod. lia. }
  pose proof (loop_spec s k l a Hs Ha Hc (S (Z.to_nat (capacity s))) 0) as H.
  rewrite E in H. apply H; [lia | lia |].
  intros j Hj. lia.
Qed.

Lemma stops_range (s : hset) k l r : stops s k l r -> 0 <= r < capacity s.
Proof.
  intros (m & Hm & -> & _). apply Z.mod_pos_bound. lia.
Qed.

Lemma stops_continues (s : hset) k l r : stops s k l r -> continues s k l r = false.
Proof. intros (m & _ & _ & H & _). exact H. Qed.

Lemma stops_unique (s : hset) k l r r' : stops s k l r -> stops s k l r' -> r = r'.
Proof.
  intros (m & Hm & -> & Hstop & Hpre) (m' & Hm' & -> & Hstop' & Hpre').
  destruct (Z.lt_trichotomy m m') as [Hlt | [-> | Hgt]]; [| reflexivity |].
  - rewrite Hpre' in Hstop by lia. discriminate.
  - rewrite Hpre in Hstop' by lia. discriminate.
Qed.

Lemma stops_not_full (s : hset) k l r : stops s k l r -> full s k l -> False.
Proof.
  intros Hr Hfull. pose proof (stops_range s k l r Hr) as Hrange.
  pose proof (stops_continues s k l r Hr) as Hstop.
  rewrite (Hfull r Hrange) in Hstop. discriminate.
Qed.

Lemma find_slot_stops (s : hset) k l r :
  shape type s -> stops s k l r -> find_slot s k l = Ok r.
Proof.
  intros Hs Hr. destruct (find_slot_spec s k l Hs) as [(r' & E & Hr') | [_ Hfull]].
  - rewrite E. f_equal. eapply stops_unique; eassumption.
  - exfalso. eapply stops_not_full; eassumption.
Qed.

Lemma find_slot_inv (s : hset) k l r :
  shape type s -> find_slot s k l = Ok r ->
  stops s k l r \/ (r = capacity s /\ full s k l).
Proof.
  intros Hs E. destruct (find_slot_spec s k l Hs) as [(r' & E' & Hr') | [E' Hfull]];
    rewrite E in E'; injection E' as ->; [left | right]; auto.
Qed.

Lemma find_slot_total (s : hset) k l :
  shape type s -> exists r, find_slot s k l = Ok r /\ 0 <= r <= capacity s.
Proof.
  intros Hs. pose proof (shape_capacity_pos s Hs).
  destruct (find_slot_spec s k l Hs) as [(r & E & Hr) | [E _]].
  - exists r. split; [assumption |]. pose proof (stops_range s k l r Hr). lia.
  - exists (capacity s). split; [assumption | lia].
Qed.

Lemma free_slot_stops (s : hset) k l i :
  shape type s -> 0 <= i < capacity s -> continues s k l i = false ->
  exists r, find_slot s k l = Ok r /\ stops s k l r.
Proof.
  intros Hs Hi Hfree.
  destruct (find_slot_spec s k l Hs) as [H | [_ Hfull]]; [assumption |].
  rewrite (Hfull i Hi) in Hfree. discriminate.
Qed.

(** *** Writing a slot *)

Lemma shape_put (s : hset) r e : shape type s -> shape type (put type s r e).
Proof.
  intros (d & t & a & Hd & Ht & Ha & Hc & Ld & Lt).
  exists (<[Z.to_nat r := e]> d), (<[Z.to_nat r := 1]> t), a.
  unfold put; cbn. rewrite Hd, Ht, !length_insert. cbn. repeat split; try assumption; lia.
Qed.

Lemma shape_mark_deleted (s : hset) r : shape type s -> shape type (mark_deleted type s r).
Proof.
  intros (d & t & a & Hd & Ht & Ha & Hc & Ld & Lt).
  exists d, (<[Z.to_nat r := 2]> t), a.
  unfold mark_deleted; cbn. rewrite Ht, !length_insert. cbn. repeat split; try assumption; lia.
Qed.

Lemma load_state_put (s : hset) r e j :
  shape type s -> 0 <= r < capacity s ->
  load (state (put type s r e)) j = if j =? r then Ok 1 else load (state s) j.
Proof.
  intros (d & t & a & Hd & Ht & Ha & Hc & Ld & Lt) Hr. cbn. rewrite Ht. cbn.
  destruct (j =? r) eqn:E.
  - apply Z.eqb_eq in E. subst j. apply load_insert_same. lia.
  - apply Z.eqb_neq in E. apply load_insert_other; lia.
Qed.

Lemma load_data_put (s : hset) r e j :
  shape type s -> 0 <= r < capacity s ->
  load (data (put type s r e)) j = if j =? r then Ok e else load (data s) j.
Proof.
  intros (d & t & a & Hd & Ht & Ha & Hc & Ld & Lt) Hr. cbn. rewrite Hd. cbn.
  destruct (j =? r) eqn:E.
  - apply Z.eqb_eq in E. subst j. apply load_insert_same. lia.
  - apply Z.eqb_neq in E. apply load_insert_other; lia.
Qed.

Lemma load_state_mark_deleted (s : hset) r j :
  shape type s -> 0 <= r < capacity s ->
  load (state (mark_deleted type s r)) j = if j =? r then Ok 2 else load (state s) j.
Proof.
  intros (d & t & a & Hd & Ht & Ha & Hc & Ld & Lt) Hr. cbn. rewrite Ht. cbn.
  destruct (j =? r) eqn:E.
  - apply Z.eqb_eq in E. subst j. apply load_insert_same. lia.
  - apply Z.eqb_neq in E. apply load_insert_other; lia.
Qed.

Lemma continues_put (s : hset) r e k l j :
  shape type s -> 0 <= r < capacity s ->
  continues (put type s r e) k l j =
    if j =? r then negb (eq_fn (val e) (val_size e) k l) else continues s k l j.
Proof.
  intros Hs Hr. unfold slot_continues at 1.
  rewrite load_state_put, load_data_put by assumption.
  destruct (j =? r); reflexivity.
Qed.

Lemma continues_mark_deleted (s : hset) r k l j :
  shape type s -> 0 <= r < capacity s ->
  continues (mark_deleted type s r) k l j =
    if j =? r then false else continues s k l j.
Proof.
  intros Hs Hr. unfold slot_continues at 1.
  rewrite load_state_mark_deleted by assumption.
  destruct (j =? r); reflexivity.
Qed.

Lemma slot_used_put (s : hset) r e j :
  shape type s -> 0 <= r < capacity s ->
  slot_used type (put type s r e) j = if j =? r then true else slot_used type s j.
Proof.
  intros Hs Hr. unfold slot_used. rewrite load_state_put by assumption.
  destruct (j =? r); reflexivity.
Qed.

Lemma continues_used (s : hset) k l j :
  continues s k l j = true -> slot_used type s j = true.
Proof.
  unfold slot_continues, slot_used. destruct (load (state s) j) as [st |]; [| discriminate].
  destruct (st =? 1); [reflexivity | discriminate].
Qed.

(** A used slot at which the probe stops holds a key equal to the probed one. *)
Lemma stop_used_eq (s : hset) k l r :
  shape type s -> 0 <= r < capacity s ->
  continues s k l r = false -> slot_used type s r = true ->
  exists e, load (data s) r = Ok e /\ eq_fn (val e) (val_size e) k l = true.
Proof.
  intros Hs Hr Hstop Hused.
  destruct (shape_loads s r Hs Hr) as (st & e & Hst & He).
  unfold slot_continues in Hstop. unfold slot_used in Hused.
  rewrite Hst in Hstop, Hused. rewrite Hused, He in Hstop.
  exists e. split; [assumption |]. apply negb_false_iff. exact Hstop.
Qed.

(** The probe of a key stops where it did when the slots it went through
    still make it go on and the slot it stopped at still stops it. *)
Lemma stops_congr (s s' : hset) k l r :
  capacity s' = capacity s -> stops s k l r ->
  continues s' k l r = false ->
  (forall j, continues s k l j = true -> continues s' k l j = true) ->
  stops s' k l r.
Proof.
  intros Hc (m & Hm & -> & Hstop & Hpre) Hstop' Hmono.
  exists m. unfold home in *. rewrite Hc. repeat split; try assumption; try lia.
  intros j Hj. apply Hmono, Hpre, Hj.
Qed.

(** *** [contains], [insert] past the growth test, and [remove] in terms of the probe *)

Lemma contains_stops (s : hset) k l r :
  shape type s -> stops s k l r -> contains s k l = Ok (slot_used type s r).
Proof.
  intros Hs Hr. pose proof (stops_range s k l r Hr) as Hrange.
  unfold set_contains. rewrite (find_slot_stops s k l r Hs Hr). cbn [bind].
  destruct (r <? 0) eqn:E; [apply Z.ltb_lt in E; lia |].
  destruct (shape_loads s r Hs Hrange) as (st & e & Hst & He).
  unfold slot_used. rewrite Hst. reflexivity.
Qed.

Lemma shape_load_capacity (s : hset) :
  shape type s -> load (state s) (capacity s) = Fault OutOfBounds.
Proof.
  intros (d & t & a & Hd & Ht & Ha & Hc & Ld & Lt). rewrite Ht.
  apply load_out_of_range. lia.
Qed.

Lemma contains_full (s : hset) k l :
  shape type s -> full s k l -> contains s k l = Fault OutOfBounds.
Proof.
  intros Hs Hfull. pose proof (shape_capacity_pos s Hs) as Hpos.
  destruct (find_slot_spec s k l Hs) as [(r & _ & Hr) | [E _]].
  - exfalso. eapply stops_not_full; eassumption.
  - unfold set_contains. rewrite E. cbn [bind].
    destruct (capacity s <? 0) eqn:E0; [apply Z.ltb_lt in E0; lia |].
    rewrite shape_load_capacity by assumption. reflexivity.
Qed.

Lemma contains_inv (s : hset) k l b :
  shape type s -> contains s k l = Ok b ->
  exists r, stops s k l r /\ b = slot_used type s r.
Proof.
  intros Hs E. destruct (find_slot_spec s k l Hs) as [(r & _ & Hr) | [_ Hfull]].
  - exists r. split; [assumption |].
    rewrite (contains_stops s k l r Hs Hr) in E. congruence.
  - rewrite (contains_full s k l Hs Hfull) in E. discriminate.
Qed.

Lemma insert_stops (s : hset) k l r :
  shape type s -> load_factor_exceeded type s = false -> stops s k l r ->
  insert s k l =
    Ok (if slot_used type s r then (false, s)
        else (true, put type s r {| val := k; val_size := l |})).
Proof.
  intros Hs Hload Hr. pose proof (stops_range s k l r Hr) as Hrange.
  unfold set_insert. rewrite Hload. cbn [bind].
  rewrite (find_slot_stops s k l r Hs Hr). cbn [bind].
  destruct (r <? 0) eqn:E; [apply Z.ltb_lt in E; lia |].
  pose proof Hs as (d & t & a & Hd & Ht & Ha & Hc & Ld & Lt).
  destruct (shape_loads s r Hs Hrange) as (st & e & Hst & He).
  unfold slot_used. rewrite Hst. cbn [bind].
  destruct (st =? 1); [reflexivity |].
  rewrite Hd, Ht, !store_in_range by lia. cbn [bind].
  unfold put. rewrite Hd, Ht. reflexivity.
Qed.

Lemma insert_full (s : hset) k l :
  shape type s -> load_factor_exceeded type s = false -> full s k l ->
  find_slot s k l = Ok (capacity s) /\ insert s k l = Fault OutOfBounds.
Proof.
  intros Hs Hload Hfull. pose proof (shape_capacity_pos s Hs) as Hpos.
  destruct (find_slot_spec s k l Hs) as [(r & _ & Hr) | [E _]].
  - exfalso. eapply stops_not_full; eassumption.
  - split; [assumption |]. unfold set_insert. rewrite Hload. cbn [bind].
    rewrite E. cbn [bind].
    destruct (capacity s <? 0) eqn:E0; [apply Z.ltb_lt in E0; lia |].
    rewrite shape_load_capacity by assumption. reflexivity.
Qed.

Lemma insert_resized (s s1 : hset) z k l :
  load_factor_exceeded type s = true ->
  resize s (size_t (capacity s * 2)) = Ok (z, s1) ->
  load_factor_exceeded type s1 = false ->
  insert s k l = insert s1 k l.
Proof.
  intros Hload Hres Hload1. unfold set_insert.
  rewrite Hload, Hres, Hload1. reflexivity.
Qed.

Lemma remove_stops (s : hset) k l r :
  shape type s -> stops s k l r ->
  remove s k l =
    Ok (if slot_used type s r then (true, mark_deleted type s r) else (false, s)).
Proof.
  intros Hs Hr. pose proof (stops_range s k l r Hr) as Hrange.
  unfold set_remove. rewrite (find_slot_stops s k l r Hs Hr). cbn [bind].
  pose proof Hs as (d & t & a & Hd & Ht & Ha & Hc & Ld & Lt).
  destruct (shape_loads s r Hs Hrange) as (st & e & Hst & He).
  unfold slot_used. rewrite Hst. cbn [bind].
  destruct (st =? 1); [| reflexivity]. cbn [negb].
  rewrite Ht, store_in_range by lia. cbn [bind].
  unfold mark_deleted. rewrite Ht. reflexivity.
Qed.

Lemma remove_full (s : hset) k l :
  shape type s -> full s k l -> remove s k l = Fault OutOfBounds.
Proof.
  intros Hs Hfull.
  destruct (find_slot_spec s k l Hs) as [(r & _ & Hr) | [E _]].
  - exfalso. eapply stops_not_full; eassumption.
  - unfold set_remove. rewrite E. cbn [bind].
    rewrite shape_load_capacity by assumption. reflexivity.
Qed.

(** *** Counting the used slots *)

Lemma count_used_bounds (t : list Z) : 0 <= count_used t <= Z.of_nat (length t).
Proof.
  induction t as [| st t IH]; cbn [count_used length]; [lia |].
  destruct (st =? 1); lia.
Qed.

Lemma count_used_replicate n : count_used (replicate n 0) = 0.
Proof. induction n as [| n IH]; cbn; [reflexivity | exact IH]. Qed.

Lemma count_used_insert (t : list Z) (i : nat) x y :
  t !! i = Some y ->
  count_used (<[i := x]> t) =
    count_used t - (if y =? 1 then 1 else 0) + (if x =? 1 then 1 else 0).
Proof.
  revert i. induction t as [| st t IH]; intros i Hi; [discriminate |].
  destruct i as [| i]; cbn in Hi.
  - injection Hi as ->. cbn. lia.
  - change (<[S i := x]> (st :: t)) with (st :: <[i := x]> t).
    cbn [count_used]. rewrite (IH i Hi). lia.
Qed.

Lemma count_used_free (t : list Z) :
  count_used t < Z.of_nat (length t) ->
  exists i y, t !! i = Some y /\ (y =? 1) = false.
Proof.
  induction t as [| st t IH]; cbn [count_used length]; [lia |].
  destruct (st =? 1) eqn:E; intros H.
  - destruct IH as (i & y & Hi & Hy); [lia |]. exists (S i), y. auto.
  - exists 0%nat, st. auto.
Qed.

Lemma used_slots_bounds (s : hset) :
  shape type s -> 0 <= used_slots type s <= capacity s.
Proof.
  intros (d & t & a & Hd & Ht & Ha & Hc & Ld & Lt).
  unfold used_slots. rewrite Ht, <- Lt. apply count_used_bounds.
Qed.

Lemma slot_used_lookup (s : hset) (t : list Z) r :
  state s = Some t -> 0 <= r < Z.of_nat (length t) ->
  exists y, t !! Z.to_nat r = Some y /\ slot_used type s r = (y =? 1).
Proof.
  intros Ht Hr. destruct (lookup_lt_is_Some_2 t (Z.to_nat r)) as [y Hy]; [lia |].
  exists y. split; [assumption |]. unfold slot_used, load. rewrite Ht.
  destruct (r <? 0) eqn:E; [apply Z.ltb_lt in E; lia |]. rewrite Hy. reflexivity.
Qed.

Lemma used_slots_put (s : hset) r e :
  shape type s -> 0 <= r < capacity s ->
  used_slots type (put type s r e) =
    used_slots type s + (if slot_used type s r then 0 else 1).
Proof.
  intros (d & t & a & Hd & Ht & Ha & Hc & Ld & Lt) Hr.
  destruct (slot_used_lookup s t r Ht) as (y & Hy & ->); [lia |].
  unfold used_slots, put. cbn. rewrite Ht. cbn.
  rewrite (count_used_insert t _ 1 y Hy). cbn. destruct (y =? 1); lia.
Qed.

Lemma used_slots_mark_deleted (s : hset) r :
  shape type s -> 0 <= r < capacity s -> slot_used type s r = true ->
  used_slots type (mark_deleted type s r) = used_slots type s - 1.
Proof.
  intros (d & t & a & Hd & Ht & Ha & Hc & Ld & Lt) Hr Hused.
  destruct (slot_used_lookup s t r Ht) as (y & Hy & E); [lia |].
  rewrite Hused in E.
  unfold used_slots, mark_deleted. cbn. rewrite Ht. cbn.
  rewrite (count_used_insert t _ 2 y Hy), <- E. cbn. lia.
Qed.

(** A table with fewer used slots than cells stops every probe. *)
Lemma free_slot (s : hset) :
  shape type s -> used_slots type s < capacity s ->
  exists i, 0 <= i < capacity s /\ slot_used type s i = false.
Proof.
  intros (d & t & a & Hd & Ht & Ha & Hc & Ld & Lt) Hroom.
  unfold used_slots in Hroom. rewrite Ht in Hroom.
  destruct (count_used_free t) as (i & y & Hi & Hy); [lia |].
  pose proof (lookup_lt_Some _ _ _ Hi) as Hlt.
  exists (Z.of_nat i). split; [lia |].
  unfold slot_used, load. rewrite Ht.
  destruct (Z.of_nat i <? 0) eqn:E; [apply Z.ltb_lt in E; lia |].
  rewrite Nat2Z.id, Hi. exact Hy.
Qed.

Lemma room_stops (s : hset) k l :
  shape type s -> used_slots type s < capacity s ->
  exists r, stops s k l r.
Proof.
  intros Hs Hroom. destruct (free_slot s Hs Hroom) as (i & Hi & Hfree).
  destruct (free_slot_stops s k l i Hs Hi) as (r & _ & Hr); [| eauto].
  destruct (continues s k l i) eqn:E; [| reflexivity].
  apply continues_used in E. congruence.
Qed.

(** *** The accounting of [size] *)

Lemma accounted_room (s : hset) :
  accounted type s ->
  used_slots type s < capacity s /\ 0 <= size s /\ size s < capacity s /\
  capacity s <= 2 ^ 32.
Proof.
  intros (Hs & Hcap & Hused & Hload).
  pose proof (used_slots_bounds s Hs) as Hb.
  destruct Hs as (d & t & a & Hd & Ht & Ha & Hc & Ld & Lt).
  pose proof (pow2_bounds a Ha) as Hp.
  unfold HASHSET_INITIAL_CAPACITY, HASHSET_MAX_LOAD_FACTOR_num,
    HASHSET_MAX_LOAD_FACTOR_den in *.
  change (2 ^ 53) with 9007199254740992 in Hload. lia.
Qed.

Lemma size_t_small x : 0 <= x < 2 ^ 32 + 2 -> size_t x = x.
Proof.
  intros Hx. unfold size_t. apply Z.mod_small.
  change (2 ^ 32) with 4294967296 in Hx.
  change (2 ^ 64) with 18446744073709551616. lia.
Qed.

Lemma accounted_put (s : hset) r e :
  accounted type s -> load_factor_exceeded type s = false ->
  0 <= r < capacity s -> slot_used type s r = false ->
  accounted type (put type s r e) /\ size (put type s r e) = size s + 1.
Proof.
  intros Hacc Hload Hr Hfree.
  destruct (accounted_room s Hacc) as (Hroom & Hsz & Hlt & Hmax).
  destruct Hacc as (Hs & Hcap & Hused & Hbound).
  assert (Esz : size (put type s r e) = size s + 1).
  { cbn. apply size_t_small. lia. }
  split; [| exact Esz].
  split; [apply shape_put; assumption |].
  rewrite used_slots_put, Hfree, Esz by assumption. cbn [capacity put].
  rewrite load_factor_exceeded_shape in Hload by (assumption || lia).
  apply Z.ltb_ge in Hload.
  repeat split; lia.
Qed.

Lemma accounted_mark_deleted (s : hset) r :
  accounted type s -> 0 <= r < capacity s -> slot_used type s r = true ->
  accounted type (mark_deleted type s r) /\
  size (mark_deleted type s r) = size s - 1.
Proof.
  intros Hacc Hr Hused.
  destruct (accounted_room s Hacc) as (Hroom & Hsz & Hlt & Hmax).
  destruct Hacc as (Hs & Hcap & Hle & Hbound).
  pose proof (used_slots_mark_deleted s r Hs Hr Hused) as Eu.
  pose proof (used_slots_bounds _ (shape_mark_deleted s r Hs)) as Hb.
  assert (Esz : size (mark_deleted type s r) = size s - 1).
  { cbn. apply size_t_small. lia. }
  split; [| exact Esz].
  split; [apply shape_mark_deleted; assumption |].
  rewrite Eu, Esz. cbn [capacity mark_deleted].
  unfold HASHSET_MAX_LOAD_FACTOR_den in *. change (2 ^ 53) with 9007199254740992 in *.
  repeat split; lia.
Qed.

Lemma accounted_init :
  calloc_ok HASHSET_INITIAL_CAPACITY sizeof_pair = true ->
  calloc_ok HASHSET_INITIAL_CAPACITY 1 = true ->
  accounted type (snd init).
Proof.
  intros H1 H2. unfold accounted, set_init, HASHSET_CALLOC. cbn [snd].
  rewrite H1, H2. split.
  - exists (replicate (Z.to_nat HASHSET_INITIAL_CAPACITY) (zero_pair type zero)),
      (replicate (Z.to_nat HASHSET_INITIAL_CAPACITY) 0), 4.
    cbn [data state capacity]. rewrite !length_replicate.
    unfold HASHSET_INITIAL_CAPACITY. repeat split; lia.
  - unfold used_slots. cbn [state capacity size]. rewrite count_used_replicate.
    unfold HASHSET_INITIAL_CAPACITY, HASHSET_MAX_LOAD_FACTOR_num,
      HASHSET_MAX_LOAD_FACTOR_den. repeat split; lia.
Qed.

(** *** Membership when a slot is written *)

Lemma slot_used_load (s : hset) i : slot_used type s i = true <-> load (state s) i = Ok 1.
Proof.
  unfold slot_used. split.
  - destruct (load (state s) i) as [st |]; [| discriminate].
    intros E. apply Z.eqb_eq in E. congruence.
  - intros ->. reflexivity.
Qed.

Lemma contains_true_inv (s : hset) k l :
  shape type s -> contains s k l = Ok true ->
  exists r, stops s k l r /\ slot_used type s r = true.
Proof.
  intros Hs E. destruct (contains_inv s k l true Hs E) as (r & Hr & Hu). eauto.
Qed.

Lemma member_live (s : hset) k l :
  shape type s -> contains s k l = Ok true ->
  exists e, live type s e /\ eq_fn (val e) (val_size e) k l = true.
Proof.
  intros Hs E. destruct (contains_true_inv s k l Hs E) as (r & Hr & Hu).
  destruct (stop_used_eq s k l r Hs (stops_range s k l r Hr)
              (stops_continues s k l r Hr) Hu) as (e & He & Heq).
  exists e. split; [| assumption]. exists r. split; [| assumption].
  apply slot_used_load. assumption.
Qed.

Lemma live_put (s : hset) r e e' :
  shape type s -> 0 <= r < capacity s ->
  live type (put type s r e) e' -> live type s e' \/ e' = e.
Proof.
  intros Hs Hr (i & Hst & Hdt).
  rewrite load_state_put in Hst by assumption.
  rewrite load_data_put in Hdt by assumption.
  destruct (i =? r); [right; congruence | left; exists i; auto].
Qed.

Lemma no_tombstone_put (s : hset) r e :
  shape type s -> 0 <= r < capacity s ->
  no_tombstone type s -> no_tombstone type (put type s r e).
Proof.
  intros Hs Hr Hclean i. rewrite load_state_put by assumption.
  destruct (i =? r); [discriminate | apply Hclean].
Qed.

Section Equivalence.

(** [eq_fn] is an equivalence on keys with their length tags. *)
Hypothesis eq_fn_refl : forall a la, eq_fn a la a la = true.
Hypothesis eq_fn_sym : forall a la b lb, eq_fn a la b lb = true -> eq_fn b lb a la = true.
Hypothesis eq_fn_trans : forall a la b lb c lc,
  eq_fn a la b lb = true -> eq_fn b lb c lc = true -> eq_fn a la c lc = true.

(** After the key is written where its probe stopped, the probe stops there. *)
Lemma stops_put_self (s : hset) k l r :
  shape type s -> stops s k l r ->
  stops (put type s r {| val := k; val_size := l |}) k l r.
Proof.
  intros Hs Hr. pose proof (stops_range s k l r Hr) as Hrange.
  apply (stops_congr s); [reflexivity | assumption | |].
  - rewrite continues_put, Z.eqb_refl by assumption. cbn.
    rewrite eq_fn_refl. reflexivity.
  - intros j Hj. rewrite continues_put by assumption.
    destruct (j =? r) eqn:E; [| assumption].
    apply Z.eqb_eq in E. subst j.
    rewrite (stops_continues s k l r Hr) in Hj. discriminate.
Qed.

Lemma contains_put_self (s : hset) k l r :
  shape type s -> stops s k l r ->
  contains (put type s r {| val := k; val_size := l |}) k l = Ok true.
Proof.
  intros Hs Hr. pose proof (stops_range s k l r Hr) as Hrange.
  rewrite (contains_stops _ k l r (shape_put s r _ Hs) (stops_put_self s k l r Hs Hr)).
  rewrite slot_used_put, Z.eqb_refl by assumption. reflexivity.
Qed.

(** Writing a key where its probe stopped keeps every member a member. *)
Lemma contains_put_other (s : hset) v lv r k l :
  shape type s -> stops s v lv r -> contains s k l = Ok true ->
  contains (put type s r {| val := v; val_size := lv |}) k l = Ok true.
Proof.
  intros Hs Hr E. pose proof (stops_range s v lv r Hr) as Hrange.
  destruct (contains_true_inv s k l Hs E) as (rk & Hrk & Hu).
  pose proof (stops_range s k l rk Hrk) as Hrkrange.
  assert (Hst : stops (put type s r {| val := v; val_size := lv |}) k l rk).
  { apply (stops_congr s); [reflexivity | assumption | |].
    - rewrite continues_put by assumption.
      destruct (rk =? r) eqn:Erk; [| apply (stops_continues s k l rk Hrk)].
      apply Z.eqb_eq in Erk. subst rk. cbn. apply negb_false_iff.
      destruct (stop_used_eq s k l r Hs Hrange (stops_continues s k l r Hrk) Hu)
        as (e & He & Hek).
      destruct (stop_used_eq s v lv r Hs Hrange (stops_continues s v lv r Hr) Hu)
        as (e' & He' & Hev).
      assert (e' = e) by congruence. subst e'.
      eapply eq_fn_trans; [apply eq_fn_sym; exact Hev | exact Hek].
    - intros j Hj. rewrite continues_put by assumption.
      destruct (j =? r) eqn:Ej; [| assumption].
      apply Z.eqb_eq in Ej. subst j. cbn. apply negb_true_iff.
      pose proof (continues_used s k l r Hj) as Hur.
      destruct (stop_used_eq s v lv r Hs Hrange (stops_continues s v lv r Hr) Hur)
        as (e & He & Hev).
      destruct (eq_fn v lv k l) eqn:Evk; [| reflexivity]. exfalso.
      assert (Hek : eq_fn (val e) (val_size e) k l = true)
        by (eapply eq_fn_trans; eassumption).
      unfold slot_continues in Hj. apply slot_used_load in Hur.
      rewrite Hur, He in Hj. cbn in Hj. rewrite Hek in Hj. discriminate. }
  rewrite (contains_stops _ k l rk (shape_put s r _ Hs) Hst).
  rewrite slot_used_put, Hu by assumption. destruct (rk =? r); reflexivity.
Qed.

End Equivalence.

(** *** The loop of [resize] *)

Lemma shape_capacity_le (s : hset) : shape type s -> capacity s <= 2 ^ 32.
Proof.
  intros (d & t & a & Hd & Ht & Ha & Hc & Ld & Lt).
  pose proof (pow2_bounds a Ha). lia.
Qed.

(** The body of the loop for a used old slot: the entry is written where
    its probe stops. *)
Lemma reinsert_stops (s : hset) (v : entry) r :
  shape type s -> stops s (val v) (val_size v) r ->
  (let* slot := find_slot s (val v) (val_size v) in
   if slot <? 0 then Ok s
   else
     let* d := store (data s) slot v in
     let* t := store (state s) slot 1 in
     Ok {| data := d; state := t;
           size := size_t (size s + 1); capacity := capacity s |})
  = Ok (put type s r v).
Proof.
  intros Hs Hr. pose proof (stops_range _ _ _ _ Hr) as Hrange.
  rewrite (find_slot_stops _ _ _ _ Hs Hr). cbn [bind].
  destruct (r <? 0) eqn:E; [apply Z.ltb_lt in E; lia |].
  destruct Hs as (d & t & a & Hd & Ht & Ha & Hc & Ld & Lt).
  rewrite Hd, Ht, !store_in_range by lia. cbn [bind].
  unfold put. rewrite Hd, Ht. reflexivity.
Qed.

Lemma rebuilding_put (s : hset) cells i r e :
  rebuilding type cells i s -> i < cells -> 0 <= r < capacity s ->
  rebuilding type cells (i + 1) (put type s r e).
Proof.
  intros (Hs & Hcells & Hused & Hsize) Hi Hr.
  pose proof (used_slots_bounds s Hs) as Hb.
  pose proof (shape_capacity_le s Hs) as Hmax.
  assert (Esz : size (put type s r e) = size s + 1).
  { cbn. apply size_t_small. lia. }
  split; [apply shape_put; assumption |].
  rewrite used_slots_put, Esz by assumption. cbn [capacity put].
  destruct (slot_used type s r); repeat split; lia.
Qed.

Lemma rebuilding_skip (s : hset) cells i :
  rebuilding type cells i s -> rebuilding type cells (i + 1) s.
Proof. intros (Hs & Hcells & Hused & Hsize). repeat split; try assumption; lia. Qed.

Lemma rebuilding_room (s : hset) cells i :
  rebuilding type cells i s -> i < cells -> used_slots type s < capacity s.
Proof. intros (Hs & Hcells & Hused & Hsize) Hi. lia. Qed.

(** The loop runs to its end and maintains every invariant [I] that
    skipping an old slot and writing an entry at the end of its probe
    maintain. *)
Lemma resize_loop_invariant (I : Z -> hset -> Prop)
    (d0 : list entry) (t0 : list Z) :
  length d0 = length t0 ->
  (forall i s st, rebuilding type (Z.of_nat (length t0)) i s -> I i s ->
     load (Some t0) i = Ok st -> (st =? 1) = false -> I (i + 1) s) ->
  (forall i s v r, rebuilding type (Z.of_nat (length t0)) i s -> I i s ->
     load (Some t0) i = Ok 1 -> load (Some d0) i = Ok v ->
     stops s (val v) (val_size v) r -> I (i + 1) (put type s r v)) ->
  forall n i s,
    0 <= i -> i + Z.of_nat n = Z.of_nat (length t0) ->
    rebuilding type (Z.of_nat (length t0)) i s -> I i s ->
    exists s',
      resize_loop type hash_fn eq_fn n i (Some d0) (Some t0) s = Ok s' /\
      rebuilding type (Z.of_nat (length t0)) (i + Z.of_nat n) s' /\
      I (i + Z.of_nat n) s' /\ capacity s' = capacity s.
Proof.
  intros Hlen Hskip Hput.
  induction n as [| n IH]; intros i s Hi Hn Hreb HI.
  - exists s. rewrite Z.add_0_r. cbn. auto.
  - cbn [resize_loop].
    destruct (load_in_range t0 i) as [st Hst]; [lia |].
    destruct (load_in_range d0 i) as [v Hv]; [lia |].
    rewrite Hst. cbn [bind].
    replace (i + Z.of_nat (S n)) with (i + 1 + Z.of_nat n) by lia.
    destruct (st =? 1) eqn:E.
    + apply Z.eqb_eq in E. subst st. rewrite Hv. cbn [bind].
      pose proof Hreb as (Hs & _).
      destruct (room_stops s (val v) (val_size v) Hs) as [r Hr].
      { eapply rebuilding_room; [eassumption | lia]. }
      rewrite (reinsert_stops s v r Hs Hr). cbn [bind].
      destruct (IH (i + 1) (put type s r v)) as (s' & E' & Hreb' & HI' & Hc');
        [lia | lia | | | eauto].
      * apply rebuilding_put; [assumption | lia |]. eapply stops_range; eassumption.
      * eapply Hput; eassumption.
    + cbn [bind].
      destruct (IH (i + 1) s) as (s' & E' & Hreb' & HI' & Hc');
        [lia | lia | | | eauto].
      * apply rebuilding_skip; assumption.
      * eapply Hskip; eassumption.
Qed.

(** The zeroed table that [resize] starts from. *)
Lemma fresh_table b newcap :
  0 <= b <= 32 -> newcap = 2 ^ b ->
  calloc_ok newcap sizeof_pair = true -> calloc_ok newcap 1 = true ->
  let s1 : hset :=
    {| data := HASHSET_CALLOC calloc_ok (zero_pair type zero) newcap sizeof_pair;
       state := HASHSET_CALLOC calloc_ok 0 newcap 1;
       size := 0; capacity := newcap |} in
  shape type s1 /\ used_slots type s1 = 0 /\
  (forall i, slot_used type s1 i = false) /\ no_tombstone type s1.
Proof.
  intros Hb -> H1 H2. pose proof (pow2_bounds b Hb) as Hp.
  unfold HASHSET_CALLOC. rewrite H1, H2. cbn zeta.
  assert (Hz : forall i st,
    load (Some (replicate (Z.to_nat (2 ^ b)) 0)) i = Ok st -> st = 0).
  { intros i st Hl. apply load_inv in Hl. destruct Hl as (l0 & [= <-] & _ & Hl).
    apply lookup_replicate in Hl. tauto. }
  repeat split.
  - exists (replicate (Z.to_nat (2 ^ b)) (zero_pair type zero)),
      (replicate (Z.to_nat (2 ^ b)) 0), b.
    cbn [data state capacity]. rewrite !length_replicate. repeat split; lia.
  - unfold used_slots. cbn [state]. apply count_used_replicate.
  - intros i. unfold slot_used. cbn [state].
    destruct (load _ i) as [st |] eqn:Hl; [| reflexivity].
    rewrite (Hz i st Hl). reflexivity.
  - intros i Hl. cbn [state] in Hl. apply Hz in Hl. discriminate.
Qed.

(** *** [resize] *)

Lemma resize_accounts (s : hset) b newcap :
  shape type s -> 0 <= b <= 32 -> newcap = 2 ^ b -> capacity s <= newcap ->
  calloc_ok newcap sizeof_pair = true -> calloc_ok newcap 1 = true ->
  exists s', resize s newcap = Ok (0, s') /\
    shape type s' /\ capacity s' = newcap /\
    used_slots type s' <= size s' /\ size s' <= capacity s /\
    no_tombstone type s' /\ (forall e, live type s' e -> live type s e).
Proof.
  intros Hs Hb Hnew Hle H1 H2.
  destruct (fresh_table b newcap Hb Hnew H1 H2) as (Hs1 & Hu1 & Hfree1 & Hclean1).
  pose proof Hs as (d0 & t0 & a & Hd & Ht & Ha & Hc & Ld & Lt).
  unfold set_resize. rewrite Hd, Ht.
  set (s1 := {| data := _; state := _; size := 0; capacity := newcap |}) in *.
  assert (Hloop : exists s',
    resize_loop type hash_fn eq_fn (Z.to_nat (capacity s)) 0 (Some d0) (Some t0) s1
      = Ok s' /\
    rebuilding type (Z.of_nat (length t0)) (0 + Z.of_nat (Z.to_nat (capacity s))) s' /\
    (no_tombstone type s' /\ forall e, live type s' e -> live type s e) /\
    capacity s' = capacity s1).
  { apply (resize_loop_invariant
             (fun _ s' => no_tombstone type s' /\
                          forall e, live type s' e -> live type s e)).
    - lia.
    - intros i s2 st Hreb HI _ _. exact HI.
    - intros i s2 v r (Hs2 & _) (Hclean & Hlive) Hst Hv Hr.
      pose proof (stops_range _ _ _ _ Hr) as Hrange. split.
      + apply no_tombstone_put; assumption.
      + intros e He. destruct (live_put s2 r v e Hs2 Hrange He) as [Hold | ->].
        * apply Hlive, Hold.
        * exists i. rewrite Hd, Ht. auto.
    - lia.
    - lia.
    - repeat split; try assumption; cbn [capacity size s1]; lia.
    - split; [assumption |]. intros e (i & Hst & _).
      apply slot_used_load in Hst. rewrite Hfree1 in Hst. discriminate. }
  destruct Hloop as (s' & E & (Hs' & _ & Hu' & Hsz') & (Hclean' & Hlive') & Hc').
  exists s'. rewrite E. cbn [bind]. cbn [capacity s1] in Hc'.
  repeat split; try assumption; lia.
Qed.

Section Equivalence_resize.

Hypothesis eq_fn_refl : forall a la, eq_fn a la a la = true.
Hypothesis eq_fn_sym : forall a la b lb, eq_fn a la b lb = true -> eq_fn b lb a la = true.
Hypothesis eq_fn_trans : forall a la b lb c lc,
  eq_fn a la b lb = true -> eq_fn b lb c lc = true -> eq_fn a la c lc = true.

(** Every entry of a used slot of the old table is found in the new one. *)
Lemma resize_members (s : hset) b newcap :
  shape type s -> 0 <= b <= 32 -> newcap = 2 ^ b -> capacity s <= newcap ->
  calloc_ok newcap sizeof_pair = true -> calloc_ok newcap 1 = true ->
  exists s', resize s newcap = Ok (0, s') /\
    forall e, live type s e -> contains s' (val e) (val_size e) = Ok true.
Proof.
  intros Hs Hb Hnew Hle H1 H2.
  destruct (fresh_table b newcap Hb Hnew H1 H2) as (Hs1 & Hu1 & Hfree1 & Hclean1).
  pose proof Hs as (d0 & t0 & a & Hd & Ht & Ha & Hc & Ld & Lt).
  unfold set_resize. rewrite Hd, Ht.
  set (s1 := {| data := _; state := _; size := 0; capacity := newcap |}) in *.
  set (I := fun (i : Z) (s' : hset) =>
    forall j e, 0 <= j < i -> load (Some t0) j = Ok 1 -> load (Some d0) j = Ok e ->
      contains s' (val e) (val_size e) = Ok true).
  assert (Hloop : exists s',
    resize_loop type hash_fn eq_fn (Z.to_nat (capacity s)) 0 (Some d0) (Some t0) s1
      = Ok s' /\
    rebuilding type (Z.of_nat (length t0)) (0 + Z.of_nat (Z.to_nat (capacity s))) s' /\
    I (0 + Z.of_nat (Z.to_nat (capacity s))) s' /\
    capacity s' = capacity s1).
  { apply (resize_loop_invariant I).
    - lia.
    - intros i s2 st Hreb HI Hst Hne j e Hj Hj1 Hje.
      destruct (Z.eq_dec j i) as [-> | Hji].
      + rewrite Hst in Hj1. injection Hj1 as ->. discriminate.
      + apply HI with (j := j); [lia | assumption | assumption].
    - intros i s2 v r (Hs2 & _) HI Hst Hv Hr j e Hj Hj1 Hje.
      destruct v as [kv lv]. cbn [val val_size] in Hr.
      destruct (Z.eq_dec j i) as [-> | Hji].
      + rewrite Hv in Hje. injection Hje as <-. cbn [val val_size].
        apply contains_put_self; assumption.
      + apply contains_put_other; try assumption.
        apply HI with (j := j); [lia | assumption | assumption].
    - lia.
    - lia.
    - repeat split; try assumption; cbn [capacity size s1]; lia.
    - intros j e Hj. lia. }
  destruct Hloop as (s' & E & _ & HI & _).
  exists s'. rewrite E. cbn [bind]. split; [reflexivity |].
  intros e (i & Hst & Hdt). rewrite Hd in Hdt. rewrite Ht in Hst.
  apply HI with (j := i); [| assumption | assumption].
  apply load_inv in Hst. destruct Hst as (t' & [= <-] & Hi & _). lia.
Qed.

End Equivalence_resize.

(** *** Growth inside [insert] *)

Lemma load_factor_after_resize (s s1 : hset) :
  shape type s1 ->
  0 <= capacity s -> capacity s1 = capacity s * 2 -> size s1 <= capacity s ->
  load_factor_exceeded type s1 = false.
Proof.
  intros Hs1 Hc E Hsz.
  rewrite load_factor_exceeded_shape; [| assumption |].
  2: { destruct Hs1 as (d & t & a & _ & _ & Ha & Hc1 & _).
       pose proof (pow2_bounds a Ha). lia. }
  apply Z.ltb_ge. rewrite E.
  unfold HASHSET_MAX_LOAD_FACTOR_num, HASHSET_MAX_LOAD_FACTOR_den.
  change (2 ^ 53) with 9007199254740992. lia.
Qed.

Lemma grow_accounted (s : hset) :
  accounted type s -> load_factor_exceeded type s = true ->
  capacity s * 2 <= 2 ^ 32 ->
  calloc_ok (capacity s * 2) sizeof_pair = true ->
  calloc_ok (capacity s * 2) 1 = true ->
  exists s1, resize s (size_t (capacity s * 2)) = Ok (0, s1) /\
    accounted type s1 /\ load_factor_exceeded type s1 = false /\
    capacity s1 = capacity s * 2 /\ no_tombstone type s1 /\
    (forall e, live type s1 e -> live type s e).
Proof.
  intros Hacc Hload Hmax H1 H2.
  destruct (accounted_room s Hacc) as (Hroom & Hsz & Hlt & _).
  destruct Hacc as (Hs & Hcap & Hused & Hbound).
  pose proof Hs as (d & t & a & Hd & Ht & Ha & Hc & Ld & Lt).
  assert (Ha1 : 0 <= a + 1 <= 32).
  { destruct (Z.eq_dec a 32) as [-> | Hne]; [| lia].
    rewrite Hc in Hmax. change (2 ^ 32) with 4294967296 in Hmax. lia. }
  assert (Hnew : capacity s * 2 = 2 ^ (a + 1)).
  { rewrite Z.pow_add_r, Hc by lia. lia. }
  rewrite size_t_small by (unfold HASHSET_INITIAL_CAPACITY in Hcap; lia).
  destruct (resize_accounts s (a + 1) (capacity s * 2) Hs Ha1 Hnew)
    as (s1 & E & Hs1 & Hc1 & Hu1 & Hsz1 & Hclean1 & Hlive1); try assumption; [lia |].
  exists s1. split; [assumption |].
  assert (Hload1 : load_factor_exceeded type s1 = false).
  { apply (load_factor_after_resize s); [assumption | lia | assumption | assumption]. }
  split; [| auto]. split; [assumption |]. split; [| split; [assumption |]].
  - unfold HASHSET_INITIAL_CAPACITY in *. lia.
  - rewrite load_factor_exceeded_shape in Hload1; [| assumption |].
    2: { destruct Hs1 as (d1 & t1 & a1 & _ & _ & Ha1' & Hc1' & _).
         pose proof (pow2_bounds a1 Ha1'). lia. }
    apply Z.ltb_ge in Hload1.
    unfold HASHSET_MAX_LOAD_FACTOR_den in *. change (2 ^ 53) with 9007199254740992 in *.
    lia.
Qed.

Lemma insert_grown (s s1 : hset) k l :
  grown type zero hash_fn eq_fn sizeof_pair calloc_ok s s1 ->
  load_factor_exceeded type s1 = false ->
  insert s k l = insert s1 k l.
Proof.
  intros [[Hload ->] | [Hload Hres]] Hload1; [reflexivity |].
  eapply insert_resized; eassumption.
Qed.

(** [insert] runs to its end on an accounted set, given the memory that
    growth asks for, and keeps the set accounted. *)
Lemma insert_accounted (s : hset) k l :
  accounted type s ->
  (load_factor_exceeded type s = true ->
     capacity s * 2 <= 2 ^ 32 /\
     calloc_ok (capacity s * 2) sizeof_pair = true /\
     calloc_ok (capacity s * 2) 1 = true) ->
  exists s1 r,
    grown type zero hash_fn eq_fn sizeof_pair calloc_ok s s1 /\
    accounted type s1 /\ load_factor_exceeded type s1 = false /\
    stops s1 k l r /\
    insert s k l =
      Ok (if slot_used type s1 r then (false, s1)
          else (true, put type s1 r {| val := k; val_size := l |})) /\
    accounted type (if slot_used type s1 r then s1
                    else put type s1 r {| val := k; val_size := l |}).
Proof.
  intros Hacc Hmem.
  assert (Hg : exists s1,
    grown type zero hash_fn eq_fn sizeof_pair calloc_ok s s1 /\
    accounted type s1 /\ load_factor_exceeded type s1 = false).
  { destruct (load_factor_exceeded type s) eqn:Hload.
    - destruct (Hmem eq_refl) as (Hmax & H1 & H2).
      destruct (grow_accounted s Hacc Hload Hmax H1 H2) as (s1 & E & Hacc1 & Hl1 & _).
      exists s1. split; [right; auto | auto].
    - exists s. split; [left; auto | auto]. }
  destruct Hg as (s1 & Hg & Hacc1 & Hload1).
  destruct (accounted_room s1 Hacc1) as (Hroom & _).
  pose proof Hacc1 as (Hs1 & _).
  destruct (room_stops s1 k l Hs1 Hroom) as [r Hr].
  exists s1, r. do 4 (split; [assumption |]). split.
  - rewrite (insert_grown s s1 k l Hg Hload1). apply insert_stops; assumption.
  - destruct (slot_used type s1 r) eqn:Hu; [assumption |].
    apply accounted_put; try assumption. eapply stops_range; eassumption.
Qed.

(** [remove] runs to its end on an accounted set and keeps it accounted. *)
Lemma remove_accounted (s : hset) k l :
  accounted type s ->
  exists r, stops s k l r /\
    remove s k l =
      Ok (if slot_used type s r then (true, mark_deleted type s r) else (false, s)) /\
    accounted type (if slot_used type s r then mark_deleted type s r else s).
Proof.
  intros Hacc. destruct (accounted_room s Hacc) as (Hroom & _).
  pose proof Hacc as (Hs & _).
  destruct (room_stops s k l Hs Hroom) as [r Hr].
  exists r. split; [assumption |]. split; [apply remove_stops; assumption |].
  destruct (slot_used type s r) eqn:Hu; [| assumption].
  apply accounted_mark_deleted; try assumption. eapply stops_range; eassumption.
Qed.

(** *** [insert] when growth gets no memory *)

Lemma uint_nonneg x : 0 <= uint x.
Proof. unfold uint. apply Z.mod_pos_bound. lia. Qed.

Lemma size_t_nonneg x : 0 <= size_t x.
Proof. unfold size_t. apply Z.mod_pos_bound. lia. Qed.

Lemma loop_nonneg (s : hset) k l mask start f :
  0 <= capacity s ->
  forall idx r, 0 <= idx -> loop f s k l mask start idx = Ok r -> 0 <= r.
Proof.
  intros Hc. induction f as [| f IH]; intros idx r Hidx; cbn [find_slot_loop];
    [discriminate |].
  destruct (load (state s) idx) as [st |]; cbn [bind]; [| discriminate].
  destruct (st =? 1); [| intros [= <-]; assumption].
  destruct (load (data s) idx) as [e |]; cbn [bind]; [| discriminate].
  destruct (negb _); [| intros [= <-]; assumption].
  destruct (_ =? start); [intros [= <-]; assumption |].
  apply IH, uint_nonneg.
Qed.

Lemma find_slot_nonneg (s : hset) k l r :
  0 <= capacity s -> find_slot s k l = Ok r -> 0 <= r.
Proof.
  intros Hc. unfold set_find_slot. apply loop_nonneg; [assumption |].
  apply uint_nonneg.
Qed.

Lemma find_slot_null_state (s : hset) k l :
  state s = None -> find_slot s k l = Fault NullDeref.
Proof. intros H. unfold set_find_slot. cbn [find_slot_loop]. rewrite H. reflexivity. Qed.

(** With one of its arrays missing, the new table takes no entry: the loop
    of [resize] faults or leaves it as it is. *)
Lemma resize_loop_unallocated (s1 : hset) od ot :
  state s1 = None \/ data s1 = None -> 0 <= capacity s1 ->
  forall n i s', resize_loop type hash_fn eq_fn n i od ot s1 = Ok s' -> s' = s1.
Proof.
  intros Hnull Hc. induction n as [| n IH]; intros i s'; cbn [resize_loop].
  - intros [= <-]. reflexivity.
  - destruct (load ot i) as [st |]; cbn [bind]; [| discriminate].
    destruct (st =? 1); cbn [bind]; [| apply IH].
    destruct (load od i) as [v |]; cbn [bind]; [| discriminate].
    destruct (find_slot s1 (val v) (val_size v)) as [slot |] eqn:E; cbn [bind];
      [| discriminate].
    destruct (slot <? 0); cbn [bind]; [apply IH |].
    destruct Hnull as [Hst | Hdt].
    + rewrite find_slot_null_state in E by assumption. discriminate.
    + rewrite Hdt. cbn. discriminate.
Qed.

Lemma insert_needs_memory (s : hset) k l b s' :
  load_factor_exceeded type s = true ->
  insert s k l = Ok (b, s') ->
  calloc_ok (size_t (capacity s * 2)) sizeof_pair = true /\
  calloc_ok (size_t (capacity s * 2)) 1 = true.
Proof.
  intros Hload. unfold set_insert, set_resize. rewrite Hload.
  set (newcap := size_t (capacity s * 2)).
  set (s1 := {| data := _; state := _; size := 0; capacity := newcap |}).
  destruct (calloc_ok newcap sizeof_pair) eqn:H1, (calloc_ok newcap 1) eqn:H2;
    [auto | | |]; intros E; exfalso.
  all: assert (Hnull : state s1 = None \/ data s1 = None)
         by (unfold s1, HASHSET_CALLOC; cbn; rewrite ?H1, ?H2; auto).
  all: assert (Hc1 : 0 <= capacity s1) by apply size_t_nonneg.
  all: destruct (resize_loop _ _ _ _ _ _ _ s1) as [s2 |] eqn:Eloop; cbn [bind] in E;
         [| discriminate].
  all: apply (resize_loop_unallocated s1 _ _ Hnull Hc1) in Eloop; subst s2.
  all: cbn [snd] in E.
  all: destruct (find_slot s1 k l) as [idx |] eqn:Efs; cbn [bind] in E; [| discriminate].
  all: pose proof (find_slot_nonneg s1 k l idx Hc1 Efs) as Hidx.
  all: destruct (idx <? 0) eqn:Eneg; [apply Z.ltb_lt in Eneg; lia |].
  - (* the state array is missing *)
    unfold s1, HASHSET_CALLOC in E. cbn [state] in E. rewrite H2 in E.
    cbn in E. discriminate.
  - (* the entry array is missing, the state array is all zero *)
    destruct (load (state s1) idx) as [st |] eqn:Est; cbn [bind] in E; [| discriminate].
    assert (st = 0).
    { unfold s1, HASHSET_CALLOC in Est. cbn [state] in Est. rewrite H2 in Est.
      apply load_inv in Est. destruct Est as (t & [= <-] & _ & Hl).
      apply lookup_replicate in Hl. tauto. }
    subst st. cbn in E. unfold HASHSET_CALLOC in E. rewrite H1 in E.
    cbn in E. discriminate.
  - unfold s1, HASHSET_CALLOC in E. cbn [state] in E. rewrite H2 in E.
    cbn in E. discriminate.
Qed.

(** *** Reachable sets are accounted *)

Section Bounded_allocator.

(** The allocator hands out no array of more than [2^32] cells, which is
    what the 32-bit probe index can address. *)
Hypothesis calloc_limit : forall nmemb sz, calloc_ok nmemb sz = true -> nmemb <= 2 ^ 32.

Lemma insert_memory (s : hset) k l b s' :
  accounted type s -> insert s k l = Ok (b, s') ->
  load_factor_exceeded type s = true ->
  capacity s * 2 <= 2 ^ 32 /\
  calloc_ok (capacity s * 2) sizeof_pair = true /\
  calloc_ok (capacity s * 2) 1 = true.
Proof.
  intros Hacc E Hload.
  destruct (accounted_room s Hacc) as (_ & _ & _ & Hmax).
  destruct Hacc as (Hs & Hcap & _).
  destruct (insert_needs_memory s k l b s' Hload E) as [H1 H2].
  assert (Esz : size_t (capacity s * 2) = capacity s * 2).
  { unfold size_t. apply Z.mod_small. unfold HASHSET_INITIAL_CAPACITY in Hcap.
    change (2 ^ 32) with 4294967296 in Hmax.
    change (2 ^ 64) with 18446744073709551616. lia. }
  rewrite Esz in H1, H2.
  split; [| auto]. eapply calloc_limit; eassumption.
Qed.

Lemma reachable_accounted (s : hset) : reach s -> accounted type s.
Proof.
  induction 1 as [Hd Ht | s k l b s' Hreach IH E | s k l b s' Hreach IH E].
  - apply accounted_init.
    + unfold set_init, HASHSET_CALLOC in Hd. cbn in Hd.
      destruct (calloc_ok HASHSET_INITIAL_CAPACITY sizeof_pair); congruence.
    + unfold set_init, HASHSET_CALLOC in Ht. cbn in Ht.
      destruct (calloc_ok HASHSET_INITIAL_CAPACITY 1); congruence.
  - destruct (insert_accounted s k l IH (insert_memory s k l b s' IH E))
      as (s1 & r & _ & _ & _ & _ & E' & Hacc').
    rewrite E in E'. destruct (slot_used type s1 r); congruence.
  - destruct (remove_accounted s k l IH) as (r & _ & E' & Hacc').
    rewrite E in E'. destruct (slot_used type s r); congruence.
Qed.

End Bounded_allocator.

(** *** Round trip *)

Lemma stops_mark_deleted (s : hset) k l r :
  shape type s -> stops s k l r -> stops (mark_deleted type s r) k l r.
Proof.
  intros Hs Hr. pose proof (stops_range s k l r Hr) as Hrange.
  apply (stops_congr s); [reflexivity | assumption | |].
  - rewrite continues_mark_deleted, Z.eqb_refl by assumption. reflexivity.
  - intros j Hj. rewrite continues_mark_deleted by assumption.
    destruct (j =? r) eqn:E; [| assumption].
    apply Z.eqb_eq in E. subst j.
    rewrite (stops_continues s k l r Hr) in Hj. discriminate.
Qed.

Lemma contains_mark_deleted (s : hset) k l r :
  shape type s -> stops s k l r -> contains (mark_deleted type s r) k l = Ok false.
Proof.
  intros Hs Hr. pose proof (stops_range s k l r Hr) as Hrange.
  rewrite (contains_stops _ k l r (shape_mark_deleted s r Hs)
             (stops_mark_deleted s k l r Hs Hr)).
  unfold slot_used. rewrite load_state_mark_deleted, Z.eqb_refl by assumption.
  reflexivity.
Qed.

Section Round_trip.

Hypothesis eq_fn_refl : forall a la, eq_fn a la a la = true.
Hypothesis calloc_limit : forall nmemb sz, calloc_ok nmemb sz = true -> nmemb <= 2 ^ 32.

(** X20. Round trip in tables of at most [2^32] cells. With a
    [HASHSET_CALLOC] that hands out at most [2^32] cells, on every set
    reachable from [init] by calls of [insert] and [remove], for every key
    and length tag: whenever [insert] returns, [contains] of the same key
    is true on the set it leaves; [insert] does return when the growth it
    may need gets its memory; and [remove] returns and leaves a set on
    which [contains] of the same key is false. The bound is needed: the
    probe index is 32 bits wide. *)
Theorem insert_contains_remove_round_trip (s : hset) k l :
  reach s ->
  (forall b s', insert s k l = Ok (b, s') -> contains s' k l = Ok true) /\
  ((load_factor_exceeded type s = true ->
      capacity s * 2 <= 2 ^ 32 /\
      calloc_ok (capacity s * 2) sizeof_pair = true /\
      calloc_ok (capacity s * 2) 1 = true) ->
   exists b s', insert s k l = Ok (b, s')) /\
  (exists b s', remove s k l = Ok (b, s') /\ contains s' k l = Ok false).
Proof.
  intros Hreach. pose proof (reachable_accounted calloc_limit s Hreach) as Hacc.
  split; [| split].
  - intros b s' E.
    destruct (insert_accounted s k l Hacc (insert_memory calloc_limit s k l b s' Hacc E))
      as (s1 & r & _ & (Hs1 & _) & _ & Hr & E' & _).
    rewrite E in E'. destruct (slot_used type s1 r) eqn:Hu.
    + injection E' as -> ->. rewrite (contains_stops s1 k l r Hs1 Hr), Hu. reflexivity.
    + injection E' as -> ->. apply contains_put_self; assumption.
  - intros Hmem.
    destruct (insert_accounted s k l Hacc Hmem) as (s1 & r & _ & _ & _ & _ & E' & _).
    rewrite E'. destruct (slot_used type s1 r); eauto.
  - destruct (remove_accounted s k l Hacc) as (r & Hr & E' & _).
    pose proof Hacc as (Hs & _). rewrite E'.
    destruct (slot_used type s r) eqn:Hu.
    + exists true, (mark_deleted type s r). split; [reflexivity |].
      apply contains_mark_deleted; assumption.
    + exists false, s. split; [reflexivity |].
      rewrite (contains_stops s k l r Hs Hr), Hu. reflexivity.
Qed.

End Round_trip.

(** *** Resize and membership *)

Lemma absent_not_member (s : hset) k l :
  shape type s -> used_slots type s < capacity s ->
  (forall e, live type s e -> eq_fn (val e) (val_size e) k l = false) ->
  contains s k l = Ok false.
Proof.
  intros Hs Hroom Habs. destruct (room_stops s k l Hs Hroom) as [r Hr].
  rewrite (contains_stops s k l r Hs Hr).
  destruct (slot_used type s r) eqn:Hu; [| reflexivity]. exfalso.
  destruct (stop_used_eq s k l r Hs (stops_range s k l r Hr)
              (stops_continues s k l r Hr) Hu) as (e & He & Heq).
  rewrite Habs in Heq; [discriminate |].
  exists r. split; [apply slot_used_load |]; assumption.
Qed.

Section Resize_membership.

Hypothesis eq_fn_refl : forall a la, eq_fn a la a la = true.
Hypothesis eq_fn_sym : forall a la b lb, eq_fn a la b lb = true -> eq_fn b lb a la = true.
Hypothesis eq_fn_trans : forall a la b lb c lc,
  eq_fn a la b lb = true -> eq_fn b lb c lc = true -> eq_fn a la c lc = true.

(** X21. What [resize] preserves. For a set
    in shape, whatever the number of its slots in state 2, a call of
    [resize] to a larger power of two [newcap] that gets its memory returns
    0 and leaves a set of capacity [newcap] on which [contains] is true for
    the entry of every used slot of the old table, false for every key
    that [eq_fn] tells apart from all of them (so for every removed key
    that is live nowhere; a removed key of which a second copy is still
    in a used slot counts as live), and in which no slot is in state 2.
    When the
    load factor is exceeded, [insert] makes this very call with twice the
    capacity and goes on in the set it leaves; the set that [insert]
    returns then has the same three properties, its own key counted among
    the live ones. *)
Theorem resize_preserves_membership (s : hset) b newcap :
  shape type s -> 0 <= b <= 32 -> newcap = 2 ^ b -> capacity s < newcap ->
  calloc_ok newcap sizeof_pair = true -> calloc_ok newcap 1 = true ->
  exists s', resize s newcap = Ok (0, s') /\ capacity s' = newcap /\
    (forall e, live type s e -> contains s' (val e) (val_size e) = Ok true) /\
    (forall k l, (forall e, live type s e -> eq_fn (val e) (val_size e) k l = false) ->
                 contains s' k l = Ok false) /\
    no_tombstone type s' /\
    (load_factor_exceeded type s = true -> newcap = size_t (capacity s * 2) ->
     forall k l, insert s k l = insert s' k l /\
       (1 < capacity s ->
        exists ret s'', insert s k l = Ok (ret, s'') /\ capacity s'' = newcap /\
          contains s'' k l = Ok true /\
          (forall e, live type s e -> contains s'' (val e) (val_size e) = Ok true) /\
          (forall k' l',
             (forall e, live type s e -> eq_fn (val e) (val_size e) k' l' = false) ->
             eq_fn k l k' l' = false -> contains s'' k' l' = Ok false) /\
          no_tombstone type s'')).
Proof.
  intros Hs Hb Hnew Hlt H1 H2.
  destruct (resize_accounts s b newcap Hs Hb Hnew ltac:(lia) H1 H2)
    as (s1 & E & Hs1 & Hc1 & Hu1 & Hsz1 & Hclean1 & Hlive1).
  destruct (resize_members eq_fn_refl eq_fn_sym eq_fn_trans s b newcap
              Hs Hb Hnew ltac:(lia) H1 H2) as (s1' & E' & Hmem1).
  rewrite E in E'. injection E' as <-.
  assert (Hroom1 : used_slots type s1 < capacity s1) by lia.
  assert (Habs1 : forall k l,
    (forall e, live type s e -> eq_fn (val e) (val_size e) k l = false) ->
    contains s1 k l = Ok false).
  { intros k l Habs. apply absent_not_member; [assumption | assumption |].
    intros e He. apply Habs, Hlive1, He. }
  exists s1. do 5 (split; [assumption |]).
  intros Hload Hdouble k l.
  assert (Hg : grown type zero hash_fn eq_fn sizeof_pair calloc_ok s s1).
  { right. split; [assumption |]. rewrite <- Hdouble. assumption. }
  assert (Htwice : newcap = capacity s * 2).
  { pose proof (shape_capacity_pos s Hs).
    pose proof (shape_capacity_le s Hs) as Hmax. rewrite Hdouble.
    unfold size_t. apply Z.mod_small.
    change (2 ^ 32) with 4294967296 in Hmax.
    change (2 ^ 64) with 18446744073709551616. lia. }
  assert (Hload1 : load_factor_exceeded type s1 = false).
  { apply (load_factor_after_resize s); [assumption | | lia | lia].
    pose proof (shape_capacity_pos s Hs). lia. }
  split; [apply insert_grown; assumption |]. intros Hbig.
  destruct (room_stops s1 k l Hs1 Hroom1) as [r Hr].
  pose proof (stops_range s1 k l r Hr) as Hrange.
  rewrite (insert_grown s s1 k l Hg Hload1), (insert_stops s1 k l r Hs1 Hload1 Hr).
  destruct (slot_used type s1 r) eqn:Hu.
  - exists false, s1. split; [reflexivity |]. split; [assumption |].
    split; [rewrite (contains_stops s1 k l r Hs1 Hr), Hu; reflexivity |].
    split; [assumption |]. split; [| assumption].
    intros k' l' Habs _. apply Habs1, Habs.
  - exists true, (put type s1 r {| val := k; val_size := l |}).
    split; [reflexivity |]. split; [assumption |].
    split; [apply contains_put_self; assumption |].
    split; [| split].
    + intros e He. apply contains_put_other; auto.
    + intros k' l' Habs Hne. apply absent_not_member.
      * apply shape_put; assumption.
      * rewrite used_slots_put, Hu by assumption. cbn [capacity put]. lia.
      * intros e He. destruct (live_put s1 r _ e Hs1 Hrange He) as [Hold | ->].
        -- apply Habs, Hlive1, Hold.
        -- exact Hne.
    + apply no_tombstone_put; assumption.
Qed.

End Resize_membership.

(** *** Growth *)

Lemma resize_loop_capacity od ot :
  forall n i (s s' : hset),
    resize_loop type hash_fn eq_fn n i od ot s = Ok s' -> capacity s' = capacity s.
Proof.
  induction n as [| n IH]; intros i s s'; cbn [resize_loop].
  - intros [= <-]. reflexivity.
  - destruct (load ot i) as [st |]; cbn [bind]; [| discriminate].
    destruct (st =? 1); cbn [bind]; [| apply IH].
    destruct (load od i) as [v |]; cbn [bind]; [| discriminate].
    destruct (find_slot s (val v) (val_size v)) as [slot |]; cbn [bind]; [| discriminate].
    destruct (slot <? 0); cbn [bind]; [apply IH |].
    destruct (store (data s) slot v) as [d |]; cbn [bind]; [| discriminate].
    destruct (store (state s) slot 1) as [t |]; cbn [bind]; [| discriminate].
    intros E. apply IH in E. exact E.
Qed.

(** [insert] changes the capacity exactly when the load factor is exceeded
    on entry, and then to twice its value. *)
Lemma insert_capacity (s : hset) k l ret s' :
  insert s k l = Ok (ret, s') ->
  capacity s' =
    if load_factor_exceeded type s then size_t (capacity s * 2) else capacity s.
Proof.
  unfold set_insert, set_resize.
  assert (Htail : forall s1 : hset,
    (let* idx := find_slot s1 k l in
     if idx <? 0 then Ok (false, s1)
     else
       let* st := load (state s1) idx in
       if st =? 1 then Ok (false, s1)
       else
         let* d := store (data s1) idx {| val := k; val_size := l |} in
         let* t := store (state s1) idx 1 in
         Ok (true, {| data := d; state := t;
                      size := size_t (size s1 + 1); capacity := capacity s1 |}))
    = Ok (ret, s') -> capacity s' = capacity s1).
  { intros s1.
    destruct (find_slot s1 k l) as [idx |]; cbn [bind]; [| discriminate].
    destruct (idx <? 0); [intros [= _ <-]; reflexivity |].
    destruct (load (state s1) idx) as [st |]; cbn [bind]; [| discriminate].
    destruct (st =? 1); [intros [= _ <-]; reflexivity |].
    destruct (store (data s1) idx _) as [d |]; cbn [bind]; [| discriminate].
    destruct (store (state s1) idx 1) as [t |]; cbn [bind]; [| discriminate].
    intros [= _ <-]. reflexivity. }
  destruct (load_factor_exceeded type s); cbn [bind]; [| apply Htail].
  destruct (resize_loop _ _ _ _ _ _ _ _) as [s2 |] eqn:Eloop; cbn [bind snd];
    [| discriminate].
  intros E. apply Htail in E. rewrite E.
  apply resize_loop_capacity in Eloop. exact Eloop.
Qed.

Lemma grown_live (s s1 : hset) :
  accounted type s ->
  grown type zero hash_fn eq_fn sizeof_pair calloc_ok s s1 ->
  capacity s * 2 <= 2 ^ 32 ->
  calloc_ok (capacity s * 2) sizeof_pair = true ->
  calloc_ok (capacity s * 2) 1 = true ->
  forall e, live type s1 e -> live type s e.
Proof.
  intros Hacc [[_ ->] | [Hload E]] Hmax H1 H2 e He; [assumption |].
  destruct (grow_accounted s Hacc Hload Hmax H1 H2) as (s1' & E' & _ & _ & _ & _ & Hlive).
  rewrite E in E'. injection E' as <-. apply Hlive, He.
Qed.

(** A key that [eq_fn] tells apart from every live entry is inserted. *)
Lemma insert_fresh (s : hset) k l :
  accounted type s -> capacity s * 2 <= 2 ^ 32 ->
  calloc_ok (capacity s * 2) sizeof_pair = true ->
  calloc_ok (capacity s * 2) 1 = true ->
  (forall e, live type s e -> eq_fn (val e) (val_size e) k l = false) ->
  exists s', insert s k l = Ok (true, s') /\ accounted type s' /\
    (load_factor_exceeded type s = false -> size s' = size s + 1) /\
    (forall e, live type s' e -> live type s e \/ e = {| val := k; val_size := l |}).
Proof.
  intros Hacc Hmax H1 H2 Hfresh.
  destruct (insert_accounted s k l Hacc) as (s1 & r & Hg & Hacc1 & Hload1 & Hr & E & Hacc');
    [auto |].
  pose proof Hacc1 as (Hs1 & _). pose proof (stops_range s1 k l r Hr) as Hrange.
  destruct (slot_used type s1 r) eqn:Hu.
  - exfalso.
    destruct (stop_used_eq s1 k l r Hs1 Hrange (stops_continues s1 k l r Hr) Hu)
      as (e & He & Heq).
    rewrite Hfresh in Heq; [discriminate |].
    apply (grown_live s s1 Hacc Hg Hmax H1 H2).
    exists r. split; [apply slot_used_load |]; assumption.
  - exists (put type s1 r {| val := k; val_size := l |}).
    split; [assumption |]. split; [assumption |]. split.
    + intros Hload. destruct Hg as [[_ ->] | [Hload' _]]; [| congruence].
      apply accounted_put; assumption.
    + intros e He. destruct (live_put s1 r _ e Hs1 Hrange He) as [Hold | ->]; [| auto].
      left. apply (grown_live s s1 Hacc Hg Hmax H1 H2), Hold.
Qed.

Lemma load_factor_at_16 (s : hset) :
  capacity s = 16 -> (load_factor_exceeded type s = true <-> 12 <= size s).
Proof.
  intros Hc. unfold load_factor_exceeded. rewrite Hc, Z.ltb_lt.
  change (double_of_size_t 16) with 16.
  unfold HASHSET_MAX_LOAD_FACTOR_num, HASHSET_MAX_LOAD_FACTOR_den.
  destruct (Z.lt_ge_cases (size s) (2 ^ 53)) as [Hlt | Hge].
  - rewrite double_of_size_t_small by assumption.
    change (2 ^ 53) with 9007199254740992. lia.
  - pose proof (double_of_size_t_large _ Hge) as Hd.
    change (2 ^ 53) with 9007199254740992 in *. lia.
Qed.

Lemma init_no_live :
  calloc_ok HASHSET_INITIAL_CAPACITY sizeof_pair = true ->
  calloc_ok HASHSET_INITIAL_CAPACITY 1 = true ->
  forall e, ~ live type (snd init) e.
Proof.
  intros H1 H2 e (i & Hst & _).
  destruct (fresh_table 4 HASHSET_INITIAL_CAPACITY ltac:(lia) eq_refl H1 H2)
    as (_ & _ & Hfree & _).
  apply slot_used_load in Hst. unfold set_init in Hst. cbn [snd] in Hst.
  rewrite Hfree in Hst. discriminate.
Qed.

Section Growth_trigger.

Hypothesis calloc_32_pairs : calloc_ok 32 sizeof_pair = true.
Hypothesis calloc_32_states : calloc_ok 32 1 = true.

Lemma insert_each_run (keys : list entry) :
  forall s : hset,
    accounted type s -> capacity s = 16 ->
    size s + Z.of_nat (length keys) <= 13 ->
    distinct_keys type eq_fn keys ->
    (forall e e', live type s e -> In e' keys ->
       eq_fn (val e) (val_size e) (val e') (val_size e') = false) ->
    exists steps,
      insert_each type zero hash_fn eq_fn sizeof_pair calloc_ok s keys = Ok steps /\
      length steps = length keys /\
      forall (i : nat) before ret after,
        steps !! i = Some (before, ret, after) ->
        ret = true /\ size before = size s + Z.of_nat i /\ capacity before = 16 /\
        capacity after = if load_factor_exceeded type before then 32 else 16.
Proof.
  induction keys as [| e keys IH]; intros s Hacc Hcap Hlen Hdist Hfresh.
  - exists []. split; [reflexivity |]. split; [reflexivity |].
    intros i before ret after Hi. destruct i; discriminate.
  - destruct Hdist as [Hhead Hdist]. cbn [length] in Hlen.
    destruct (insert_fresh s (val e) (val_size e) Hacc)
      as (s' & E & Hacc' & Hsz' & Hlive');
      [rewrite Hcap; lia | rewrite Hcap; assumption | rewrite Hcap; assumption
      | intros e0 He0; apply Hfresh; [assumption | left; reflexivity] |].
    pose proof (insert_capacity s _ _ _ _ E) as Hcap'. rewrite Hcap in Hcap'.
    change (size_t (16 * 2)) with 32 in Hcap'.
    cbn [insert_each]. rewrite E. cbn [bind fst snd].
    destruct (load_factor_exceeded type s) eqn:Hload.
    + (* the last key: the table grows *)
      apply (load_factor_at_16 s Hcap) in Hload as Hsz.
      destruct keys as [| e2 keys]; [| cbn [length] in Hlen; lia].
      cbn [insert_each bind]. exists [(s, true, s')].
      split; [reflexivity |]. split; [reflexivity |].
      intros i before ret after Hi. destruct i as [| i]; [| destruct i; discriminate].
      injection Hi as <- <- <-. rewrite Hload. repeat split; try assumption; lia.
    + specialize (Hsz' eq_refl).
      destruct (IH s' Hacc' Hcap') as (steps & Esteps & Hlen' & Hsteps);
        [lia | assumption | |].
      { intros e0 e' He0 Hin. destruct (Hlive' e0 He0) as [Hold | ->].
        - apply Hfresh; [assumption | right; assumption].
        - apply (Hhead e' Hin). }
      rewrite Esteps. cbn [bind]. exists ((s, true, s') :: steps).
      split; [reflexivity |]. split; [cbn [length]; lia |].
      intros i before ret after Hi. destruct i as [| i].
      * injection Hi as <- <- <-. rewrite Hload. repeat split; try assumption; lia.
      * destruct (Hsteps i before ret after Hi) as (Hret & Hsize & Hc & Hafter).
        repeat split; try assumption; lia.
Qed.

(** C8. Load-factor growth trigger. From a freshly initialised set
    (capacity 16), a run of [insert] over 13 keys, no two of them equal for
    [eq_fn], runs to its end with every call returning true; the call
    number [i] (from 0) starts from a set of size [i] and capacity 16; the
    load factor is exceeded on entry of the last call only (12 / 16 > 0.7),
    which is the one call that doubles the capacity; every call of
    [insert], on any set, changes the capacity exactly when the load
    factor is exceeded on entry, to twice its value; and the capacity
    after the run is 32, a power of two above 16. *)
Theorem load_factor_growth_trigger (keys : list entry) :
  calloc_ok HASHSET_INITIAL_CAPACITY sizeof_pair = true ->
  calloc_ok HASHSET_INITIAL_CAPACITY 1 = true ->
  length keys = 13%nat -> distinct_keys type eq_fn keys ->
  exists steps,
    insert_each type zero hash_fn eq_fn sizeof_pair calloc_ok (snd init) keys
      = Ok steps /\
    length steps = 13%nat /\
    (forall (i : nat) before ret after,
       steps !! i = Some (before, ret, after) ->
       ret = true /\ size before = Z.of_nat i /\ capacity before = 16 /\
       (load_factor_exceeded type before = true <-> i = 12%nat) /\
       capacity after =
         (if load_factor_exceeded type before then capacity before * 2
          else capacity before)) /\
    (exists before ret after,
       steps !! 12%nat = Some (before, ret, after) /\
       capacity after = 2 ^ 5 /\ HASHSET_INITIAL_CAPACITY < capacity after) /\
    (forall (s : hset) k l ret s',
       insert s k l = Ok (ret, s') ->
       capacity s' =
         if load_factor_exceeded type s then size_t (capacity s * 2) else capacity s).
Proof.
  intros H1 H2 Hlen Hdist.
  destruct (insert_each_run keys (snd init)) as (steps & E & Hlen' & Hsteps).
  - apply accounted_init; assumption.
  - reflexivity.
  - rewrite Hlen. cbn. lia.
  - assumption.
  - intros e e' He. exfalso. eapply init_no_live; eassumption.
  - assert (Hstep : forall (i : nat) before ret after,
      steps !! i = Some (before, ret, after) ->
      ret = true /\ size before = Z.of_nat i /\ capacity before = 16 /\
      (load_factor_exceeded type before = true <-> i = 12%nat) /\
      capacity after =
        (if load_factor_exceeded type before then capacity before * 2
         else capacity before)).
    { intros i before ret after Hi.
      destruct (Hsteps i before ret after Hi) as (Hret & Hsize & Hc & Hafter).
      cbn in Hsize. pose proof (lookup_lt_Some _ _ _ Hi) as Hlt.
      rewrite Hc. split; [assumption |]. split; [assumption |]. split; [reflexivity |].
      split; [| destruct (load_factor_exceeded type before); assumption].
      rewrite (load_factor_at_16 before Hc). lia. }
    exists steps. split; [assumption |]. split; [congruence |].
    split; [assumption |]. split; [| apply insert_capacity].
    destruct (lookup_lt_is_Some_2 steps 12%nat) as [[[before ret] after] Hi]; [lia |].
    exists before, ret, after. split; [assumption |].
    destruct (Hstep _ _ _ _ Hi) as (_ & _ & Hc & [_ Hload] & Hafter).
    rewrite Hload, Hc in Hafter by reflexivity.
    rewrite Hafter. unfold HASHSET_INITIAL_CAPACITY. split; [reflexivity | lia].
Qed.

End Growth_trigger.

(** *** Runs *)

Lemma run_reachable (calls : list (call type)) :
  forall s s' : hset,
    reach s ->
    run type zero hash_fn eq_fn sizeof_pair calloc_ok s calls = Ok s' ->
    reach s'.
Proof.
  induction calls as [| [k l | k l] calls IH]; intros s s' Hreach; cbn [run].
  - intros [= <-]. assumption.
  - destruct (insert s k l) as [[ret s1] |] eqn:E; cbn [bind snd]; [| discriminate].
    apply IH. eapply reachable_insert; eassumption.
  - destruct (remove s k l) as [[ret s1] |] eqn:E; cbn [bind snd]; [| discriminate].
    apply IH. eapply reachable_remove; eassumption.
Qed.

(** *** A table with every slot used *)

(** C4. Full-table behaviour. On a set in shape whose every slot is used
    and holds a key that [eq_fn] tells apart from the key, and whose
    [size] field does not make [insert] grow the table, the probe goes
    once round the table and [find_slot] returns the capacity; [insert],
    [contains] and [remove] then index the state array with it, one cell
    past its end, instead of returning a failure. *)
Theorem full_table_sentinel_indexes_past_end (s : hset) k l :
  shape type s -> full s k l ->
  find_slot s k l = Ok (capacity s) /\
  load (state s) (capacity s) = Fault OutOfBounds /\
  (load_factor_exceeded type s = false -> insert s k l = Fault OutOfBounds) /\
  contains s k l = Fault OutOfBounds /\
  remove s k l = Fault OutOfBounds.
Proof.
  intros Hs Hfull.
  split.
  { destruct (find_slot_spec s k l Hs) as [(r & _ & Hr) | [E _]]; [| assumption].
    exfalso. eapply stops_not_full; eassumption. }
  split; [apply shape_load_capacity; assumption |].
  split; [intros Hload; apply insert_full; assumption |].
  split; [apply contains_full | apply remove_full]; assumption.
Qed.

(** *** [init] and [destroy] *)

(** C6. Init failure propagation. [init] returns -1 for a NULL set
    pointer only; for any other pointer it returns 0 whatever the two
    calls of [HASHSET_CALLOC] returned, and an array whose allocation
    failed is left NULL in the set. *)
Theorem init_returns_0_whatever_calloc_returns (p : option hset) :
  set_init_at type zero sizeof_pair calloc_ok p =
    match p with
    | None => (-1, None)
    | Some _ =>
        (0, Some {| data := if calloc_ok 16 sizeof_pair
                            then Some (replicate 16 (zero_pair type zero)) else None;
                    state := if calloc_ok 16 1 then Some (replicate 16 0) else None;
                    size := 0; capacity := 16 |})
    end.
Proof. destruct p; reflexivity. Qed.

(** C9. Destroy is idempotent. After a call of [destroy] both array
    pointers are NULL and size and capacity are 0; the call freed exactly
    the arrays that were not NULL; a second call leaves the set as it is
    and calls [HASHSET_FREE] on nothing. *)
Theorem destroy_idempotent (s : hset) :
  let s1 := fst (set_destroy type s) in
  data s1 = None /\ state s1 = None /\ size s1 = 0 /\ capacity s1 = 0 /\
  snd (set_destroy type s) =
    match data s with Some _ => [FreedData] | None => [] end ++
    match state s with Some _ => [FreedState] | None => [] end /\
  set_destroy type s1 = (s1, []) /\
  set_destroy_at type (Some s1) = (Some s1, []).
Proof.
  unfold set_destroy_at, set_destroy. cbn.
  destruct (data s), (state s); repeat split; reflexivity.
Qed.

End Properties.

(** ** The u32 set of example.c *)

Lemma eq_u32_refl a la : eq_u32 a la a la = true.
Proof. apply Z.eqb_refl. Qed.

Lemma eq_u32_sym a la b lb : eq_u32 a la b lb = true -> eq_u32 b lb a la = true.
Proof. unfold eq_u32. rewrite !Z.eqb_eq. auto. Qed.

Lemma eq_u32_trans a la b lb c lc :
  eq_u32 a la b lb = true -> eq_u32 b lb c lc = true -> eq_u32 a la c lc = true.
Proof. unfold eq_u32. rewrite !Z.eqb_eq. congruence. Qed.

Lemma calloc_upto_2_32_limit nmemb sz :
  calloc_upto_2_32 nmemb sz = true -> nmemb <= 2 ^ 32.
Proof.
  unfold calloc_upto_2_32. intros H. apply andb_true_iff in H.
  destruct H as [_ H]. apply Z.leb_le in H. exact H.
Qed.

Lemma u32_init_reachable : u32_reachable (snd u32_set_init).
Proof. apply reachable_init; discriminate. Qed.

Lemma u32_run_reachable calls s :
  u32_run (snd u32_set_init) calls = Ok s -> u32_reachable s.
Proof. apply run_reachable, u32_init_reachable. Qed.

(** The scenario of [main] in example.c: every assertion holds. *)
Example example_main :
  fst u32_set_init = 0 /\
  exists s1 s2 s3,
    u32_set_insert (snd u32_set_init) 42 0 = Ok (true, s1) /\
    u32_set_insert s1 1337 0 = Ok (true, s2) /\
    u32_set_contains s2 42 0 = Ok true /\
    u32_set_contains s2 1337 0 = Ok true /\
    u32_set_remove s2 42 0 = Ok (true, s3) /\
    u32_set_contains s3 42 0 = Ok false /\
    u32_set_contains s3 1337 0 = Ok true /\ size s3 = 1 /\
    snd (u32_set_destroy s3) = [FreedData; FreedState].
Proof.
  split; [reflexivity |]. do 3 eexists.
  repeat (split; [vm_compute; reflexivity |]). vm_compute. reflexivity.
Qed.

Lemma u32_loaded_run : u32_run (snd u32_set_init) u32_loaded_calls = Ok u32_loaded.
Proof. vm_compute. reflexivity. Qed.

Lemma u32_loaded_reachable : u32_reachable u32_loaded.
Proof. exact (u32_run_reachable _ _ u32_loaded_run). Qed.

Lemma u32_loaded_shape : shape Z u32_loaded.
Proof.
  eexists _, _, 4. repeat split; try reflexivity; lia.
Qed.

(** [init] without memory: with a [HASHSET_CALLOC] that returns NULL,
    [u32_set_init] returns 0, both arrays of the set are NULL, and the
    first [insert] dereferences NULL. *)
Example u32_init_without_memory :
  let r := set_init Z 0 8 (fun _ _ => false) in
  fst r = 0 /\ data (snd r) = None /\ state (snd r) = None /\
  set_insert Z 0 hashset_hash_int32 eq_u32 8 (fun _ _ => false) (snd r) 42 0
    = Fault NullDeref.
Proof. repeat split. Qed.

(** *** Keys that collide, and a tombstone between them

    The keys 1 and 5 both start their probe at slot 13 of a table of 16. *)

Example keys_1_and_5_collide :
  home Z hashset_hash_int32 (snd u32_set_init) 1 0 = 13 /\
  home Z hashset_hash_int32 (snd u32_set_init) 5 0 = 13.
Proof. split; reflexivity. Qed.

Ltac slot_below_16 i H :=
  let Hi := fresh "Hi" in
  assert (Hi : i = 0 \/ i = 1 \/ i = 2 \/ i = 3 \/ i = 4 \/ i = 5 \/ i = 6 \/ i = 7 \/
               i = 8 \/ i = 9 \/ i = 10 \/ i = 11 \/ i = 12 \/ i = 13 \/ i = 14 \/
               i = 15) by lia;
  clear H;
  repeat (destruct Hi as [Hi | Hi]; [subst i |]); [.. | subst i].

(** C1. No duplicates. After [insert] of 1, a first [insert] of 5
    returns true; [remove] of 1, a key other than 5, follows; no call
    resizes; and a second [insert] of 5 returns true again and adds one to
    [size], where a set would return false and leave [size] as it is. *)
Theorem second_insert_after_remove_of_collider_succeeds :
  exists s1 s2 s3 s4 : u32_set,
    u32_run (snd u32_set_init) [u32_insert 1] = Ok s1 /\
    u32_reachable s1 /\
    u32_set_insert s1 5 0 = Ok (true, s2) /\
    eq_u32 1 0 5 0 = false /\
    u32_set_remove s2 1 0 = Ok (true, s3) /\
    load_factor_exceeded Z s1 = false /\ load_factor_exceeded Z s3 = false /\
    u32_set_insert s3 5 0 = Ok (true, s4) /\
    size s4 = size s3 + 1 /\
    capacity s1 = 16 /\ capacity s2 = 16 /\ capacity s3 = 16 /\ capacity s4 = 16.
Proof.
  do 4 eexists. split; [vm_compute; reflexivity |].
  split; [apply (u32_run_reachable [u32_insert 1]); vm_compute; reflexivity |].
  repeat (split; [vm_compute; reflexivity |]). vm_compute. reflexivity.
Qed.

(** C2. Uniqueness invariant. The run [insert 1; insert 5; remove 1;
    insert 5] from [init] leaves a reachable set in which slots 13 and 14
    are both used and both hold the key 5. *)
Theorem key_5_held_by_two_used_slots :
  exists s : u32_set,
    u32_run (snd u32_set_init)
      [u32_insert 1; u32_insert 5; u32_remove 1; u32_insert 5] = Ok s /\
    u32_reachable s /\
    load (state s) 13 = Ok 1 /\ load (data s) 13 = Ok (u32_key 5) /\
    load (state s) 14 = Ok 1 /\ load (data s) 14 = Ok (u32_key 5) /\
    eq_u32 (val (u32_key 5)) (val_size (u32_key 5))
           (val (u32_key 5)) (val_size (u32_key 5)) = true /\
    live Z s (u32_key 5) /\ size s = 2.
Proof.
  eexists. split; [vm_compute; reflexivity |].
  split.
  { apply (u32_run_reachable [u32_insert 1; u32_insert 5; u32_remove 1; u32_insert 5]).
    vm_compute. reflexivity. }
  repeat (split; [vm_compute; reflexivity |]).
  split; [| vm_compute; reflexivity].
  exists 13. split; vm_compute; reflexivity.
Qed.

(** C3. Size accounting. The run [insert 1; insert 5; remove 1] from
    [init] leaves a reachable set whose [size] is 1 while [contains] is true
    of no key at all: the key 5 sits in a used slot, behind the tombstone
    of 1 at which its probe stops. *)
Theorem size_1_and_contains_true_of_no_key :
  exists s : u32_set,
    u32_run (snd u32_set_init) [u32_insert 1; u32_insert 5; u32_remove 1] = Ok s /\
    u32_reachable s /\
    size s = 1 /\ live Z s (u32_key 5) /\
    forall k l, u32_set_contains s k l = Ok false.
Proof.
  eexists. split; [vm_compute; reflexivity |].
  split.
  { apply (u32_run_reachable [u32_insert 1; u32_insert 5; u32_remove 1]).
    vm_compute. reflexivity. }
  split; [reflexivity |].
  split; [exists 14; split; vm_compute; reflexivity |].
  intros k l. destruct (Z.eq_dec k 5) as [-> | Hne].
  - vm_compute. reflexivity.
  - apply absent_not_member.
    + eexists _, _, 4. repeat split; try reflexivity; lia.
    + vm_compute. reflexivity.
    + intros e (i & Hst & Hdt).
      pose proof (load_inv _ _ _ Hst) as (t & [= <-] & Hi & _).
      cbn [length] in Hi.
      slot_below_16 i Hi; vm_compute in Hst; try discriminate.
      vm_compute in Hdt. injection Hdt as <-.
      unfold eq_u32. cbn [val]. apply Z.eqb_neq. congruence.
Qed.

(** C10. A failed insert is not atomic. The set that twelve inserts, a
    remove and one more insert leave is reachable, holds a tombstone and
    has 12 entries for 16 slots; on it [insert] of the key 1, which it
    holds, returns false and leaves a different set: the capacity has
    doubled, the entries have moved and the tombstone is gone. *)
Theorem failed_insert_changes_the_set :
  exists (s s' : u32_set) (t t' : list Z),
    u32_run (snd u32_set_init) u32_loaded_calls = Ok s /\
    u32_reachable s /\
    u32_set_contains s 1 0 = Ok true /\
    load_factor_exceeded Z s = true /\
    u32_set_insert s 1 0 = Ok (false, s') /\
    s' <> s /\
    capacity s = 16 /\ capacity s' = 32 /\ size s = 12 /\ size s' = 12 /\
    state s = Some t /\ In 2 t /\ state s' = Some t' /\ ~ In 2 t' /\
    data s' <> data s.
Proof.
  exists u32_loaded. do 3 eexists.
  split; [exact u32_loaded_run |].
  split; [exact u32_loaded_reachable |].
  do 3 (split; [vm_compute; reflexivity |]).
  split; [intros E; apply (f_equal capacity) in E; vm_compute in E; discriminate |].
  do 5 (split; [vm_compute; reflexivity |]).
  split; [vm_compute; repeat (first [left; reflexivity | right]) |].
  split; [vm_compute; reflexivity |].
  split; [| intros E; vm_compute in E; discriminate].
  vm_compute. intros H.
  repeat (destruct H as [H | H]; [discriminate |]). exact H.
Qed.

(** C7. Resize and removed keys. The calls [insert 1; insert 5;
    remove 1; insert 5; remove 5] on a freshly initialised set all return
    true. In the set they leave the key 5 has been removed and [contains]
    does not find it, while the second copy of it, which the second
    [insert] of 5 made, is still in a used slot behind the tombstone of
    the first. [resize] to 32, a larger power of two, moves the entry of
    every used slot: it returns 0, leaves no slot in state 2, and
    [contains] finds the removed key 5 again. The growth inside [insert]
    does the same: after eleven inserts of other keys [contains] still
    does not find 5 and the load factor is exceeded; the next [insert],
    of the key 20, doubles the capacity, and [contains] finds 5. *)
Theorem resize_finds_removed_key_again :
  exists s1 s2 s3 s4 s5 s' s6 s7 : u32_set,
    u32_set_insert (snd u32_set_init) 1 0 = Ok (true, s1) /\
    u32_set_insert s1 5 0 = Ok (true, s2) /\
    u32_set_remove s2 1 0 = Ok (true, s3) /\
    u32_set_insert s3 5 0 = Ok (true, s4) /\
    u32_set_remove s4 5 0 = Ok (true, s5) /\
    u32_reachable s5 /\
    u32_set_contains s5 5 0 = Ok false /\
    live Z s5 (u32_key 5) /\
    capacity s5 = 16 /\
    u32_set_resize s5 32 = Ok (0, s') /\
    capacity s' = 32 /\
    no_tombstone Z s' /\
    u32_set_contains s' 5 0 = Ok true /\
    u32_run s5 (map u32_insert [2; 3; 4; 6; 7; 8; 9; 10; 11; 12; 14]) = Ok s6 /\
    u32_reachable s6 /\
    u32_set_contains s6 5 0 = Ok false /\
    load_factor_exceeded Z s6 = true /\
    u32_set_insert s6 20 0 = Ok (true, s7) /\
    capacity s7 = 32 /\
    u32_set_contains s7 5 0 = Ok true.
Proof.
  do 8 eexists.
  do 5 (split; [vm_compute; reflexivity |]).
  split.
  { apply (u32_run_reachable
             [u32_insert 1; u32_insert 5; u32_remove 1; u32_insert 5; u32_remove 5]).
    vm_compute. reflexivity. }
  split; [vm_compute; reflexivity |].
  split; [exists 14; split; vm_compute; reflexivity |].
  split; [vm_compute; reflexivity |].
  split; [vm_compute; reflexivity |].
  split; [vm_compute; reflexivity |].
  split.
  { intros i Hi.
    pose proof (load_inv _ _ _ Hi) as (t & Ht & Hr & _).
    vm_compute in Ht. injection Ht as <-.
    cbn [length] in Hr.
    assert (Hcases :
      i = 0 \/ i = 1 \/ i = 2 \/ i = 3 \/ i = 4 \/ i = 5 \/ i = 6 \/ i = 7 \/
      i = 8 \/ i = 9 \/ i = 10 \/ i = 11 \/ i = 12 \/ i = 13 \/ i = 14 \/ i = 15 \/
      i = 16 \/ i = 17 \/ i = 18 \/ i = 19 \/ i = 20 \/ i = 21 \/ i = 22 \/ i = 23 \/
      i = 24 \/ i = 25 \/ i = 26 \/ i = 27 \/ i = 28 \/ i = 29 \/ i = 30 \/ i = 31)
      by lia.
    repeat (destruct Hcases as [-> | Hcases]; [vm_compute in Hi; discriminate |]).
    subst i. vm_compute in Hi. discriminate. }
  split; [vm_compute; reflexivity |].
  split; [vm_compute; reflexivity |].
  split.
  { apply (u32_run_reachable
             ([u32_insert 1; u32_insert 5; u32_remove 1; u32_insert 5; u32_remove 5]
              ++ map u32_insert [2; 3; 4; 6; 7; 8; 9; 10; 11; 12; 14])).
    vm_compute. reflexivity. }
  do 3 (split; [vm_compute; reflexivity |]).
  split; vm_compute; reflexivity.
Qed.

(** *** A full table *)

Lemma u32_full_table_shape : shape Z u32_full_table.
Proof.
  eexists _, _, 4. repeat split; try reflexivity; lia.
Qed.

Lemma u32_full_table_full : probe_full Z eq_u32 u32_full_table 7 0.
Proof.
  intros i Hi. change (capacity u32_full_table) with 16 in Hi.
  slot_below_16 i Hi; reflexivity.
Qed.

Lemma full_table_sentinel_indexes_past_end_witness :
  shape Z u32_full_table /\ probe_full Z eq_u32 u32_full_table 7 0 /\
  load_factor_exceeded Z u32_full_table = false /\
  u32_set_find_slot u32_full_table 7 0 = Ok 16 /\
  u32_set_insert u32_full_table 7 0 = Fault OutOfBounds /\
  u32_set_contains u32_full_table 7 0 = Fault OutOfBounds /\
  u32_set_remove u32_full_table 7 0 = Fault OutOfBounds.
Proof.
  split; [exact u32_full_table_shape |].
  split; [exact u32_full_table_full |].
  split; [reflexivity |].
  destruct (full_table_sentinel_indexes_past_end
              0 hashset_hash_int32 eq_u32 8 calloc_upto_2_32 u32_full_table 7 0
              u32_full_table_shape u32_full_table_full)
    as (Hfind & _ & Hinsert & Hcontains & Hremove).
  split; [exact Hfind |].
  split; [exact (Hinsert eq_refl) |].
  split; [exact Hcontains | exact Hremove].
Defined.

(** The functions themselves build a full table when [resize] is called
    with the number of entries: after eight inserts and [resize] to 8 every
    slot is used. [contains] and [remove] of a key that is not in the set
    then index one cell past the end of the state array, and [insert] of
    it grows the table and returns true. *)
Example full_table_by_resize :
  exists s8 s s' : u32_set,
    u32_run (snd u32_set_init) (map u32_insert [0; 1; 2; 3; 4; 5; 6; 7]) = Ok s8 /\
    u32_set_resize s8 8 = Ok (0, s) /\
    state s = Some (replicate 8 1) /\ size s = 8 /\ capacity s = 8 /\
    u32_set_find_slot s 8 0 = Ok 8 /\
    u32_set_contains s 8 0 = Fault OutOfBounds /\
    u32_set_remove s 8 0 = Fault OutOfBounds /\
    u32_set_insert s 8 0 = Ok (true, s') /\ capacity s' = 16.
Proof.
  do 3 eexists. repeat (split; [vm_compute; reflexivity |]). reflexivity.
Qed.

(** *** The general properties at the u32 set *)

Lemma insert_contains_remove_round_trip_witness :
  u32_reachable u32_loaded /\
  load_factor_exceeded Z u32_loaded = true /\
  (forall b s', u32_set_insert u32_loaded 42 0 = Ok (b, s') ->
                u32_set_contains s' 42 0 = Ok true) /\
  (exists b s', u32_set_insert u32_loaded 42 0 = Ok (b, s')) /\
  (exists b s', u32_set_remove u32_loaded 42 0 = Ok (b, s') /\
                u32_set_contains s' 42 0 = Ok false) /\
  u32_set_contains u32_loaded 1 0 = Ok true /\
  (exists b s', u32_set_remove u32_loaded 1 0 = Ok (b, s') /\
                u32_set_contains s' 1 0 = Ok false).
Proof.
  split; [exact u32_loaded_reachable |]. split; [reflexivity |].
  destruct (insert_contains_remove_round_trip
              0 hashset_hash_int32 eq_u32 8 calloc_upto_2_32
              eq_u32_refl calloc_upto_2_32_limit
              u32_loaded 42 0 u32_loaded_reachable)
    as (Hinsert & Hreturns & Hremove).
  split; [exact Hinsert |].
  split; [apply Hreturns; intros _; vm_compute; repeat split; discriminate |].
  split; [exact Hremove |].
  split; [reflexivity |].
  exact (proj2 (proj2 (insert_contains_remove_round_trip
                         0 hashset_hash_int32 eq_u32 8 calloc_upto_2_32
                         eq_u32_refl calloc_upto_2_32_limit
                         u32_loaded 1 0 u32_loaded_reachable))).
Defined.

Lemma resize_preserves_membership_witness :
  shape Z u32_loaded /\ capacity u32_loaded < 32 /\
  load_factor_exceeded Z u32_loaded = true /\
  exists s',
    u32_set_resize u32_loaded 32 = Ok (0, s') /\ capacity s' = 32 /\
    (forall e, live Z u32_loaded e -> u32_set_contains s' (val e) (val_size e) = Ok true) /\
    (forall k l,
       (forall e, live Z u32_loaded e -> eq_u32 (val e) (val_size e) k l = false) ->
       u32_set_contains s' k l = Ok false) /\
    no_tombstone Z s' /\
    (forall k l, u32_set_insert u32_loaded k l = u32_set_insert s' k l) /\
    exists ret s'',
      u32_set_insert u32_loaded 42 0 = Ok (ret, s'') /\ capacity s'' = 32 /\
      u32_set_contains s'' 42 0 = Ok true /\
      (forall e, live Z u32_loaded e ->
                 u32_set_contains s'' (val e) (val_size e) = Ok true) /\
      no_tombstone Z s''.
Proof.
  split; [exact u32_loaded_shape |]. split; [reflexivity |]. split; [reflexivity |].
  destruct (resize_preserves_membership
              0 hashset_hash_int32 eq_u32 8 calloc_upto_2_32
              eq_u32_refl eq_u32_sym eq_u32_trans
              u32_loaded 5 32 u32_loaded_shape
              ltac:(lia) eq_refl eq_refl eq_refl eq_refl)
    as (s' & Hres & Hcap & Hmem & Habs & Hclean & Hins).
  exists s'. do 5 (split; [assumption |]).
  specialize (Hins eq_refl eq_refl).
  split; [intros k l; apply Hins |].
  destruct (Hins 42 0) as (_ & Hfinal).
  destruct (Hfinal eq_refl) as (ret & s'' & E & Hcap'' & Hself & Hmem'' & _ & Hclean'').
  exists ret, s''. auto.
Defined.

Lemma load_factor_growth_trigger_witness :
  let keys := map u32_key [1; 2; 3; 4; 5; 6; 7; 8; 9; 10; 11; 12; 13] in
  length keys = 13%nat /\ distinct_keys Z eq_u32 keys /\
  exists steps,
    insert_each Z 0 hashset_hash_int32 eq_u32 8 calloc_upto_2_32
      (snd u32_set_init) keys = Ok steps /\
    length steps = 13%nat /\
    (forall (i : nat) before ret after,
       steps !! i = Some (before, ret, after) ->
       ret = true /\ size before = Z.of_nat i /\ capacity before = 16 /\
       (load_factor_exceeded Z before = true <-> i = 12%nat) /\
       capacity after =
         (if load_factor_exceeded Z before then capacity before * 2
          else capacity before)) /\
    (exists before ret after,
       steps !! 12%nat = Some (before, ret, after) /\ capacity after = 32).
Proof.
  intros keys.
  assert (Hdist : distinct_keys Z eq_u32 keys).
  { unfold keys. cbn -[eq_u32].
    repeat split;
      repeat match goal with
             | H : _ \/ _ |- _ => destruct H as [<- | H]; [reflexivity |]
             | H : False |- _ => destruct H
             end. }
  split; [reflexivity |]. split; [exact Hdist |].
  destruct (load_factor_growth_trigger
              0 hashset_hash_int32 eq_u32 8 calloc_upto_2_32 eq_refl eq_refl
              keys eq_refl eq_refl eq_refl Hdist)
    as (steps & E & Hlen & Hsteps & (before & ret & after & H12 & Hcap & _) & _).
  exists steps. do 3 (split; [assumption |]).
  exists before, ret, after. split; [assumption |]. exact Hcap.
Defined.

(** ** Further properties of the generated functions *)

Section Further_properties.

Context {type : Type}.
Variable zero : type.
Variable hash_fn : type -> Z -> Z.
Variable eq_fn : type -> Z -> type -> Z -> bool.
Variable sizeof_pair : Z.
Variable calloc_ok : Z -> Z -> bool.

#[local] Abbreviation hset := (hashset type).
#[local] Abbreviation entry := (size_pair type).
#[local] Abbreviation find_slot := (set_find_slot type hash_fn eq_fn).
#[local] Abbreviation continues := (slot_continues type eq_fn).
#[local] Abbreviation stops := (probe_stops type hash_fn eq_fn).
#[local] Abbreviation full := (probe_full type eq_fn).
#[local] Abbreviation home_of := (home type hash_fn).
#[local] Abbreviation resize := (set_resize type zero hash_fn eq_fn sizeof_pair calloc_ok).
#[local] Abbreviation insert := (set_insert type zero hash_fn eq_fn sizeof_pair calloc_ok).
#[local] Abbreviation contains := (set_contains type hash_fn eq_fn).
#[local] Abbreviation remove := (set_remove type hash_fn eq_fn).
#[local] Abbreviation init := (set_init type zero sizeof_pair calloc_ok).
#[local] Abbreviation reach := (reachable type zero hash_fn eq_fn sizeof_pair calloc_ok).
#[local] Abbreviation run_calls := (run type zero hash_fn eq_fn sizeof_pair calloc_ok).

(** *** The probe *)

(** X1. On a set in shape [find_slot] returns. What it returns is the
    first slot, counted from the home slot of the key and round the table,
    that is not used or holds a key equal to the probed one, every slot
    before it being used by another key; or it is the capacity, and then
    every slot of the table is used by another key. *)
Theorem find_slot_first_stop (s : hset) k l :
  shape type s ->
  exists r, find_slot s k l = Ok r /\
    ((0 <= r < capacity s /\ continues s k l r = false /\
      exists m, 0 <= m < capacity s /\
        r = (hash_fn k l mod capacity s + m) mod capacity s /\
        forall j, 0 <= j < m ->
          continues s k l ((hash_fn k l mod capacity s + j) mod capacity s) = true)
     \/ (r = capacity s /\
         forall i, 0 <= i < capacity s -> continues s k l i = true)).
Proof.
  intros Hs. destruct (find_slot_spec hash_fn eq_fn s k l Hs) as [(r & E & Hr) | [E Hfull]].
  - exists r. split; [assumption |]. left.
    split; [eapply stops_range; eassumption |].
    split; [eapply stops_continues; eassumption |].
    destruct Hr as (m & Hm & Hrm & _ & Hpre). exists m. auto.
  - exists (capacity s). split; [assumption |]. right. split; [reflexivity | exact Hfull].
Qed.

(** X2. Whatever the arrays of the set, when the capacity is not negative
    [find_slot] returns no negative index: the tests [idx < 0] and
    [slot < 0] of its callers never hold. *)
Theorem find_slot_never_negative (s : hset) k l r :
  0 <= capacity s -> set_find_slot type hash_fn eq_fn s k l = Ok r -> (r <? 0) = false.
Proof.
  intros Hc E. apply Z.ltb_ge. eapply find_slot_nonneg; eassumption.
Qed.

Lemma pow2_at_least_16 a : 0 <= a -> 16 <= 2 ^ a -> 4 <= a.
Proof.
  intros Ha H. destruct (Z_lt_le_dec a 4) as [Hlt | Hge]; [| assumption].
  assert (2 ^ a <= 2 ^ 3) by (apply Z.pow_le_mono_r; lia).
  change (2 ^ 3) with 8 in *. lia.
Qed.

Section Reachable_sets.

Hypothesis calloc_limit : forall nmemb sz, calloc_ok nmemb sz = true -> nmemb <= 2 ^ 32.

(** X3. The invariant of the sets that [init], [insert] and [remove]
    produce: both arrays are allocated with [capacity] cells, the capacity
    is a power of two from 16 to [2^32], and the number of used slots is
    at most [size], which is below the capacity. *)
Theorem reachable_invariant (s : hset) :
  reach s ->
  exists d t a,
    data s = Some d /\ state s = Some t /\
    Z.of_nat (length d) = capacity s /\ Z.of_nat (length t) = capacity s /\
    4 <= a <= 32 /\ capacity s = 2 ^ a /\
    0 <= count_used t <= size s /\ size s < capacity s.
Proof.
  intros Hreach. pose proof (reachable_accounted _ _ _ _ _ calloc_limit s Hreach) as Hacc.
  destruct (accounted_room s Hacc) as (Hroom & Hsz & Hlt & Hmax).
  destruct Hacc as ((d & t & a & Hd & Ht & Ha & Hc & Ld & Lt) & Hcap & Hused & _).
  exists d, t, a. unfold used_slots in Hused. rewrite Ht in Hused.
  pose proof (count_used_bounds t).
  assert (4 <= a).
  { apply pow2_at_least_16; [lia |]. rewrite <- Hc. exact Hcap. }
  repeat split; try assumption; lia.
Qed.

(** X4. With a [HASHSET_CALLOC] that hands out at most [2^32] cells, on a
    reachable set the probe of every key stops inside the table:
    [find_slot] returns an index below the capacity, never its value for a
    full table, and [contains] returns whether that slot is used. *)
Theorem reachable_probe_stops_in_table (s : hset) k l :
  reach s ->
  exists r, find_slot s k l = Ok r /\ 0 <= r < capacity s /\
    continues s k l r = false /\
    contains s k l = Ok (slot_used type s r).
Proof.
  intros Hreach. pose proof (reachable_accounted _ _ _ _ _ calloc_limit s Hreach) as Hacc.
  destruct (accounted_room s Hacc) as (Hroom & _). destruct Hacc as (Hs & _).
  destruct (room_stops hash_fn eq_fn s k l Hs Hroom) as [r Hr].
  exists r. split; [apply find_slot_stops; assumption |].
  split; [eapply stops_range; eassumption |].
  split; [eapply stops_continues; eassumption |].
  apply contains_stops; assumption.
Qed.

End Reachable_sets.

(** *** [contains] *)

(** X5. [contains] is sound: on a set in shape it returns true only when
    a used slot holds an entry that [eq_fn] finds equal to the key. *)
Theorem contains_true_has_used_slot (s : hset) k l :
  shape type s -> contains s k l = Ok true ->
  exists i e, 0 <= i < capacity s /\
    load (state s) i = Ok 1 /\ load (data s) i = Ok e /\
    eq_fn (val e) (val_size e) k l = true.
Proof.
  intros Hs E. destruct (contains_true_inv hash_fn eq_fn s k l Hs E) as (r & Hr & Hu).
  pose proof (stops_range _ _ s k l r Hr) as Hrange.
  destruct (stop_used_eq eq_fn s k l r Hs Hrange (stops_continues _ _ s k l r Hr) Hu)
    as (e & He & Heq).
  exists r, e. split; [assumption |]. split; [apply slot_used_load; assumption | auto].
Qed.

(** X6. A freshly initialised set is empty: when [init] gets its two
    arrays it returns 0 and leaves a set of size 0 and capacity 16 on
    which [contains] is false of every key and [remove] of every key
    returns false and changes nothing. *)
Theorem init_gives_empty_set k l :
  calloc_ok HASHSET_INITIAL_CAPACITY sizeof_pair = true ->
  calloc_ok HASHSET_INITIAL_CAPACITY 1 = true ->
  fst init = 0 /\ size (snd init) = 0 /\ capacity (snd init) = 16 /\
  contains (snd init) k l = Ok false /\
  remove (snd init) k l = Ok (false, snd init).
Proof.
  intros H1 H2. pose proof (accounted_init zero sizeof_pair calloc_ok H1 H2) as Hacc.
  destruct (accounted_room _ Hacc) as (Hroom & _). pose proof Hacc as (Hs & _).
  assert (Hc : contains (snd init) k l = Ok false).
  { apply absent_not_member; [assumption | assumption |].
    intros e He. exfalso.
    exact (init_no_live zero hash_fn eq_fn sizeof_pair calloc_ok H1 H2 e He). }
  do 3 (split; [reflexivity |]). split; [exact Hc |].
  destruct (contains_inv hash_fn eq_fn _ k l false Hs Hc) as (r & Hr & Hu).
  rewrite (remove_stops hash_fn eq_fn _ k l r Hs Hr), <- Hu. reflexivity.
Qed.

(** *** [remove] and [insert], key present or not *)

(** X7. [remove] of a key that [contains] does not find returns false and
    leaves the set as it is. *)
Theorem remove_of_absent_key (s : hset) k l :
  shape type s -> contains s k l = Ok false -> remove s k l = Ok (false, s).
Proof.
  intros Hs E. destruct (contains_inv hash_fn eq_fn s k l false Hs E) as (r & Hr & Hu).
  rewrite (remove_stops hash_fn eq_fn s k l r Hs Hr), <- Hu. reflexivity.
Qed.

(** X10. Without growth, [insert] of a key that [contains] finds returns
    false and leaves the set as it is. *)
Theorem insert_of_present_key (s : hset) k l :
  shape type s -> load_factor_exceeded type s = false ->
  contains s k l = Ok true -> insert s k l = Ok (false, s).
Proof.
  intros Hs Hload E.
  destruct (contains_inv hash_fn eq_fn s k l true Hs E) as (r & Hr & Hu).
  rewrite (insert_stops zero hash_fn eq_fn sizeof_pair calloc_ok s k l r Hs Hload Hr), <- Hu.
  reflexivity.
Qed.

Lemma load_factor_after_remove (s : hset) r :
  accounted type s -> 0 <= r < capacity s -> slot_used type s r = true ->
  load_factor_exceeded type (mark_deleted type s r) = false.
Proof.
  intros Hacc Hr Hu.
  destruct (accounted_mark_deleted s r Hacc Hr Hu) as (Hacc' & Esz).
  destruct (accounted_room _ Hacc') as (_ & _ & Hlt' & Hmax').
  destruct Hacc' as (Hs' & _).
  destruct Hacc as (_ & _ & _ & Hbound).
  rewrite load_factor_exceeded_shape by (assumption || lia).
  rewrite Esz. cbn [capacity mark_deleted].
  apply Z.ltb_ge. unfold HASHSET_MAX_LOAD_FACTOR_den in *.
  change (2 ^ 53) with 9007199254740992 in *. lia.
Qed.

Section Reachable_sets_calls.

Hypothesis calloc_limit : forall nmemb sz, calloc_ok nmemb sz = true -> nmemb <= 2 ^ 32.

(** X8. On a reachable set, [remove] of a key that [contains] finds
    returns true; it turns the slot that [find_slot] returns from used to
    deleted and takes one from [size]; the entries, the other slots and
    the capacity stay as they are. *)
Theorem remove_of_present_key (s : hset) k l :
  reach s -> contains s k l = Ok true ->
  exists r s', find_slot s k l = Ok r /\ remove s k l = Ok (true, s') /\
    load (state s) r = Ok 1 /\
    (forall j, load (state s') j = if j =? r then Ok 2 else load (state s) j) /\
    data s' = data s /\ capacity s' = capacity s /\ size s' = size s - 1 /\
    used_slots type s' = used_slots type s - 1.
Proof.
  intros Hreach E.
  pose proof (reachable_accounted _ _ _ _ _ calloc_limit s Hreach) as Hacc.
  pose proof Hacc as (Hs & _).
  destruct (contains_inv hash_fn eq_fn s k l true Hs E) as (r & Hr & Hu). symmetry in Hu.
  pose proof (stops_range _ _ s k l r Hr) as Hrange.
  exists r, (mark_deleted type s r).
  split; [apply find_slot_stops; assumption |].
  split; [rewrite (remove_stops hash_fn eq_fn s k l r Hs Hr), Hu; reflexivity |].
  split; [apply slot_used_load; assumption |].
  split; [intros j; apply load_state_mark_deleted; assumption |].
  split; [reflexivity |]. split; [reflexivity |].
  split; [apply accounted_mark_deleted; assumption |].
  apply used_slots_mark_deleted; assumption.
Qed.

(** X9. [remove] adds no member: on a reachable set, a key that
    [contains] does not find before a call of [remove], of whatever key, is
    not found after it. *)
Theorem remove_adds_no_member (s : hset) k l b s' k' l' :
  reach s -> set_remove type hash_fn eq_fn s k l = Ok (b, s') ->
  set_contains type hash_fn eq_fn s k' l' = Ok false ->
  set_contains type hash_fn eq_fn s' k' l' = Ok false.
Proof.
  intros Hreach E Habs.
  pose proof (reachable_accounted _ _ _ _ _ calloc_limit s Hreach) as Hacc.
  pose proof Hacc as (Hs & _).
  destruct (remove_accounted hash_fn eq_fn s k l Hacc) as (r & Hr & E' & Hacc').
  pose proof (stops_range _ _ s k l r Hr) as Hrange.
  rewrite E in E'. destruct (slot_used type s r) eqn:Hu; injection E' as -> ->;
    [| assumption].
  pose proof Hacc' as (Hs' & _). destruct (accounted_room _ Hacc') as (Hroom' & _).
  destruct (room_stops hash_fn eq_fn _ k' l' Hs' Hroom') as [r' Hr'].
  rewrite (contains_stops hash_fn eq_fn _ k' l' r' Hs' Hr').
  destruct (slot_used type (mark_deleted type s r) r') eqn:Hu'; [| reflexivity].
  exfalso.
  assert (Hne : r' <> r).
  { intros ->. unfold slot_used in Hu'.
    rewrite load_state_mark_deleted, Z.eqb_refl in Hu' by assumption. discriminate. }
  assert (Hold : slot_used type s r' = true).
  { unfold slot_used in *. rewrite load_state_mark_deleted in Hu' by assumption.
    destruct (r' =? r) eqn:Er; [apply Z.eqb_eq in Er; contradiction | exact Hu']. }
  assert (Hstop : stops s k' l' r').
  { apply (stops_congr hash_fn eq_fn (mark_deleted type s r)); [reflexivity | assumption | |].
    - pose proof (stops_continues _ _ _ k' l' r' Hr') as Hc.
      rewrite continues_mark_deleted in Hc by assumption.
      destruct (r' =? r) eqn:Er; [apply Z.eqb_eq in Er; contradiction | exact Hc].
    - intros j Hj. rewrite continues_mark_deleted in Hj by assumption.
      destruct (j =? r); [discriminate | exact Hj]. }
  rewrite (contains_stops hash_fn eq_fn s k' l' r' Hs Hstop), Hold in Habs. discriminate.
Qed.

(** X11. Without growth, on a reachable set, [insert] of a key that
    [contains] does not find returns true; it writes the key and its
    length tag into the slot that [find_slot] returns, which was empty or
    deleted, marks it used and adds one to [size]; the other slots and the
    capacity stay as they are. *)
Theorem insert_of_absent_key (s : hset) k l :
  reach s -> load_factor_exceeded type s = false ->
  contains s k l = Ok false ->
  exists r s', find_slot s k l = Ok r /\ insert s k l = Ok (true, s') /\
    load (state s) r <> Ok 1 /\
    (forall j, load (state s') j = if j =? r then Ok 1 else load (state s) j) /\
    (forall j, load (data s') j =
       if j =? r then Ok {| val := k; val_size := l |} else load (data s) j) /\
    capacity s' = capacity s /\ size s' = size s + 1 /\
    used_slots type s' = used_slots type s + 1.
Proof.
  intros Hreach Hload E.
  pose proof (reachable_accounted _ _ _ _ _ calloc_limit s Hreach) as Hacc.
  pose proof Hacc as (Hs & _).
  destruct (contains_inv hash_fn eq_fn s k l false Hs E) as (r & Hr & Hu). symmetry in Hu.
  pose proof (stops_range _ _ s k l r Hr) as Hrange.
  exists r, (put type s r {| val := k; val_size := l |}).
  split; [apply find_slot_stops; assumption |].
  split.
  { rewrite (insert_stops zero hash_fn eq_fn sizeof_pair calloc_ok s k l r Hs Hload Hr), Hu.
    reflexivity. }
  split; [intros H; apply slot_used_load in H; congruence |].
  split; [intros j; apply load_state_put; assumption |].
  split; [intros j; apply load_data_put; assumption |].
  split; [reflexivity |].
  split; [apply accounted_put; assumption |].
  rewrite used_slots_put, Hu by assumption. reflexivity.
Qed.

Hypothesis eq_fn_refl : forall a la, eq_fn a la a la = true.

(** X12. Remove, then insert. On a reachable set, [remove] of a key that
    [contains] finds followed by [insert] of the same key: both return
    true, the key goes back into the slot it was in, and the states of the
    slots, [size] and the capacity are what they were before the two
    calls; [contains] finds the key again. *)
Theorem remove_then_insert_restores (s : hset) k l :
  reach s -> contains s k l = Ok true ->
  exists r s1 s2, find_slot s k l = Ok r /\
    remove s k l = Ok (true, s1) /\ insert s1 k l = Ok (true, s2) /\
    state s2 = state s /\ size s2 = size s /\ capacity s2 = capacity s /\
    (forall j, load (data s2) j =
       if j =? r then Ok {| val := k; val_size := l |} else load (data s) j) /\
    contains s2 k l = Ok true.
Proof.
  intros Hreach E.
  pose proof (reachable_accounted _ _ _ _ _ calloc_limit s Hreach) as Hacc.
  pose proof Hacc as (Hs & _).
  destruct (contains_inv hash_fn eq_fn s k l true Hs E) as (r & Hr & Hu). symmetry in Hu.
  pose proof (stops_range _ _ s k l r Hr) as Hrange.
  destruct (accounted_mark_deleted s r Hacc Hrange Hu) as (Hacc1 & Esz1).
  pose proof (shape_mark_deleted s r Hs) as Hs1.
  pose proof (stops_mark_deleted hash_fn eq_fn s k l r Hs Hr) as Hr1.
  pose proof (load_factor_after_remove s r Hacc Hrange Hu) as Hload1.
  assert (Hu1 : slot_used type (mark_deleted type s r) r = false).
  { unfold slot_used. rewrite load_state_mark_deleted, Z.eqb_refl by assumption.
    reflexivity. }
  destruct (accounted_put (mark_deleted type s r) r {| val := k; val_size := l |}
              Hacc1 Hload1 Hrange Hu1) as (_ & Esz2).
  exists r, (mark_deleted type s r),
    (put type (mark_deleted type s r) r {| val := k; val_size := l |}).
  split; [apply find_slot_stops; assumption |].
  split; [rewrite (remove_stops hash_fn eq_fn s k l r Hs Hr), Hu; reflexivity |].
  split.
  { rewrite (insert_stops zero hash_fn eq_fn sizeof_pair calloc_ok _ k l r Hs1 Hload1 Hr1), Hu1.
    reflexivity. }
  split.
  { destruct Hs as (d & t & a & Hd & Ht & Ha & Hc & Ld & Lt).
    destruct (slot_used_lookup s t r Ht) as (y & Hy & Ey); [lia |].
    rewrite Hu in Ey. symmetry in Ey. apply Z.eqb_eq in Ey. subst y.
    cbn. rewrite Ht. cbn. f_equal.
    rewrite list_insert_insert_eq. apply list_insert_id. exact Hy. }
  split; [rewrite Esz2, Esz1; lia |].
  split; [reflexivity |].
  split.
  { intros j. rewrite load_data_put by assumption. reflexivity. }
  apply contains_put_self; assumption.
Qed.

End Reachable_sets_calls.

(** *** Members across [insert] *)

Section Members.

Hypothesis calloc_limit : forall nmemb sz, calloc_ok nmemb sz = true -> nmemb <= 2 ^ 32.
Hypothesis eq_fn_refl : forall a la, eq_fn a la a la = true.
Hypothesis eq_fn_sym : forall a la b lb, eq_fn a la b lb = true -> eq_fn b lb a la = true.
Hypothesis eq_fn_trans : forall a la b lb c lc,
  eq_fn a la b lb = true -> eq_fn b lb c lc = true -> eq_fn a la c lc = true.
(** Keys that [eq_fn] finds equal have the same hash. *)
Hypothesis hash_fn_eq : forall a la b lb,
  eq_fn a la b lb = true -> hash_fn a la = hash_fn b lb.

Lemma continues_eq_key (s : hset) a la b lb j :
  eq_fn a la b lb = true -> continues s a la j = continues s b lb j.
Proof.
  intros Heq. unfold slot_continues.
  destruct (load (state s) j) as [st |]; [| reflexivity].
  destruct (st =? 1); [| reflexivity].
  destruct (load (data s) j) as [e |]; [| reflexivity]. f_equal.
  destruct (eq_fn (val e) (val_size e) a la) eqn:Ea,
           (eq_fn (val e) (val_size e) b lb) eqn:Eb; try reflexivity.
  - rewrite (eq_fn_trans _ _ _ _ _ _ Ea Heq) in Eb. discriminate.
  - rewrite (eq_fn_trans _ _ _ _ _ _ Eb (eq_fn_sym _ _ _ _ Heq)) in Ea. discriminate.
Qed.

Lemma stops_eq_key (s : hset) a la b lb r :
  eq_fn a la b lb = true -> stops s a la r -> stops s b lb r.
Proof.
  intros Heq (m & Hm & Hr & Hstop & Hpre). exists m. unfold home in *.
  rewrite <- (hash_fn_eq _ _ _ _ Heq).
  split; [assumption |]. split; [assumption |].
  split; [rewrite <- (continues_eq_key s a la b lb r Heq); assumption |].
  intros j Hj. rewrite <- (continues_eq_key s a la b lb _ Heq). apply Hpre, Hj.
Qed.

Lemma contains_eq_key (s : hset) a la b lb :
  shape type s -> eq_fn a la b lb = true ->
  contains s a la = Ok true -> contains s b lb = Ok true.
Proof.
  intros Hs Heq E.
  destruct (contains_true_inv hash_fn eq_fn s a la Hs E) as (r & Hr & Hu).
  rewrite (contains_stops hash_fn eq_fn s b lb r Hs (stops_eq_key s a la b lb r Heq Hr)), Hu.
  reflexivity.
Qed.

Lemma grown_members (s s1 : hset) k l :
  accounted type s ->
  grown type zero hash_fn eq_fn sizeof_pair calloc_ok s s1 ->
  shape type s1 ->
  capacity s * 2 <= 2 ^ 32 ->
  calloc_ok (capacity s * 2) sizeof_pair = true ->
  calloc_ok (capacity s * 2) 1 = true ->
  contains s k l = Ok true -> contains s1 k l = Ok true.
Proof.
  intros Hacc [[_ ->] | [Hload E]] Hs1 Hmax H1 H2 Hmem; [assumption |].
  destruct (accounted_room s Hacc) as (_ & _ & _ & _).
  destruct Hacc as (Hs & Hcap & _).
  pose proof Hs as (d & t & a & Hd & Ht & Ha & Hc & Ld & Lt).
  assert (Ha1 : 0 <= a + 1 <= 32).
  { destruct (Z.eq_dec a 32) as [-> | Hne]; [| lia].
    rewrite Hc in Hmax. change (2 ^ 32) with 4294967296 in Hmax. lia. }
  assert (Hnew : capacity s * 2 = 2 ^ (a + 1)).
  { rewrite Z.pow_add_r, Hc by lia. lia. }
  rewrite size_t_small in E by (unfold HASHSET_INITIAL_CAPACITY in Hcap; lia).
  destruct (resize_members zero hash_fn eq_fn sizeof_pair calloc_ok
              eq_fn_refl eq_fn_sym eq_fn_trans s (a + 1) (capacity s * 2)
              Hs Ha1 Hnew ltac:(lia) H1 H2) as (s1' & E' & Hmem1).
  rewrite E in E'. injection E' as <-.
  destruct (member_live hash_fn eq_fn s k l Hs Hmem) as (e & He & Heq).
  apply (contains_eq_key s1 (val e) (val_size e)); [assumption | assumption |].
  apply Hmem1, He.
Qed.

Lemma insert_then_member (s : hset) k l b s' :
  reach s -> insert s k l = Ok (b, s') -> contains s' k l = Ok true.
Proof.
  intros Hreach E.
  pose proof (reachable_accounted _ _ _ _ _ calloc_limit s Hreach) as Hacc.
  destruct (insert_accounted zero hash_fn eq_fn sizeof_pair calloc_ok s k l Hacc
              (insert_memory _ _ _ _ _ calloc_limit s k l b s' Hacc E))
    as (s1 & r & _ & (Hs1 & _) & _ & Hr & E' & _).
  rewrite E in E'. destruct (slot_used type s1 r) eqn:Hu; injection E' as -> ->.
  - rewrite (contains_stops hash_fn eq_fn s1 k l r Hs1 Hr), Hu. reflexivity.
  - apply contains_put_self; assumption.
Qed.

Lemma insert_keeps_member (s : hset) k l b s' k' l' :
  reach s -> insert s k l = Ok (b, s') ->
  contains s k' l' = Ok true -> contains s' k' l' = Ok true.
Proof.
  intros Hreach E Hmem.
  pose proof (reachable_accounted _ _ _ _ _ calloc_limit s Hreach) as Hacc.
  pose proof (insert_memory _ _ _ _ _ calloc_limit s k l b s' Hacc E) as Hmemory.
  destruct (insert_accounted zero hash_fn eq_fn sizeof_pair calloc_ok s k l Hacc Hmemory)
    as (s1 & r & Hg & (Hs1 & _) & _ & Hr & E' & _).
  assert (Hmem1 : contains s1 k' l' = Ok true).
  { destruct Hg as [[_ ->] | [Hload Hres]]; [assumption |].
    destruct (Hmemory Hload) as (Hmax & H1 & H2).
    apply (grown_members s s1 k' l' Hacc); try assumption. right. auto. }
  rewrite E in E'. destruct (slot_used type s1 r) eqn:Hu; injection E' as -> ->;
    [assumption |].
  apply contains_put_other; assumption.
Qed.

(** X13. [insert] loses no member: on a reachable set, for [eq_fn] an
    equivalence that [hash_fn] respects, a key that [contains] finds before
    a call of [insert], of whatever key and with or without growth, is
    found after it; and [insert] of a key that [contains] finds returns
    false. *)
Theorem insert_loses_no_member (s : hset) k l b s' :
  reach s -> insert s k l = Ok (b, s') ->
  (forall k' l', set_contains type hash_fn eq_fn s k' l' = Ok true ->
                 set_contains type hash_fn eq_fn s' k' l' = Ok true) /\
  (set_contains type hash_fn eq_fn s k l = Ok true -> b = false).
Proof.
  intros Hreach E. split.
  - intros k' l'. apply (insert_keeps_member s k l b s'); assumption.
  - intros Hmem.
    pose proof (reachable_accounted _ _ _ _ _ calloc_limit s Hreach) as Hacc.
    pose proof (insert_memory _ _ _ _ _ calloc_limit s k l b s' Hacc E) as Hmemory.
    destruct (insert_accounted zero hash_fn eq_fn sizeof_pair calloc_ok s k l Hacc Hmemory)
      as (s1 & r & Hg & (Hs1 & _) & _ & Hr & E' & _).
    assert (Hmem1 : contains s1 k l = Ok true).
    { destruct Hg as [[_ ->] | [Hload Hres]]; [assumption |].
      destruct (Hmemory Hload) as (Hmax & H1 & H2).
      apply (grown_members s s1 k l Hacc); try assumption. right. auto. }
    rewrite (contains_stops hash_fn eq_fn s1 k l r Hs1 Hr) in Hmem1.
    injection Hmem1 as Hu. rewrite E, Hu in E'. congruence.
Qed.

(** X14. A set that is only inserted into is right: when a run of calls
    of [insert] from a reachable set runs to its end, [contains] finds
    every key of the run, and every key it found before the run. *)
Theorem inserted_keys_are_members (keys : list entry) :
  forall s s' : hset,
    reach s ->
    run_calls s (map (fun e => Insert type (val e) (val_size e)) keys) = Ok s' ->
    (forall e, In e keys ->
       set_contains type hash_fn eq_fn s' (val e) (val_size e) = Ok true) /\
    (forall k l, set_contains type hash_fn eq_fn s k l = Ok true ->
                 set_contains type hash_fn eq_fn s' k l = Ok true).
Proof.
  induction keys as [| e keys IH]; intros s s' Hreach; cbn [map run].
  - intros [= <-]. split; [intros e [] | auto].
  - destruct (insert s (val e) (val_size e)) as [[b s1] |] eqn:E; cbn [bind snd];
      [| discriminate].
    intros Hrun.
    assert (Hreach1 : reach s1) by (eapply reachable_insert; eassumption).
    destruct (IH s1 s' Hreach1 Hrun) as [Hkeys Hold]. split.
    + intros e' [<- | Hin]; [| apply Hkeys, Hin].
      apply Hold. apply (insert_then_member s _ _ b); assumption.
    + intros k l Hmem. apply Hold.
      apply (insert_keeps_member s (val e) (val_size e) b); assumption.
Qed.

End Members.

(** *** [resize]: the count of entries, and a failed allocation *)

Lemma count_used_app (t1 t2 : list Z) :
  count_used (t1 ++ t2) = count_used t1 + count_used t2.
Proof.
  induction t1 as [| st t1 IH]; cbn [app count_used]; [lia |]. rewrite IH. lia.
Qed.

(** X15. [resize] counts the entries anew: on a set in shape, a call to
    a power of two not below the capacity, with its memory, returns 0 and
    sets [size] to the number of used slots of the old table, whatever
    [size] was; the new table has at most as many used slots. *)
Theorem resize_recounts_size (s : hset) b newcap :
  shape type s -> 0 <= b <= 32 -> newcap = 2 ^ b -> capacity s <= newcap ->
  calloc_ok newcap sizeof_pair = true -> calloc_ok newcap 1 = true ->
  exists s', resize s newcap = Ok (0, s') /\
    size s' = used_slots type s /\ used_slots type s' <= used_slots type s /\
    capacity s' = newcap.
Proof.
  intros Hs Hb Hnew Hle H1 H2.
  destruct (fresh_table zero hash_fn eq_fn sizeof_pair calloc_ok b newcap Hb Hnew H1 H2)
    as (Hs1 & Hu1 & Hfree1 & Hclean1).
  pose proof Hs as (d0 & t0 & a & Hd & Ht & Ha & Hc & Ld & Lt).
  assert (Hus : used_slots type s = count_used t0) by (unfold used_slots; rewrite Ht; reflexivity).
  rewrite Hus. unfold set_resize. rewrite Hd, Ht.
  set (s1 := {| data := _; state := _; size := 0; capacity := newcap |}) in *.
  set (I := fun (i : Z) (s' : hset) => size s' = count_used (take (Z.to_nat i) t0)).
  assert (Hloop : exists s',
    resize_loop type hash_fn eq_fn (Z.to_nat (capacity s)) 0 (Some d0) (Some t0) s1
      = Ok s' /\
    rebuilding type (Z.of_nat (length t0)) (0 + Z.of_nat (Z.to_nat (capacity s))) s' /\
    I (0 + Z.of_nat (Z.to_nat (capacity s))) s' /\
    capacity s' = capacity s1).
  { apply (resize_loop_invariant hash_fn eq_fn I).
    - lia.
    - intros i s2 st Hreb HI Hst Hne. unfold I in *.
      apply load_inv in Hst. destruct Hst as (t' & [= <-] & Hi & Hl).
      replace (Z.to_nat (i + 1)) with (S (Z.to_nat i)) by lia.
      rewrite (take_S_r _ _ _ Hl), count_used_app, <- HI. cbn [count_used].
      rewrite Hne. lia.
    - intros i s2 v r (Hs2 & Hcells & Hused & Hsize) HI Hst Hv Hr. unfold I in *.
      apply load_inv in Hst. destruct Hst as (t' & [= <-] & Hi & Hl).
      replace (Z.to_nat (i + 1)) with (S (Z.to_nat i)) by lia.
      rewrite (take_S_r _ _ _ Hl), count_used_app, <- HI. cbn [count_used size put].
      pose proof (used_slots_bounds s2 Hs2). pose proof (shape_capacity_le s2 Hs2).
      assert (Hfit : 0 <= size s2 + 1 < 2 ^ 32 + 2) by lia.
      rewrite (size_t_small _ Hfit).
      change ((if 1 =? 1 then 1 else 0) + 0) with 1. reflexivity.
    - lia.
    - lia.
    - repeat split; try assumption; cbn [capacity size s1]; lia.
    - reflexivity. }
  destruct Hloop as (s' & E & (Hs' & _ & Hu' & _) & HI & Hc').
  exists s'. rewrite E. cbn [bind]. split; [reflexivity |].
  unfold I in HI. rewrite take_ge in HI by lia.
  split; [exact HI |]. split; [lia | exact Hc'].
Qed.

Lemma resize_loop_without_memory (s1 : hset) (d0 : list entry) (t0 : list Z) :
  state s1 = None \/ data s1 = None -> 0 <= capacity s1 ->
  length d0 = length t0 ->
  forall n i,
    0 <= i -> i + Z.of_nat n = Z.of_nat (length t0) ->
    (count_used (drop (Z.to_nat i) t0) = 0 ->
     resize_loop type hash_fn eq_fn n i (Some d0) (Some t0) s1 = Ok s1) /\
    (0 < count_used (drop (Z.to_nat i) t0) ->
     exists f, resize_loop type hash_fn eq_fn n i (Some d0) (Some t0) s1 = Fault f).
Proof.
  intros Hnull Hc Hlen. induction n as [| n IH]; intros i Hi Hn.
  - rewrite drop_ge by lia. cbn. split; [reflexivity | lia].
  - destruct (load_in_range t0 i) as [st Hst]; [lia |].
    destruct (load_in_range d0 i) as [v Hv]; [lia |].
    pose proof (load_inv _ _ _ Hst) as (t' & [= <-] & _ & Hl).
    rewrite (drop_S _ _ _ Hl). cbn [count_used resize_loop]. rewrite Hst. cbn [bind].
    pose proof (count_used_bounds (drop (S (Z.to_nat i)) t0)) as Hb.
    replace (S (Z.to_nat i)) with (Z.to_nat (i + 1)) in * by lia.
    destruct (st =? 1).
    + split; [lia |]. intros _. rewrite Hv. cbn [bind].
      destruct (find_slot s1 (val v) (val_size v)) as [slot | f] eqn:E; cbn [bind];
        [| eauto].
      pose proof (find_slot_nonneg hash_fn eq_fn s1 _ _ slot Hc E) as Hslot.
      destruct (slot <? 0) eqn:Eneg; [apply Z.ltb_lt in Eneg; lia |].
      destruct Hnull as [Hst0 | Hdt0].
      * rewrite find_slot_null_state in E by assumption. discriminate.
      * rewrite Hdt0. cbn. eauto.
    + cbn [bind]. destruct (IH (i + 1)) as [Hok Hfault]; [lia | lia |].
      split; [intros H; apply Hok; lia | intros H; apply Hfault; lia].
Qed.

(** X16. [resize] without memory. When [HASHSET_CALLOC] returns NULL
    for one of the two arrays, [resize] reports nothing: if the old table
    has no used slot it returns 0 and leaves a set of the new capacity with
    a NULL array; if it has one, moving the first entry runs into
    undefined behaviour. It returns no negative value. *)
Theorem resize_without_memory (s : hset) newcap :
  shape type s -> 0 <= newcap ->
  calloc_ok newcap sizeof_pair = false \/ calloc_ok newcap 1 = false ->
  (used_slots type s = 0 ->
   exists s', resize s newcap = Ok (0, s') /\
     (data s' = None \/ state s' = None) /\ size s' = 0 /\ capacity s' = newcap) /\
  (0 < used_slots type s -> exists f, resize s newcap = Fault f).
Proof.
  intros Hs Hnew Hfail.
  pose proof Hs as (d0 & t0 & a & Hd & Ht & Ha & Hc & Ld & Lt).
  unfold set_resize, used_slots. rewrite Hd, Ht.
  set (s1 := {| data := _; state := _; size := 0; capacity := newcap |}).
  assert (Hnull : state s1 = None \/ data s1 = None).
  { unfold s1, HASHSET_CALLOC. cbn [state data].
    destruct Hfail as [H | H]; rewrite H; auto. }
  destruct (resize_loop_without_memory s1 d0 t0 Hnull Hnew ltac:(lia)
              (Z.to_nat (capacity s)) 0 ltac:(lia) ltac:(lia)) as [Hok Hfault].
  change (Z.to_nat 0) with 0%nat in *. rewrite drop_0 in *.
  split.
  - intros Hnone. exists s1. rewrite (Hok Hnone). cbn [bind].
    split; [reflexivity |]. split; [tauto |]. split; reflexivity.
  - intros Hsome. destruct (Hfault Hsome) as [f E]. exists f. rewrite E. reflexivity.
Qed.

End Further_properties.

(** ** The sample hash of byte strings *)

Lemma ulong_step h c : ulong (ulong h * 33 + c) = ulong (h * 33 + c).
Proof.
  unfold ulong. rewrite <- Z.add_mod_idemp_l by discriminate.
  rewrite Z.mul_mod_idemp_l by discriminate.
  rewrite Z.add_mod_idemp_l by discriminate. reflexivity.
Qed.

Lemma ulong_fold (bytes : list Z) :
  forall h,
    fold_left (fun hash c => ulong (hash * 33 + c)) bytes (ulong h)
    = ulong (fold_left (fun hash c => hash * 33 + c) bytes h).
Proof.
  induction bytes as [| c bytes IH]; intros h; cbn [fold_left]; [reflexivity |].
  rewrite ulong_step. apply IH.
Qed.

Lemma uint_small x : 0 <= x < 2 ^ 32 -> uint x = x.
Proof. intros Hx. unfold uint. apply Z.mod_small. exact Hx. Qed.

Lemma hash_char_loop_run (bytes : list Z) :
  forall pre rest h,
    Z.of_nat (length pre + length bytes) < 2 ^ 32 ->
    hash_char_loop (length bytes) (Z.of_nat (length pre))
      (Some (pre ++ bytes ++ rest)) h
    = Ok (fold_left (fun hash c => ulong (hash * 33 + c)) bytes h).
Proof.
  induction bytes as [| c bytes IH]; intros pre rest h Hlen; [reflexivity |].
  cbn [length hash_char_loop fold_left app].
  assert (Hload : load (Some (pre ++ c :: bytes ++ rest)) (Z.of_nat (length pre)) = Ok c).
  { unfold load. destruct (Z.of_nat (length pre) <? 0) eqn:E; [apply Z.ltb_lt in E; lia |].
    rewrite Nat2Z.id, list_lookup_middle by reflexivity. reflexivity. }
  rewrite Hload. cbn [bind]. cbn [length] in Hlen.
  rewrite uint_small by lia.
  replace (Z.of_nat (length pre) + 1) with (Z.of_nat (length (pre ++ [c])))
    by (rewrite length_app; cbn [length]; lia).
  replace (pre ++ c :: bytes ++ rest) with ((pre ++ [c]) ++ bytes ++ rest)
    by (rewrite <- app_assoc; reflexivity).
  apply IH. rewrite length_app. cbn [length]. lia.
Qed.

(** X17. [hashset_hash_char] reads the first [len] bytes only and
    returns, modulo [2^64], the polynomial
    [5381 * 33^len + bytes[0] * 33^(len-1) + ... + bytes[len-1]]: the
    wrap-around of the intermediate values does not show in the result. *)
Theorem hashset_hash_char_polynomial (bytes rest : list Z) :
  Z.of_nat (length bytes) < 2 ^ 32 ->
  hashset_hash_char (Some (bytes ++ rest)) (Z.of_nat (length bytes))
  = Ok (djb2 bytes mod 2 ^ 64).
Proof.
  intros Hlen. unfold hashset_hash_char, djb2. rewrite Nat2Z.id.
  pose proof (hash_char_loop_run bytes [] rest 5381) as H.
  change (Z.of_nat (@length Z [])) with 0 in H.
  change ([] ++ bytes ++ rest) with (bytes ++ rest) in H.
  change (@length Z [] + length bytes)%nat with (length bytes) in H.
  rewrite H by lia.
  f_equal. apply (ulong_fold bytes 5381).
Qed.

Lemma hash_char_loop_short (bytes : list Z) :
  forall pre h (m : nat),
    Z.of_nat (length pre + length bytes) < 2 ^ 32 ->
    hash_char_loop (length bytes + S m) (Z.of_nat (length pre))
      (Some (pre ++ bytes)) h
    = Fault OutOfBounds.
Proof.
  induction bytes as [| c bytes IH]; intros pre h m Hlen.
  - cbn [length Nat.add hash_char_loop]. rewrite app_nil_r.
    rewrite load_out_of_range by lia. reflexivity.
  - cbn [length Nat.add hash_char_loop].
    assert (Hload : load (Some (pre ++ c :: bytes)) (Z.of_nat (length pre)) = Ok c).
    { unfold load. destruct (Z.of_nat (length pre) <? 0) eqn:E; [apply Z.ltb_lt in E; lia |].
      rewrite Nat2Z.id, list_lookup_middle by reflexivity. reflexivity. }
    rewrite Hload. cbn [bind]. cbn [length] in Hlen.
    rewrite uint_small by lia.
    replace (Z.of_nat (length pre) + 1) with (Z.of_nat (length (pre ++ [c])))
      by (rewrite length_app; cbn [length]; lia).
    replace (pre ++ c :: bytes) with ((pre ++ [c]) ++ bytes)
      by (rewrite <- app_assoc; reflexivity).
    apply IH. rewrite length_app. cbn [length]. lia.
Qed.

(** X18. [hashset_hash_char] trusts [len]: with a buffer of fewer than
    [len] bytes it reads past the end of the buffer, and with a NULL
    buffer and a [len] above 0 it reads through NULL. *)
Theorem hashset_hash_char_short_buffer (bytes : list Z) (len : Z) :
  Z.of_nat (length bytes) < len < 2 ^ 32 ->
  hashset_hash_char (Some bytes) len = Fault OutOfBounds /\
  hashset_hash_char None len = Fault NullDeref.
Proof.
  intros Hlen. unfold hashset_hash_char. split.
  - replace (Z.to_nat len)
      with (length bytes + S (Z.to_nat len - length bytes - 1))%nat by lia.
    pose proof (hash_char_loop_short bytes [] 5381) as H.
    change (Z.of_nat (@length Z [])) with 0 in H.
    change ([] ++ bytes) with bytes in H.
    change (@length Z [] + length bytes)%nat with (length bytes) in H.
    apply H. lia.
  - replace (Z.to_nat len) with (S (Z.to_nat len - 1)) by lia. reflexivity.
Qed.

(** ** [main] of example.c *)

(** X19. [main] returns 0: no assertion fails and no call runs into
    undefined behaviour. *)
Theorem main_returns_0 : main = Returned 0.
Proof. vm_compute. reflexivity. Qed.

(** ** The further properties at the u32 set *)

Lemma hashset_hash_int32_eq a la b lb :
  eq_u32 a la b lb = true -> hashset_hash_int32 a la = hashset_hash_int32 b lb.
Proof. unfold eq_u32. intros H. apply Z.eqb_eq in H. subst b. reflexivity. Qed.

Lemma u32_two_run :
  u32_run (snd u32_set_init) (map (fun e => Insert Z (val e) (val_size e))
                                  [u32_key 42; u32_key 1337]) = Ok u32_two.
Proof. vm_compute. reflexivity. Qed.

Lemma u32_two_reachable : u32_reachable u32_two.
Proof. exact (u32_run_reachable _ _ u32_two_run). Qed.

Lemma u32_two_shape : shape Z u32_two.
Proof. eexists _, _, 4. repeat split; try reflexivity; lia. Qed.

Lemma find_slot_first_stop_witness :
  shape Z u32_loaded /\
  exists r, u32_set_find_slot u32_loaded 42 0 = Ok r /\ 0 <= r <= capacity u32_loaded.
Proof.
  split; [exact u32_loaded_shape |].
  assert (Hcap : capacity u32_loaded = 16) by reflexivity.
  destruct (find_slot_first_stop hashset_hash_int32 eq_u32 u32_loaded 42 0 u32_loaded_shape)
    as (r & E & [(Hr & _) | (Hr & _)]); exists r; (split; [exact E | lia]).
Defined.

Lemma find_slot_never_negative_witness :
  0 <= capacity u32_loaded /\ u32_set_find_slot u32_loaded 42 0 = Ok 0 /\
  (0 <? 0) = false.
Proof.
  assert (Hc : 0 <= capacity u32_loaded) by (vm_compute; discriminate).
  assert (E : u32_set_find_slot u32_loaded 42 0 = Ok 0) by (vm_compute; reflexivity).
  split; [exact Hc |]. split; [exact E |].
  exact (find_slot_never_negative hashset_hash_int32 eq_u32 u32_loaded 42 0 0 Hc E).
Defined.

Lemma reachable_invariant_witness :
  u32_reachable u32_loaded /\
  exists d t a,
    data u32_loaded = Some d /\ state u32_loaded = Some t /\
    Z.of_nat (length d) = capacity u32_loaded /\
    Z.of_nat (length t) = capacity u32_loaded /\
    4 <= a <= 32 /\ capacity u32_loaded = 2 ^ a /\
    0 <= count_used t <= size u32_loaded /\ size u32_loaded < capacity u32_loaded.
Proof.
  split; [exact u32_loaded_reachable |].
  exact (reachable_invariant 0 hashset_hash_int32 eq_u32 8 calloc_upto_2_32
           calloc_upto_2_32_limit u32_loaded u32_loaded_reachable).
Defined.

Lemma reachable_probe_stops_in_table_witness :
  u32_reachable u32_loaded /\
  exists r, u32_set_find_slot u32_loaded 42 0 = Ok r /\ 0 <= r < capacity u32_loaded /\
    slot_continues Z eq_u32 u32_loaded 42 0 r = false /\
    u32_set_contains u32_loaded 42 0 = Ok (slot_used Z u32_loaded r).
Proof.
  split; [exact u32_loaded_reachable |].
  exact (reachable_probe_stops_in_table 0 hashset_hash_int32 eq_u32 8 calloc_upto_2_32
           calloc_upto_2_32_limit u32_loaded 42 0 u32_loaded_reachable).
Defined.

Lemma contains_true_has_used_slot_witness :
  shape Z u32_loaded /\ u32_set_contains u32_loaded 1 0 = Ok true /\
  exists i e, 0 <= i < capacity u32_loaded /\
    load (state u32_loaded) i = Ok 1 /\ load (data u32_loaded) i = Ok e /\
    eq_u32 (val e) (val_size e) 1 0 = true.
Proof.
  assert (E : u32_set_contains u32_loaded 1 0 = Ok true) by (vm_compute; reflexivity).
  split; [exact u32_loaded_shape |]. split; [exact E |].
  exact (contains_true_has_used_slot hashset_hash_int32 eq_u32 u32_loaded 1 0
           u32_loaded_shape E).
Defined.

Lemma init_gives_empty_set_witness :
  calloc_upto_2_32 HASHSET_INITIAL_CAPACITY 8 = true /\
  calloc_upto_2_32 HASHSET_INITIAL_CAPACITY 1 = true /\
  fst u32_set_init = 0 /\ size (snd u32_set_init) = 0 /\
  capacity (snd u32_set_init) = 16 /\
  u32_set_contains (snd u32_set_init) 42 0 = Ok false /\
  u32_set_remove (snd u32_set_init) 42 0 = Ok (false, snd u32_set_init).
Proof.
  split; [reflexivity |]. split; [reflexivity |].
  exact (init_gives_empty_set 0 hashset_hash_int32 eq_u32 8 calloc_upto_2_32 42 0
           eq_refl eq_refl).
Defined.

Lemma remove_of_absent_key_witness :
  shape Z u32_loaded /\ u32_set_contains u32_loaded 42 0 = Ok false /\
  u32_set_remove u32_loaded 42 0 = Ok (false, u32_loaded).
Proof.
  assert (E : u32_set_contains u32_loaded 42 0 = Ok false) by (vm_compute; reflexivity).
  split; [exact u32_loaded_shape |]. split; [exact E |].
  exact (remove_of_absent_key hashset_hash_int32 eq_u32 u32_loaded 42 0 u32_loaded_shape E).
Defined.

Lemma remove_of_present_key_witness :
  u32_reachable u32_loaded /\ u32_set_contains u32_loaded 1 0 = Ok true /\
  exists r s', u32_set_find_slot u32_loaded 1 0 = Ok r /\
    u32_set_remove u32_loaded 1 0 = Ok (true, s') /\
    load (state u32_loaded) r = Ok 1 /\ load (state s') r = Ok 2 /\
    size s' = size u32_loaded - 1.
Proof.
  assert (E : u32_set_contains u32_loaded 1 0 = Ok true) by (vm_compute; reflexivity).
  split; [exact u32_loaded_reachable |]. split; [exact E |].
  destruct (remove_of_present_key 0 hashset_hash_int32 eq_u32 8 calloc_upto_2_32
              calloc_upto_2_32_limit u32_loaded 1 0 u32_loaded_reachable E)
    as (r & s' & Hfind & Hrem & Hused & Hstate & _ & _ & Hsize & _).
  exists r, s'. do 3 (split; [assumption |]). split; [| exact Hsize].
  rewrite Hstate, Z.eqb_refl. reflexivity.
Defined.

Lemma remove_adds_no_member_witness :
  u32_reachable u32_loaded /\ u32_set_contains u32_loaded 42 0 = Ok false /\
  exists s', u32_set_remove u32_loaded 1 0 = Ok (true, s') /\
    u32_set_contains s' 42 0 = Ok false.
Proof.
  assert (E : u32_set_contains u32_loaded 42 0 = Ok false) by (vm_compute; reflexivity).
  split; [exact u32_loaded_reachable |]. split; [exact E |].
  destruct (u32_set_remove u32_loaded 1 0) as [[b s'] | f] eqn:Erem;
    [| vm_compute in Erem; discriminate].
  assert (b = true) by (vm_compute in Erem; congruence). subst b.
  exists s'. split; [reflexivity |].
  exact (remove_adds_no_member 0 hashset_hash_int32 eq_u32 8 calloc_upto_2_32
           calloc_upto_2_32_limit u32_loaded 1 0 true s' 42 0
           u32_loaded_reachable Erem E).
Defined.

Lemma insert_of_present_key_witness :
  shape Z u32_two /\ load_factor_exceeded Z u32_two = false /\
  u32_set_contains u32_two 42 0 = Ok true /\
  u32_set_insert u32_two 42 0 = Ok (false, u32_two).
Proof.
  assert (E : u32_set_contains u32_two 42 0 = Ok true) by (vm_compute; reflexivity).
  split; [exact u32_two_shape |]. split; [reflexivity |]. split; [exact E |].
  exact (insert_of_present_key 0 hashset_hash_int32 eq_u32 8 calloc_upto_2_32
           u32_two 42 0 u32_two_shape eq_refl E).
Defined.

Lemma insert_of_absent_key_witness :
  u32_reachable u32_two /\ load_factor_exceeded Z u32_two = false /\
  u32_set_contains u32_two 7 0 = Ok false /\
  exists r s', u32_set_find_slot u32_two 7 0 = Ok r /\
    u32_set_insert u32_two 7 0 = Ok (true, s') /\
    load (data s') r = Ok (u32_key 7) /\ load (state s') r = Ok 1 /\
    size s' = size u32_two + 1 /\ capacity s' = capacity u32_two.
Proof.
  assert (E : u32_set_contains u32_two 7 0 = Ok false) by (vm_compute; reflexivity).
  split; [exact u32_two_reachable |]. split; [reflexivity |]. split; [exact E |].
  destruct (insert_of_absent_key 0 hashset_hash_int32 eq_u32 8 calloc_upto_2_32
              calloc_upto_2_32_limit u32_two 7 0 u32_two_reachable eq_refl E)
    as (r & s' & Hfind & Hins & _ & Hstate & Hdata & Hcap & Hsize & _).
  exists r, s'. do 2 (split; [assumption |]).
  split; [rewrite Hdata, Z.eqb_refl; reflexivity |].
  split; [rewrite Hstate, Z.eqb_refl; reflexivity |]. auto.
Defined.

Lemma remove_then_insert_restores_witness :
  u32_reachable u32_loaded /\ u32_set_contains u32_loaded 1 0 = Ok true /\
  exists s1 s2,
    u32_set_remove u32_loaded 1 0 = Ok (true, s1) /\
    u32_set_insert s1 1 0 = Ok (true, s2) /\
    state s2 = state u32_loaded /\ size s2 = size u32_loaded /\
    capacity s2 = capacity u32_loaded /\ u32_set_contains s2 1 0 = Ok true.
Proof.
  assert (E : u32_set_contains u32_loaded 1 0 = Ok true) by (vm_compute; reflexivity).
  split; [exact u32_loaded_reachable |]. split; [exact E |].
  destruct (remove_then_insert_restores 0 hashset_hash_int32 eq_u32 8 calloc_upto_2_32
              calloc_upto_2_32_limit eq_u32_refl u32_loaded 1 0 u32_loaded_reachable E)
    as (r & s1 & s2 & _ & Hrem & Hins & Hstate & Hsize & Hcap & _ & Hmem).
  exists s1, s2. auto 10.
Defined.

Lemma insert_loses_no_member_witness :
  u32_reachable u32_loaded /\ load_factor_exceeded Z u32_loaded = true /\
  exists s', u32_set_insert u32_loaded 42 0 = Ok (true, s') /\
    forall k' l', u32_set_contains u32_loaded k' l' = Ok true ->
                  u32_set_contains s' k' l' = Ok true.
Proof.
  split; [exact u32_loaded_reachable |]. split; [reflexivity |].
  destruct (u32_set_insert u32_loaded 42 0) as [[b s'] | f] eqn:Eins;
    [| vm_compute in Eins; discriminate].
  assert (b = true) by (vm_compute in Eins; congruence). subst b.
  exists s'. split; [reflexivity |].
  exact (proj1 (insert_loses_no_member 0 hashset_hash_int32 eq_u32 8 calloc_upto_2_32
                  calloc_upto_2_32_limit eq_u32_refl eq_u32_sym eq_u32_trans
                  hashset_hash_int32_eq u32_loaded 42 0 true s'
                  u32_loaded_reachable Eins)).
Defined.

Lemma inserted_keys_are_members_witness :
  u32_reachable (snd u32_set_init) /\
  u32_run (snd u32_set_init) (map (fun e => Insert Z (val e) (val_size e))
                                  [u32_key 42; u32_key 1337]) = Ok u32_two /\
  forall e, In e [u32_key 42; u32_key 1337] ->
            u32_set_contains u32_two (val e) (val_size e) = Ok true.
Proof.
  split; [exact u32_init_reachable |]. split; [exact u32_two_run |].
  exact (proj1 (inserted_keys_are_members 0 hashset_hash_int32 eq_u32 8 calloc_upto_2_32
                  calloc_upto_2_32_limit eq_u32_refl eq_u32_sym eq_u32_trans
                  hashset_hash_int32_eq [u32_key 42; u32_key 1337]
                  (snd u32_set_init) u32_two u32_init_reachable u32_two_run)).
Defined.

Lemma resize_recounts_size_witness :
  shape Z u32_loaded /\ capacity u32_loaded <= 32 /\
  exists s', u32_set_resize u32_loaded 32 = Ok (0, s') /\
    size s' = used_slots Z u32_loaded /\
    used_slots Z s' <= used_slots Z u32_loaded /\ capacity s' = 32.
Proof.
  split; [exact u32_loaded_shape |]. split; [vm_compute; discriminate |].
  exact (resize_recounts_size 0 hashset_hash_int32 eq_u32 8 calloc_upto_2_32
           u32_loaded 5 32 u32_loaded_shape ltac:(lia) eq_refl
           ltac:(vm_compute; discriminate) eq_refl eq_refl).
Defined.

Lemma resize_without_memory_witness :
  shape Z u32_loaded /\ 0 < used_slots Z u32_loaded /\
  (exists f, set_resize Z 0 hashset_hash_int32 eq_u32 8 (fun _ _ => false)
               u32_loaded 32 = Fault f) /\
  shape Z (snd u32_set_init) /\ used_slots Z (snd u32_set_init) = 0 /\
  (exists s', set_resize Z 0 hashset_hash_int32 eq_u32 8 (fun _ _ => false)
                (snd u32_set_init) 32 = Ok (0, s') /\
     (data s' = None \/ state s' = None) /\ size s' = 0 /\ capacity s' = 32).
Proof.
  assert (Hs0 : shape Z (snd u32_set_init)).
  { eexists _, _, 4. repeat split; try reflexivity; lia. }
  split; [exact u32_loaded_shape |]. split; [reflexivity |].
  split.
  { exact (proj2 (resize_without_memory 0 hashset_hash_int32 eq_u32 8 (fun _ _ => false)
                    u32_loaded 32 u32_loaded_shape ltac:(lia) (or_introl eq_refl))
                 eq_refl). }
  split; [exact Hs0 |]. split; [reflexivity |].
  exact (proj1 (resize_without_memory 0 hashset_hash_int32 eq_u32 8 (fun _ _ => false)
                  (snd u32_set_init) 32 Hs0 ltac:(lia) (or_introl eq_refl))
               eq_refl).
Defined.

Lemma hashset_hash_char_polynomial_witness :
  Z.of_nat (length [104; 105]) < 2 ^ 32 /\
  hashset_hash_char (Some ([104; 105] ++ [0])) 2 = Ok 5863446 /\
  djb2 [104; 105] mod 2 ^ 64 = (5381 * 33 + 104) * 33 + 105.
Proof.
  assert (H : Z.of_nat (length [104; 105]) < 2 ^ 32) by reflexivity.
  split; [exact H |]. split; [| reflexivity].
  exact (hashset_hash_char_polynomial [104; 105] [0] H).
Defined.

Lemma hashset_hash_char_short_buffer_witness :
  Z.of_nat (length [104]) < 2 < 2 ^ 32 /\
  hashset_hash_char (Some [104]) 2 = Fault OutOfBounds /\
  hashset_hash_char None 2 = Fault NullDeref.
Proof.
  assert (H : Z.of_nat (length [104]) < 2 < 2 ^ 32) by (split; reflexivity).
  split; [exact H |]. exact (hashset_hash_char_short_buffer [104] 2 H).
Defined.

(** ** Tables of more than [2^32] cells

    The probe index of [find_slot] is a [hashset_hash_t], 32 bits wide,
    while the mask and the capacity are [size_t]s. In a table of more
    than [2^32] cells the probe therefore starts below [2^32] and goes
    back to 0 after slot [2^32 - 1]. *)

Section Wide_tables.

Context {type : Type}.
Variable zero : type.
Variable hash_fn : type -> Z -> Z.
Variable eq_fn : type -> Z -> type -> Z -> bool.
Variable sizeof_pair : Z.
Variable calloc_ok : Z -> Z -> bool.

#[local] Abbreviation hset := (hashset type).
#[local] Abbreviation find_slot := (set_find_slot type hash_fn eq_fn).
#[local] Abbreviation loop := (find_slot_loop type eq_fn).
#[local] Abbreviation continues := (slot_continues type eq_fn).
#[local] Abbreviation insert := (set_insert type zero hash_fn eq_fn sizeof_pair calloc_ok).
#[local] Abbreviation contains := (set_contains type hash_fn eq_fn).
#[local] Abbreviation remove := (set_remove type hash_fn eq_fn).

Lemma wide_pow2 a : 32 <= a < 64 -> 2 ^ 32 <= 2 ^ a < 2 ^ 64.
Proof.
  intros Ha. split; [apply Z.pow_le_mono_r; lia | apply Z.pow_lt_mono_r; lia].
Qed.

Lemma wide_start a h :
  32 <= a < 64 -> uint (Z.land h (size_t (2 ^ a - 1))) = h mod 2 ^ 32.
Proof.
  intros Ha. pose proof (wide_pow2 a Ha) as Hp.
  assert (Hmask : size_t (2 ^ a - 1) = 2 ^ a - 1).
  { unfold size_t. apply Z.mod_small.
    change (2 ^ 32) with 4294967296 in Hp. lia. }
  rewrite Hmask, land_mask by lia. unfold uint.
  apply Z.mod_mod_divide.
  exists (2 ^ (a - 32)). rewrite <- Z.pow_add_r by lia. f_equal. lia.
Qed.

Lemma wide_step a idx :
  32 <= a < 64 ->
  uint (Z.land (uint (idx + 1)) (size_t (2 ^ a - 1))) = (idx + 1) mod 2 ^ 32.
Proof.
  intros Ha. rewrite wide_start by assumption. unfold uint.
  apply Z.mod_mod. discriminate.
Qed.

Lemma loop_continues (s : hset) k l mask start idx f :
  continues s k l idx = true ->
  loop (S f) s k l mask start idx =
    if uint (Z.land (uint (idx + 1)) mask) =? start then Ok (capacity s)
    else loop f s k l mask start (uint (Z.land (uint (idx + 1)) mask)).
Proof.
  unfold slot_continues. cbn [find_slot_loop].
  destruct (load (state s) idx) as [st |]; [| discriminate]. cbn [bind].
  destruct (st =? 1); [| discriminate].
  destruct (load (data s) idx) as [e |]; [| discriminate]. cbn [bind].
  intros ->. reflexivity.
Qed.

(** With the slots below [2^32] all used by other keys, the probe comes
    back to its start and gives up, whatever the cells from [2^32] on
    hold. *)
Lemma wide_loop (s : hset) k l a start :
  32 <= a < 64 -> 0 <= start < 2 ^ 32 ->
  (forall i, 0 <= i < 2 ^ 32 -> continues s k l i = true) ->
  forall (f : nat) j, 0 <= j < 2 ^ 32 -> 2 ^ 32 - j <= Z.of_nat f ->
    loop f s k l (size_t (2 ^ a - 1)) start ((start + j) mod 2 ^ 32)
    = Ok (capacity s).
Proof.
  intros Ha Hstart Hall f.
  induction f as [| f IH]; intros j Hj Hf; [lia |].
  assert (Hpos : 0 < 2 ^ 32) by reflexivity.
  rewrite loop_continues by (apply Hall, Z.mod_pos_bound, Hpos).
  rewrite wide_step, next_offset by assumption.
  destruct (Z.eqb_spec ((start + (j + 1)) mod 2 ^ 32) start) as [_ | Hne];
    [reflexivity |].
  destruct (Z.eq_dec (j + 1) (2 ^ 32)) as [Hlast | Hmore].
  - exfalso. apply Hne. rewrite Hlast.
    replace (start + 2 ^ 32) with (start + 1 * 2 ^ 32) by lia.
    rewrite Z.mod_add by discriminate. apply Z.mod_small, Hstart.
  - apply IH; lia.
Qed.

Lemma wide_find_slot (s : hset) k l a :
  32 <= a < 64 -> capacity s = 2 ^ a ->
  (forall i, 0 <= i < 2 ^ 32 -> continues s k l i = true) ->
  find_slot s k l = Ok (capacity s).
Proof.
  intros Ha Hc Hall. pose proof (wide_pow2 a Ha) as Hp.
  unfold set_find_slot.
  replace (size_t (capacity s - 1)) with (size_t (2 ^ a - 1)) by (rewrite Hc; reflexivity).
  rewrite wide_start by assumption.
  set (start := hash_fn k l mod 2 ^ 32).
  assert (Hstart : 0 <= start < 2 ^ 32) by (apply Z.mod_pos_bound; reflexivity).
  replace start with ((start + 0) mod 2 ^ 32) at 2
    by (rewrite Z.add_0_r; apply Z.mod_small, Hstart).
  apply (wide_loop s k l a start Ha Hstart Hall); [lia |].
  rewrite Hc. lia.
Qed.

(** The calls on such a table: the index that [find_slot] returns is the
    capacity, and the state array ends one cell before it. *)
Lemma wide_table_calls (s : hset) k l a t :
  32 <= a < 64 -> capacity s = 2 ^ a ->
  state s = Some t -> Z.of_nat (length t) = capacity s ->
  (forall i, 0 <= i < 2 ^ 32 -> continues s k l i = true) ->
  find_slot s k l = Ok (capacity s) /\
  contains s k l = Fault OutOfBounds /\
  remove s k l = Fault OutOfBounds /\
  (load_factor_exceeded type s = false -> insert s k l = Fault OutOfBounds).
Proof.
  intros Ha Hc Ht Hlen Hall.
  pose proof (wide_find_slot s k l a Ha Hc Hall) as Hfind.
  pose proof (wide_pow2 a Ha) as Hp.
  assert (Hload : load (state s) (capacity s) = Fault OutOfBounds).
  { rewrite Ht. apply load_out_of_range. lia. }
  assert (Hneg : (capacity s <? 0) = false) by (apply Z.ltb_ge; lia).
  split; [assumption |].
  split; [unfold set_contains; rewrite Hfind; cbn [bind]; rewrite Hneg, Hload; reflexivity |].
  split; [unfold set_remove; rewrite Hfind; cbn [bind]; rewrite Hload; reflexivity |].
  intros Hlf. unfold set_insert. rewrite Hlf. cbn [bind]. rewrite Hfind. cbn [bind].
  rewrite Hneg, Hload. reflexivity.
Qed.

End Wide_tables.

(** ** The run that fills a table of [2^33] cells *)

Lemma u64_cells_length n cells : (n <= cells)%nat -> length (u64_cells n cells) = cells.
Proof.
  intros H. unfold u64_cells.
  rewrite length_app, length_fmap, length_seq, length_replicate. lia.
Qed.

Lemma u64_states_length n cells : (n <= cells)%nat -> length (u64_states n cells) = cells.
Proof.
  intros H. unfold u64_states. rewrite length_app, !length_replicate. lia.
Qed.

Lemma u64_states_used n cells i : (i < n)%nat -> u64_states n cells !! i = Some 1.
Proof.
  intros H. unfold u64_states.
  rewrite lookup_app_l by (rewrite length_replicate; lia).
  apply lookup_replicate_2. lia.
Qed.

Lemma u64_states_free n cells i : (n <= i < cells)%nat -> u64_states n cells !! i = Some 0.
Proof.
  intros H. unfold u64_states.
  rewrite lookup_app_r by (rewrite length_replicate; lia).
  apply lookup_replicate_2. rewrite length_replicate. lia.
Qed.

Lemma u64_cells_used n cells i :
  (i < n)%nat -> u64_cells n cells !! i = Some (u64_key (Z.of_nat i)).
Proof.
  intros H. unfold u64_cells.
  rewrite lookup_app_l by (rewrite length_fmap, length_seq; lia).
  rewrite list_lookup_fmap, lookup_seq_lt by lia. reflexivity.
Qed.

Lemma u64_states_put n cells :
  (n < cells)%nat -> <[n := 1]> (u64_states n cells) = u64_states (S n) cells.
Proof.
  intros H. unfold u64_states.
  rewrite insert_app_r_alt by (rewrite length_replicate; lia).
  rewrite length_replicate, Nat.sub_diag.
  replace (cells - n)%nat with (S (cells - S n)) by lia.
  rewrite (replicate_S_end n 1), <- app_assoc. reflexivity.
Qed.

Lemma u64_cells_put n cells :
  (n < cells)%nat ->
  <[n := u64_key (Z.of_nat n)]> (u64_cells n cells) = u64_cells (S n) cells.
Proof.
  intros H. unfold u64_cells.
  rewrite insert_app_r_alt by (rewrite length_fmap, length_seq; lia).
  rewrite length_fmap, length_seq, Nat.sub_diag.
  replace (cells - n)%nat with (S (cells - S n)) by lia.
  rewrite (seq_S n 0), fmap_app, <- app_assoc. reflexivity.
Qed.

Lemma u64_pow2_pos a : 0 <= a -> 0 < 2 ^ a.
Proof. intros Ha. apply Z.pow_pos_nonneg; lia. Qed.

Lemma u64_load_state_used n a i :
  (i < n)%nat -> load (state (u64_filled n a)) (Z.of_nat i) = Ok 1.
Proof.
  intros H. unfold load. cbn [state u64_filled].
  destruct (Z.ltb_spec (Z.of_nat i) 0); [lia |].
  rewrite Nat2Z.id, u64_states_used by assumption. reflexivity.
Qed.

Lemma u64_load_state_free n a i :
  (n <= i)%nat -> Z.of_nat i < 2 ^ a ->
  load (state (u64_filled n a)) (Z.of_nat i) = Ok 0.
Proof.
  intros H Hi. unfold load. cbn [state u64_filled].
  destruct (Z.ltb_spec (Z.of_nat i) 0); [lia |].
  rewrite Nat2Z.id, u64_states_free by lia. reflexivity.
Qed.

Lemma u64_load_data_used n a i :
  (i < n)%nat -> load (data (u64_filled n a)) (Z.of_nat i) = Ok (u64_key (Z.of_nat i)).
Proof.
  intros H. unfold load. cbn [data u64_filled].
  destruct (Z.ltb_spec (Z.of_nat i) 0); [lia |].
  rewrite Nat2Z.id, u64_cells_used by assumption. reflexivity.
Qed.

(** The probe of the key [n] starts at slot [n], in a table of [2^33]
    cells too. *)
Lemma u64_start n a :
  4 <= a <= 33 -> 0 <= n < 2 ^ a -> n < 2 ^ 32 ->
  uint (Z.land (hash_u64 n 0) (size_t (2 ^ a - 1))) = n.
Proof.
  intros Ha Hn Hlt.
  assert (Hu : hash_u64 n 0 = n) by (apply Z.mod_small; lia).
  rewrite Hu.
  destruct (Z.le_gt_cases a 32) as [Hsmall | Hwide].
  - rewrite mask_pow2, start_pow2 by lia. apply Z.mod_small. lia.
  - rewrite wide_start by lia. apply Z.mod_small. lia.
Qed.

Lemma u64_find_slot_filled n a :
  4 <= a <= 33 -> Z.of_nat n < 2 ^ a -> Z.of_nat n < 2 ^ 32 ->
  u64_set_find_slot (u64_filled n a) (Z.of_nat n) 0 = Ok (Z.of_nat n).
Proof.
  intros Ha Hn Hlt. unfold u64_set_find_slot, set_find_slot.
  cbn [capacity u64_filled]. rewrite u64_start by lia.
  cbn [find_slot_loop]. rewrite u64_load_state_free by lia. reflexivity.
Qed.

(** The assignments of [insert] and of the loop of [resize] at slot [n]. *)
Lemma u64_store_data n a :
  Z.of_nat n < 2 ^ a ->
  store (data (u64_filled n a)) (Z.of_nat n) (u64_key (Z.of_nat n))
  = Ok (data (u64_filled (S n) a)).
Proof.
  intros Hn. cbn [data u64_filled].
  rewrite store_in_range by (rewrite u64_cells_length; lia).
  rewrite Nat2Z.id, u64_cells_put by lia. reflexivity.
Qed.

Lemma u64_store_state n a :
  Z.of_nat n < 2 ^ a ->
  store (state (u64_filled n a)) (Z.of_nat n) 1 = Ok (state (u64_filled (S n) a)).
Proof.
  intros Hn. cbn [state u64_filled].
  rewrite store_in_range by (rewrite u64_states_length; lia).
  rewrite Nat2Z.id, u64_states_put by lia. reflexivity.
Qed.

Lemma u64_filled_S n a :
  Z.of_nat n < 2 ^ 32 ->
  {| data := data (u64_filled (S n) a); state := state (u64_filled (S n) a);
     size := size_t (size (u64_filled n a) + 1);
     capacity := capacity (u64_filled n a) |}
  = u64_filled (S n) a.
Proof.
  intros Hlt. cbn [data state size capacity u64_filled]. unfold u64_filled.
  f_equal. rewrite size_t_small by lia. lia.
Qed.

Lemma u64_load_factor n a :
  0 <= a <= 53 -> Z.of_nat n < 2 ^ 53 ->
  load_factor_exceeded Z (u64_filled n a)
  = (HASHSET_MAX_LOAD_FACTOR_num * 2 ^ a
       <? Z.of_nat n * HASHSET_MAX_LOAD_FACTOR_den).
Proof.
  intros Ha Hn.
  apply (load_factor_exceeded_pow2 (u64_filled n a) a Ha eq_refl Hn).
Qed.

Lemma u64_insert_filled n a :
  4 <= a <= 33 -> Z.of_nat n < 2 ^ a -> Z.of_nat n < 2 ^ 32 ->
  load_factor_exceeded Z (u64_filled n a) = false ->
  u64_set_insert (u64_filled n a) (Z.of_nat n) 0 = Ok (true, u64_filled (S n) a).
Proof.
  intros Ha Hn Hlt Hlf. unfold u64_set_insert, set_insert.
  rewrite Hlf. cbn [bind].
  change (set_find_slot Z hash_u64 eq_u64) with u64_set_find_slot.
  rewrite u64_find_slot_filled by assumption. cbn [bind].
  destruct (Z.ltb_spec (Z.of_nat n) 0); [lia |].
  rewrite u64_load_state_free by lia. cbn [bind].
  change (0 =? 1) with false. cbv iota.
  change {| val := Z.of_nat n; val_size := 0 |} with (u64_key (Z.of_nat n)).
  rewrite u64_store_data, u64_store_state by assumption. cbn [bind].
  rewrite u64_filled_S by assumption. reflexivity.
Qed.

Lemma u64_filled_0 b :
  u64_filled 0 b
  = {| data := Some (replicate (Z.to_nat (2 ^ b)) (zero_pair Z 0));
       state := Some (replicate (Z.to_nat (2 ^ b)) 0);
       size := 0; capacity := 2 ^ b |}.
Proof.
  unfold u64_filled, u64_cells, u64_states. rewrite Nat.sub_0_r. reflexivity.
Qed.

(** The loop of [resize] moves the keys 0, ..., [n - 1] in this order,
    each one to the slot of its number. *)
Lemma u64_resize_loop n a b :
  Z.of_nat n <= 2 ^ a -> 0 <= a -> 4 <= b <= 33 -> 2 ^ a <= 2 ^ b ->
  Z.of_nat n <= 2 ^ 32 ->
  forall (m i : nat), (i + m = Z.to_nat (2 ^ a))%nat ->
    resize_loop Z hash_u64 eq_u64 m (Z.of_nat i)
      (data (u64_filled n a)) (state (u64_filled n a))
      (u64_filled (Nat.min i n) b)
    = Ok (u64_filled n b).
Proof.
  intros Hn Ha Hb Hab Hmax m.
  pose proof (u64_pow2_pos a Ha) as Hpos.
  induction m as [| m IH]; intros i Him; cbn [resize_loop].
  - rewrite Nat.min_r by lia. reflexivity.
  - assert (Hnext : Z.of_nat i + 1 = Z.of_nat (S i)) by lia.
    destruct (Nat.lt_ge_cases i n) as [Hlt | Hge].
    + rewrite u64_load_state_used by assumption. cbn [bind].
      change (1 =? 1) with true. cbv iota.
      rewrite u64_load_data_used by assumption. cbn [bind val val_size u64_key].
      rewrite Nat.min_l by lia.
      change (set_find_slot Z hash_u64 eq_u64) with u64_set_find_slot.
      rewrite u64_find_slot_filled by lia. cbn [bind].
      destruct (Z.ltb_spec (Z.of_nat i) 0); [lia |].
      change {| val := Z.of_nat i; val_size := 0 |} with (u64_key (Z.of_nat i)).
      rewrite u64_store_data, u64_store_state by lia. cbn [bind].
      rewrite u64_filled_S by lia. rewrite Hnext.
      replace (S i) with (Nat.min (S i) n) at 2 by lia.
      apply IH. lia.
    + rewrite u64_load_state_free by lia. cbn [bind].
      change (0 =? 1) with false. cbv iota. cbn [bind]. rewrite Hnext.
      replace (Nat.min i n) with (Nat.min (S i) n) by lia.
      apply IH. lia.
Qed.

Lemma u64_resize_filled n a :
  4 <= a <= 32 -> Z.of_nat n <= 2 ^ a ->
  u64_set_resize (u64_filled n a) (size_t (capacity (u64_filled n a) * 2))
  = Ok (0, u64_filled n (a + 1)).
Proof.
  intros Ha Hn.
  assert (Hp : 2 ^ a <= 2 ^ 32) by (apply Z.pow_le_mono_r; lia).
  assert (Hnew : size_t (capacity (u64_filled n a) * 2) = 2 ^ (a + 1)).
  { cbn [capacity u64_filled]. rewrite Z.pow_add_r by lia.
    change (2 ^ 1) with 2. unfold size_t. apply Z.mod_small.
    pose proof (u64_pow2_pos a ltac:(lia)).
    change (2 ^ 32) with 4294967296 in Hp. lia. }
  rewrite Hnew. unfold u64_set_resize, set_resize, HASHSET_CALLOC, calloc_always.
  rewrite <- u64_filled_0.
  change (capacity (u64_filled n a)) with (2 ^ a).
  pose proof (u64_resize_loop n a (a + 1) Hn ltac:(lia) ltac:(lia)
                ltac:(apply Z.pow_le_mono_r; lia) ltac:(lia)
                (Z.to_nat (2 ^ a)) 0%nat ltac:(lia)) as Hloop.
  rewrite Nat.min_0_l in Hloop. change (Z.of_nat 0) with 0 in Hloop.
  rewrite Hloop. reflexivity.
Qed.

Lemma u64_run_snoc (calls : list (call Z)) c :
  forall s s1, u64_run s calls = Ok s1 -> u64_run s (calls ++ [c]) = u64_run s1 [c].
Proof.
  unfold u64_run.
  induction calls as [| [k l | k l] calls IH]; intros s s1; cbn [run app].
  - intros [= <-]. reflexivity.
  - destruct (set_insert _ _ _ _ _ _ s k l) as [r |]; cbn [bind]; [apply IH | discriminate].
  - destruct (set_remove _ _ _ s k l) as [r |]; cbn [bind]; [apply IH | discriminate].
Qed.

(** The inserts of the keys 0, ..., [n - 1] into a fresh set, for [n] up
    to [2^32], leave them in the slots of their numbers, in a table of at
    most [2^33] cells that [size] fills to the load factor and one entry
    at most. *)
Lemma u64_inserts_fill n :
  Z.of_nat n <= 2 ^ 32 ->
  exists a, 4 <= a <= 33 /\
    u64_run (snd u64_set_init) (u64_inserts n) = Ok (u64_filled n a) /\
    Z.of_nat n * HASHSET_MAX_LOAD_FACTOR_den
      <= HASHSET_MAX_LOAD_FACTOR_num * 2 ^ a + HASHSET_MAX_LOAD_FACTOR_den.
Proof.
  induction n as [| n IH]; intros Hmax.
  - exists 4. split; [lia |]. split; [reflexivity |]. vm_compute. discriminate.
  - destruct IH as (a & Ha & Hrun & Hbound); [lia |].
    assert (H16 : 2 ^ 4 <= 2 ^ a) by (apply Z.pow_le_mono_r; lia).
    assert (H33 : 2 ^ a <= 2 ^ 33) by (apply Z.pow_le_mono_r; lia).
    change (2 ^ 4) with 16 in H16. change (2 ^ 33) with 8589934592 in H33.
    assert (Hlt : Z.of_nat n < 2 ^ 32) by lia.
    assert (Hn : Z.of_nat n < 2 ^ a).
    { unfold HASHSET_MAX_LOAD_FACTOR_num, HASHSET_MAX_LOAD_FACTOR_den in Hbound.
      change (2 ^ 53) with 9007199254740992 in Hbound. lia. }
    unfold u64_inserts. rewrite (seq_S n 0), fmap_app.
    change ((fun i : nat => Insert Z (Z.of_nat i) 0) <$> seq 0 n) with (u64_inserts n).
    cbn [fmap list_fmap Nat.add].
    rewrite (u64_run_snoc _ _ _ _ Hrun). unfold u64_run. cbn [run].
    change (set_insert Z 0 hash_u64 eq_u64 16 calloc_always) with u64_set_insert.
    destruct (load_factor_exceeded Z (u64_filled n a)) eqn:Hlf.
    + pose proof Hlf as Hlf'.
      rewrite u64_load_factor in Hlf'
        by (change (2 ^ 32) with 4294967296 in Hlt;
            change (2 ^ 53) with 9007199254740992; lia).
      apply Z.ltb_lt in Hlf'.
      unfold HASHSET_MAX_LOAD_FACTOR_num, HASHSET_MAX_LOAD_FACTOR_den in Hlf', Hbound.
      change (2 ^ 53) with 9007199254740992 in Hlf', Hbound.
      change (2 ^ 32) with 4294967296 in Hlt.
      assert (Ha32 : a <= 32).
      { destruct (Z.eq_dec a 33) as [-> | Hne]; [| lia].
        change (2 ^ 33) with 8589934592 in Hlf'. lia. }
      assert (H2 : 2 ^ (a + 1) = 2 * 2 ^ a).
      { rewrite Z.pow_add_r by lia. change (2 ^ 1) with 2. lia. }
      assert (Hlf1 : load_factor_exceeded Z (u64_filled n (a + 1)) = false).
      { rewrite u64_load_factor
          by (change (2 ^ 53) with 9007199254740992; lia).
        apply Z.ltb_ge.
        unfold HASHSET_MAX_LOAD_FACTOR_num, HASHSET_MAX_LOAD_FACTOR_den.
        change (2 ^ 53) with 9007199254740992. lia. }
      exists (a + 1). split; [lia |]. split.
      * unfold u64_set_insert.
        rewrite (insert_resized 0 hash_u64 eq_u64 16 calloc_always
                   (u64_filled n a) (u64_filled n (a + 1)) 0 (Z.of_nat n) 0 Hlf
                   (u64_resize_filled n a ltac:(lia) ltac:(lia)) Hlf1).
        change (set_insert Z 0 hash_u64 eq_u64 16 calloc_always) with u64_set_insert.
        rewrite u64_insert_filled;
          [reflexivity | lia | lia | change (2 ^ 32) with 4294967296; lia | assumption].
      * unfold HASHSET_MAX_LOAD_FACTOR_num, HASHSET_MAX_LOAD_FACTOR_den.
        change (2 ^ 53) with 9007199254740992. lia.
    + pose proof Hlf as Hlf'.
      rewrite u64_load_factor in Hlf'
        by (change (2 ^ 32) with 4294967296 in Hlt;
            change (2 ^ 53) with 9007199254740992; lia).
      apply Z.ltb_ge in Hlf'.
      exists a. split; [lia |]. split.
      * rewrite u64_insert_filled by assumption. reflexivity.
      * unfold HASHSET_MAX_LOAD_FACTOR_num, HASHSET_MAX_LOAD_FACTOR_den in *.
        change (2 ^ 53) with 9007199254740992 in *. lia.
Qed.

Lemma u64_init_reachable : u64_reachable (snd u64_set_init).
Proof. apply reachable_init; discriminate. Qed.

(** The set that the inserts of the keys 0, ..., [2^32 - 1] leave, and
    the calls for the key [2^32] on it. *)
Lemma u64_table_of_2_33_cells n :
  Z.of_nat n = 2 ^ 32 ->
  exists s : u64_set,
    u64_run (snd u64_set_init) (u64_inserts n) = Ok s /\
    u64_reachable s /\
    size s = 2 ^ 32 /\ capacity s = 2 ^ 33 /\
    load_factor_exceeded Z s = false /\
    (forall i, 0 <= i < 2 ^ 32 ->
       load (state s) i = Ok 1 /\ load (data s) i = Ok (u64_key i)) /\
    u64_set_find_slot s (2 ^ 32) 0 = Ok (capacity s) /\
    u64_set_remove s (2 ^ 32) 0 = Fault OutOfBounds /\
    u64_set_contains s (2 ^ 32) 0 = Fault OutOfBounds /\
    u64_set_insert s (2 ^ 32) 0 = Fault OutOfBounds.
Proof.
  intros Hid.
  destruct (u64_inserts_fill n) as (a & Ha & Hrun & Hbound);
    [rewrite Hid; reflexivity |].
  rewrite Hid in Hbound.
  assert (a = 33) as ->.
  { destruct (Z.eq_dec a 33) as [E | Hne]; [assumption |]. exfalso.
    assert (Hp : 2 ^ a <= 2 ^ 32) by (apply Z.pow_le_mono_r; lia).
    unfold HASHSET_MAX_LOAD_FACTOR_num, HASHSET_MAX_LOAD_FACTOR_den in Hbound.
    change (2 ^ 53) with 9007199254740992 in Hbound.
    change (2 ^ 32) with 4294967296 in Hbound, Hp. lia. }
  assert (Hused : forall i, 0 <= i < 2 ^ 32 ->
    load (state (u64_filled n 33)) i = Ok 1 /\
    load (data (u64_filled n 33)) i = Ok (u64_key i)).
  { intros i Hi. rewrite <- (Z2Nat.id i) by lia. split.
    - apply u64_load_state_used. lia.
    - apply u64_load_data_used. lia. }
  assert (Hlf : load_factor_exceeded Z (u64_filled n 33) = false).
  { rewrite u64_load_factor; [| lia | rewrite Hid; reflexivity].
    rewrite Hid. reflexivity. }
  assert (Hall : forall i, 0 <= i < 2 ^ 32 ->
    slot_continues Z eq_u64 (u64_filled n 33) (2 ^ 32) 0 i = true).
  { intros i Hi. destruct (Hused i Hi) as [Hst Hdt].
    unfold slot_continues. rewrite Hst, Hdt.
    change (1 =? 1) with true. cbv iota. cbn [val u64_key]. unfold eq_u64.
    destruct (Z.eqb_spec i (2 ^ 32)); [lia | reflexivity]. }
  destruct (wide_table_calls 0 hash_u64 eq_u64 16 calloc_always
              (u64_filled n 33) (2 ^ 32) 0 33 (u64_states n (Z.to_nat (2 ^ 33))))
    as (Hfind & Hcontains & Hremove & Hinsert);
    [lia | reflexivity | reflexivity | | assumption |].
  { rewrite u64_states_length by lia. cbn [capacity u64_filled].
    apply Z2Nat.id. discriminate. }
  exists (u64_filled n 33).
  split; [exact Hrun |].
  split; [exact (run_reachable 0 hash_u64 eq_u64 16 calloc_always _ _ _
                   u64_init_reachable Hrun) |].
  split; [exact Hid |].
  split; [reflexivity |].
  split; [exact Hlf |].
  split; [exact Hused |].
  split; [exact Hfind |].
  split; [exact Hremove |].
  split; [exact Hcontains |].
  exact (Hinsert Hlf).
Qed.

(** C5. Round trip, in a table of [2^33] cells. With 64-bit keys and a
    [calloc] that serves every request, the calls [insert(0)], ...,
    [insert(2^32 - 1)] on a freshly initialised set all run to their end
    and leave a set of [2^32] entries in [2^33] cells, which never grows
    again. The probe index is 32 bits wide: the probe of the key [2^32],
    which is not in the set, goes through the slots 0 to [2^32 - 1], all
    used, comes back to its start and gives up with the capacity for an
    index. [remove], [contains] and [insert] of that key then index the
    state array one cell past its end, which is undefined behaviour:
    no call of [contains] after them returns false or true. *)
Theorem round_trip_breaks_in_a_table_of_2_33_cells :
  exists s : u64_set,
    u64_run (snd u64_set_init) (u64_inserts (Z.to_nat (2 ^ 32))) = Ok s /\
    u64_reachable s /\
    size s = 2 ^ 32 /\ capacity s = 2 ^ 33 /\
    load_factor_exceeded Z s = false /\
    (forall i, 0 <= i < 2 ^ 32 ->
       load (state s) i = Ok 1 /\ load (data s) i = Ok (u64_key i)) /\
    u64_set_find_slot s (2 ^ 32) 0 = Ok (capacity s) /\
    u64_set_remove s (2 ^ 32) 0 = Fault OutOfBounds /\
    u64_set_contains s (2 ^ 32) 0 = Fault OutOfBounds /\
    u64_set_insert s (2 ^ 32) 0 = Fault OutOfBounds.
Proof.
  apply u64_table_of_2_33_cells. apply Z2Nat.id. discriminate.
Qed.
